(** * Verification of the hierarchical page-table simulator (VirtualMemory.cpp)

    The translation/allocation/eviction engine of the simulator is embedded
    function by function: [phys], [offsetOf], [indexAtLevel], [clearFrame],
    [cyclicDistance], [scan], [allocateFrame], [walk], [VMinitialize],
    [VMread] and [VMwrite].  Unsigned 64-bit values are integers with their
    wrap-around written out; the physical memory collaborator and the
    configuration constants, which the engine only consumes, are section
    parameters or small models of their documented interface. *)

From stdpp Require Import gmap list.
From Stdlib Require Import ZArith Lia Bool.

Local Open Scope Z_scope.

(** ** Machine integers *)

Definition UINT64_MAX : Z := 2 ^ 64 - 1.

(** Conversion to [uint64_t]: reduction modulo 2^64. *)
Definition u64 (x : Z) : Z := x mod 2 ^ 64.

(** Conversion to a signed two's complement integer of [w] bits. *)
Definition wrap_signed (w x : Z) : Z :=
  let y := x mod 2 ^ w in
  if y <? 2 ^ (w - 1) then y else y - 2 ^ w.

(** ** Physical memory *)

(** Modelled from the spec: the physical memory substrate (PhysicalMemory.h
    and PhysicalMemory.cpp are not part of the sources).  It is a
    word-addressable store together with a swap store keyed by virtual page
    number.  Words that were never written read as 0. *)
Record PM : Type := mkPM {
  ram : gmap Z Z;
  swapFile : gmap Z (list Z)
}.

(** Modelled from the spec: [readWord(physicalAddress) -> word]. *)
Definition PMread (addr : Z) (m : PM) : Z := default 0 (ram m !! addr).

(** Modelled from the spec: [writeWord(physicalAddress, value)]. *)
Definition PMwrite (addr : Z) (value : Z) (m : PM) : PM :=
  mkPM (<[addr := value]> (ram m)) (swapFile m).

(** Stores the words [ws] at the consecutive addresses starting at [base]. *)
Fixpoint store_words (base : Z) (ws : list Z) (r : gmap Z Z) : gmap Z Z :=
  match ws with
  | [] => r
  | w :: ws' => store_words (base + 1) ws' (<[base := w]> r)
  end.

(** An example memory, for a configuration with pages of two words, two
    levels and three frames: the root (frame 0) points to the table in
    frame 1, which points to the data frame 2 of page 0, whose first word
    is 7. *)
Definition small_memory : PM :=
  mkPM (list_to_map [(0, 1); (1, 0); (2, 2); (3, 0); (4, 7)]) ∅.

(** A second example memory, for the same configuration: the root points to
    the table in frame 1, which is empty; frame 2 has not been used yet.  It
    is the memory the walker leaves after the first level of its first
    walk. *)
Definition empty_table_memory : PM :=
  mkPM (list_to_map [(0, 1); (1, 0); (2, 0); (3, 0)]) ∅.



(** Two memories of the same configuration with five frames, where two
    pages are resident and all frames are in use: after writes to the
    addresses 2 and 6 the pages 1 and 3 are in the frames 2 and 4; after
    writes to the addresses 2 and 4 the pages 1 and 2 are. *)
Definition tie_memory : PM :=
  mkPM (list_to_map [(0, 1); (1, 3); (2, 0); (3, 2); (4, 5); (6, 0); (7, 4); (8, 9)]) ∅.

Definition far_memory : PM :=
  mkPM (list_to_map [(0, 1); (1, 3); (2, 0); (3, 2); (4, 5); (6, 4); (7, 0); (8, 9)]) ∅.

Section VirtualMemory.

(** Configuration constants of MemoryConstants.h, which is not part of the
    sources: they are parameters of the development. [WORD_WIDTH] is the
    number of bits of the signed type [word_t]. *)
Variables OFFSET_WIDTH TABLES_DEPTH NUM_FRAMES NUM_PAGES
          VIRTUAL_MEMORY_SIZE WORD_WIDTH : Z.

(** Modelled from the spec: the branching factor is the power of two whose
    base-2 logarithm is [OFFSET_WIDTH]. *)
Definition PAGE_SIZE : Z := 2 ^ OFFSET_WIDTH.

(** Conversions between [word_t] and [uint64_t]. *)
Definition to_word (x : Z) : Z := wrap_signed WORD_WIDTH x.

(** The words of frame [frameIndex], in row order. *)
Definition frame_words (frameIndex : Z) (m : PM) : list Z :=
  (fun i => PMread (frameIndex * PAGE_SIZE + i) m) <$> seqZ 0 PAGE_SIZE.

(** Modelled from the spec: [evict(frame, virtualPage)] moves the frame's
    current data page to swap storage keyed by [virtualPage]. *)
Definition PMevict (frameIndex evictedPageIndex : Z) (m : PM) : PM :=
  mkPM (ram m) (<[evictedPageIndex := frame_words frameIndex m]> (swapFile m)).

(** Modelled from the spec: [restore(frame, virtualPage)] loads the page
    previously stored under [virtualPage] into [frame].  When no page was
    stored under that number the frame keeps its contents. *)
Definition PMrestore (frameIndex restoredPageIndex : Z) (m : PM) : PM :=
  match swapFile m !! restoredPageIndex with
  | Some ws => mkPM (store_words (frameIndex * PAGE_SIZE) ws (ram m)) (swapFile m)
  | None => m
  end.

(** ** Helpers *)

Definition phys (frame row : Z) : Z := u64 (frame * PAGE_SIZE + row).

Definition offsetOf (va : Z) : Z := Z.land va (PAGE_SIZE - 1).

Definition indexAtLevel (va : Z) (level : Z) : Z :=
  let k := OFFSET_WIDTH + OFFSET_WIDTH * (TABLES_DEPTH - 1 - level) in
  Z.land (Z.shiftr va k) (PAGE_SIZE - 1).

Definition clearFrame (frame : Z) (isLeaf : bool) (m : PM) : PM :=
  if isLeaf then m
  else fold_left (fun m' i => PMwrite (phys frame i) 0 m') (seqZ 0 PAGE_SIZE) m.

(** ** Depth-first scan *)

Record scanInfo : Type := mkScanInfo {
  emptyFrame : Z;
  emptyParent : Z;
  emptyRowInParent : Z;
  maxFrame : Z;
  victimFrame : Z;
  victimParent : Z;
  victimRowInParent : Z;
  victimPage : Z;
  victimDistance : Z
}.

(** The default member initialisers of [scanInfo]. *)
Definition scanInfo_init : scanInfo :=
  mkScanInfo UINT64_MAX UINT64_MAX UINT64_MAX 0 UINT64_MAX UINT64_MAX 0 0 0.

Definition set_maxFrame (v : Z) (i : scanInfo) : scanInfo :=
  mkScanInfo (emptyFrame i) (emptyParent i) (emptyRowInParent i) v
             (victimFrame i) (victimParent i) (victimRowInParent i)
             (victimPage i) (victimDistance i).

Definition set_victim (dist entry page row frame : Z) (i : scanInfo) : scanInfo :=
  mkScanInfo (emptyFrame i) (emptyParent i) (emptyRowInParent i) (maxFrame i)
             entry frame row page dist.

Definition set_empty (frame parent row : Z) (i : scanInfo) : scanInfo :=
  mkScanInfo frame parent row (maxFrame i)
             (victimFrame i) (victimParent i) (victimRowInParent i)
             (victimPage i) (victimDistance i).

Definition cyclicDistance (a b : Z) : Z :=
  let diff := if b <? a then u64 (a - b) else u64 (b - a) in
  Z.min diff (u64 (NUM_PAGES - diff)).

(** One iteration of the row loop of [scan]; [rec] is the recursive call
    on the child table, [acc] holds the local flag [allZero] and [info]. *)
Definition scan_row (rec : Z -> Z -> scanInfo -> scanInfo)
    (frame depth pagePrefix targetPage : Z) (m : PM)
    (acc : bool * scanInfo) (row : Z) : bool * scanInfo :=
  let entry := PMread (phys frame row) m in
  if entry =? 0 then acc
  else
    let info1 := set_maxFrame (Z.max (maxFrame (snd acc)) (u64 entry)) (snd acc) in
    let newPrefix := Z.lor (u64 (Z.shiftl pagePrefix OFFSET_WIDTH)) row in
    if depth + 1 <? TABLES_DEPTH then (false, rec (u64 entry) newPrefix info1)
    else
      let dist := cyclicDistance newPrefix targetPage in
      if victimDistance info1 <? dist
      then (false, set_victim dist (u64 entry) newPrefix row frame info1)
      else (false, info1).

(** The second row loop of [scan]: the first row of [frame] whose entry is
    [target], if any. *)
Definition find_row (frame target : Z) (m : PM) : option Z :=
  List.find (fun row => u64 (PMread (phys frame row) m) =? target)
            (seqZ 0 PAGE_SIZE).

(** What [scan] does with a table once its rows have been visited. *)
Definition scan_finish (frame parentFrame : Z) (m : PM)
    (allZero : bool) (info : scanInfo) : scanInfo :=
  if allZero && (frame =? parentFrame) then info
  else
    let info2 :=
      if allZero && negb (frame =? 0) && (emptyFrame info =? UINT64_MAX)
      then set_empty frame UINT64_MAX 0 info else info in
    if negb (emptyFrame info2 =? UINT64_MAX) && (emptyParent info2 =? UINT64_MAX)
    then match find_row frame (emptyFrame info2) m with
         | Some row => set_empty (emptyFrame info2) frame row info2
         | None => info2
         end
    else info2.

(** [scan]; the recursion is bounded by the test [depth + 1 < TABLES_DEPTH],
    [fuel] only makes that bound structural. *)
Fixpoint scan (fuel : nat) (frame depth pagePrefix targetPage : Z)
    (info : scanInfo) (parentFrame : Z) (m : PM) : scanInfo :=
  match fuel with
  | O => info
  | S fuel' =>
    let acc :=
      fold_left
        (scan_row (fun child newPrefix info' =>
                     scan fuel' child (depth + 1) newPrefix targetPage info' parentFrame m)
                  frame depth pagePrefix targetPage m)
        (seqZ 0 PAGE_SIZE) (true, info) in
    scan_finish frame parentFrame m (fst acc) (snd acc)
  end.

(** The recursion depth of [scan] never exceeds [TABLES_DEPTH] levels. *)
Definition scan_fuel : nat := S (Z.to_nat TABLES_DEPTH).

(** ** Frame allocation *)

Definition allocateFrame (parentFrame ParentRow targetPage : Z) (isLeaf : bool)
    (m : PM) : Z * PM :=
  let info := scan scan_fuel 0 0 0 targetPage scanInfo_init parentFrame m in
  if negb (emptyFrame info =? UINT64_MAX) && negb (emptyFrame info =? parentFrame)
  then
    let m1 := PMwrite (phys (emptyParent info) (emptyRowInParent info)) 0 m in
    (emptyFrame info, clearFrame (emptyFrame info) isLeaf m1)
  else if u64 (maxFrame info + 1) <? NUM_FRAMES
  then
    let newFrame := u64 (maxFrame info + 1) in
    (newFrame, clearFrame newFrame isLeaf m)
  else
    let m1 := PMevict (victimFrame info) (victimPage info) m in
    let m2 := PMwrite (phys (victimParent info) (victimRowInParent info)) 0 m1 in
    (victimFrame info, clearFrame (victimFrame info) isLeaf m2).

(** ** Page-table walker *)

(** The level loop of [walk]: [n] iterations remain, the current one is
    [level].  [None] is the [false] return, which leaves [leafFrame_out]
    unset. *)
Fixpoint walk_loop (n : nat) (level va : Z) (create : bool) (frame : Z) (m : PM)
    : option Z * PM :=
  match n with
  | O => (Some frame, m)
  | S n' =>
    let row := indexAtLevel va level in
    let child := PMread (phys frame row) m in
    if child =? 0 then
      if negb create then (None, m)
      else
        let isLeaf := (level + 1 =? TABLES_DEPTH) in
        let '(newFrame, m1) :=
          allocateFrame frame row (Z.shiftr va OFFSET_WIDTH) isLeaf m in
        let m2 := if isLeaf
                  then PMrestore newFrame (Z.shiftr va OFFSET_WIDTH) m1
                  else clearFrame newFrame false m1 in
        let m3 := PMwrite (phys frame row) (to_word newFrame) m2 in
        walk_loop n' (level + 1) va create (u64 (to_word newFrame)) m3
    else walk_loop n' (level + 1) va create (u64 child) m
  end.

Definition walk (va : Z) (create : bool) (m : PM) : option Z * PM :=
  walk_loop (Z.to_nat TABLES_DEPTH) 0 va create 0 m.

(** ** Public API *)

Definition VMinitialize (m : PM) : PM := clearFrame 0 false m.

(** [VMread virtualAddress value m]: [value] is the word [*value] holds
    before the call.  The result is the return code, the word [*value] holds
    after the call and the memory; [None] stands for the use of an unset
    [leafFrame]. *)
Definition VMread (virtualAddress : Z) (value : Z) (m : PM) : option (Z * Z * PM) :=
  if VIRTUAL_MEMORY_SIZE <=? virtualAddress then Some (0, value, m)
  else
    match walk virtualAddress true m with
    | (Some leafFrame, m1) =>
        Some (1, PMread (phys leafFrame (offsetOf virtualAddress)) m1, m1)
    | (None, _) => None
    end.

Definition VMwrite (virtualAddress : Z) (value : Z) (m : PM) : option (Z * PM) :=
  if VIRTUAL_MEMORY_SIZE <=? virtualAddress then Some (0, m)
  else
    match walk virtualAddress true m with
    | (Some leafFrame, m1) =>
        Some (1, PMwrite (phys leafFrame (offsetOf virtualAddress)) value m1)
    | (None, _) => None
    end.

(** ** Configuration *)

(** What the configuration constants have to satisfy: a virtual address
    fits in 63 bits, the page numbers fill at most the [TABLES_DEPTH] digits
    of the tree, there are more frames than tree levels, a frame index fits
    in a non-negative [word_t] and a physical address in 64 bits. *)
Definition config_ok : Prop :=
  0 < OFFSET_WIDTH /\ 0 < TABLES_DEPTH /\
  OFFSET_WIDTH * (TABLES_DEPTH + 1) < 64 /\
  0 < NUM_PAGES <= PAGE_SIZE ^ TABLES_DEPTH /\
  VIRTUAL_MEMORY_SIZE = NUM_PAGES * PAGE_SIZE /\
  TABLES_DEPTH < NUM_FRAMES /\
  0 < WORD_WIDTH <= 64 /\
  NUM_FRAMES <= 2 ^ (WORD_WIDTH - 1) /\
  NUM_FRAMES * PAGE_SIZE <= 2 ^ 64.

(** ** The page-table tree read off the physical memory *)

(** The word at row [row] of frame [frame]. *)
Definition entry (m : PM) (frame row : Z) : Z := PMread (phys frame row) m.

Definition row_ok (row : Z) : Prop := 0 <= row < PAGE_SIZE.
Definition frame_ok (frame : Z) : Prop := 0 <= frame < NUM_FRAMES.

(** Following the rows of [path] downwards from [frame]. *)
Fixpoint descend (m : PM) (frame : Z) (path : list Z) : option Z :=
  match path with
  | [] => Some frame
  | row :: rest =>
      let e := entry m frame row in
      if e =? 0 then None else descend m (u64 e) rest
  end.

(** The frame reached from the root (frame 0) along [path]. *)
Definition frame_at (m : PM) (path : list Z) : option Z := descend m 0 path.

Definition path_ok (path : list Z) : Prop := Forall row_ok path.

(** The digits of a virtual address, one per level, topmost first. *)
Definition walk_path (va : Z) : list Z :=
  indexAtLevel va <$> seqZ 0 TABLES_DEPTH.

(** Digit concatenation, most significant digit first. *)
Definition page_of_path (path : list Z) : Z :=
  fold_left (fun acc row => acc * PAGE_SIZE + row) path 0.

(** All the rows of a table are empty. *)
Definition all_zero (m : PM) (frame : Z) : Prop :=
  forall row, row_ok row -> entry m frame row = 0.

(** The invariant of the page-table tree:
    - every entry of a table of the tree is a frame index;
    - a frame sits at one place of the tree only;
    - the frames of the tree are 0, 1, ..., k for some k;
    - the data frames serve pages below [NUM_PAGES];
    - a page in the swap store has [PAGE_SIZE] words. *)
Record tree_inv (m : PM) : Prop := mkTreeInv {
  inv_range : forall path frame row,
    path_ok path -> Z.of_nat (length path) < TABLES_DEPTH ->
    frame_at m path = Some frame -> row_ok row ->
    0 <= entry m frame row < NUM_FRAMES;
  inv_inj : forall p1 p2 frame,
    path_ok p1 -> path_ok p2 ->
    Z.of_nat (length p1) <= TABLES_DEPTH -> Z.of_nat (length p2) <= TABLES_DEPTH ->
    frame_at m p1 = Some frame -> frame_at m p2 = Some frame -> p1 = p2;
  inv_contig : forall path frame g,
    path_ok path -> Z.of_nat (length path) <= TABLES_DEPTH ->
    frame_at m path = Some frame -> 1 <= g <= frame ->
    exists q, path_ok q /\ Z.of_nat (length q) <= TABLES_DEPTH /\
              frame_at m q = Some g;
  inv_pages : forall path frame,
    path_ok path -> Z.of_nat (length path) = TABLES_DEPTH ->
    frame_at m path = Some frame -> page_of_path path < NUM_PAGES;
  inv_swap : forall page ws,
    swapFile m !! page = Some ws -> Z.of_nat (length ws) = PAGE_SIZE
}.

(** ** The executions of the simulator *)

Inductive op : Type :=
  | OpRead (virtualAddress : Z)
  | OpWrite (virtualAddress value : Z).

(** The address an operation is about. *)
Definition op_address (o : op) : Z :=
  match o with
  | OpRead a => a
  | OpWrite a _ => a
  end.

(** One public operation; a read starts with [*value = 0]. *)
Definition run_op (o : op) (m : PM) : option PM :=
  match o with
  | OpRead a => match VMread a 0 m with Some (_, _, m') => Some m' | None => None end
  | OpWrite a v => match VMwrite a v m with Some (_, m') => Some m' | None => None end
  end.

Fixpoint run_ops (os : list op) (m : PM) : option PM :=
  match os with
  | [] => Some m
  | o :: os' => match run_op o m with Some m' => run_ops os' m' | None => None end
  end.

(** The initialized state: [VMinitialize] on a memory with any contents and
    an empty swap store. *)
Definition initial (r : gmap Z Z) : PM := VMinitialize (mkPM r ∅).

(** The states between two public operations; the address of an
    operation is a [uint64_t]. *)
Inductive reachable : PM -> Prop :=
  | reach_init r : reachable (initial r)
  | reach_step o m m' :
      reachable m -> 0 <= op_address o <= UINT64_MAX ->
      run_op o m = Some m' -> reachable m'.

(** The states between two levels of a walk of the simulator: the walk of
    an in-range address from a reachable state has passed [n] levels. *)
Definition in_walk (m : PM) : Prop :=
  exists m0 va (n : nat),
    reachable m0 /\ 0 <= va < VIRTUAL_MEMORY_SIZE /\
    Z.of_nat n <= TABLES_DEPTH /\
    snd (walk_loop n 0 va true 0 m0) = m.

(** The calls [allocateFrame parentFrame ParentRow targetPage isLeaf] the
    walker makes, on memory [m], in the executions of the simulator: the
    walk of an in-range address [va] from a reachable state has passed
    [level] levels and finds row [ParentRow] of [parentFrame] empty. *)
Definition alloc_call (m : PM) (parentFrame ParentRow targetPage : Z)
    (isLeaf : bool) : Prop :=
  exists m0 va level,
    reachable m0 /\ 0 <= va < VIRTUAL_MEMORY_SIZE /\
    0 <= level < TABLES_DEPTH /\
    walk_loop (Z.to_nat level) 0 va true 0 m0 = (Some parentFrame, m) /\
    ParentRow = indexAtLevel va level /\
    PMread (phys parentFrame ParentRow) m = 0 /\
    targetPage = Z.shiftr va OFFSET_WIDTH /\
    isLeaf = (level + 1 =? TABLES_DEPTH).

(** ** The depth-first order of the tree *)

(** A mapped data page: its virtual page number, its frame, and the table
    and row that point to the frame. *)
Record leaf : Type := mkLeaf {
  leaf_page : Z;
  leaf_frame : Z;
  leaf_parent : Z;
  leaf_row : Z
}.

(** The data pages below [frame] in depth-first order, rows ascending;
    [n] is the number of levels below [frame] and [prefix] the digits
    that lead to [frame]. *)
Fixpoint dfs_leaves (n : nat) (m : PM) (frame prefix : Z) : list leaf :=
  match n with
  | O => []
  | S n' =>
    flat_map
      (fun row =>
         let e := entry m frame row in
         if e =? 0 then []
         else match n' with
              | O => [mkLeaf (prefix * PAGE_SIZE + row) (u64 e) frame row]
              | S _ => dfs_leaves n' m (u64 e) (prefix * PAGE_SIZE + row)
              end)
      (seqZ 0 PAGE_SIZE)
  end.

(** The mapped data pages of the whole tree, in depth-first order. *)
Definition mapped_leaves (m : PM) : list leaf :=
  dfs_leaves (Z.to_nat TABLES_DEPTH) m 0 0.

(** The frames referenced below [frame], in depth-first order. *)
Fixpoint dfs_frames (n : nat) (m : PM) (frame : Z) : list Z :=
  match n with
  | O => []
  | S n' =>
    flat_map
      (fun row =>
         let e := entry m frame row in
         if e =? 0 then [] else u64 e :: dfs_frames n' m (u64 e))
      (seqZ 0 PAGE_SIZE)
  end.

(** The distance of two page numbers on the ring of [NUM_PAGES] pages. *)
Definition ring_distance (a b : Z) : Z :=
  Z.min (Z.abs (a - b)) (NUM_PAGES - Z.abs (a - b)).

(** The eviction candidate a [scanInfo] holds, with its distance. *)
Definition victim_of (i : scanInfo) : Z * leaf :=
  (victimDistance i,
   mkLeaf (victimPage i) (victimFrame i) (victimParent i) (victimRowInParent i)).

(** The comparison of [scan]: a strictly larger distance replaces the
    candidate. *)
Definition pick (targetPage : Z) (best : Z * leaf) (l : leaf) : Z * leaf :=
  let dist := cyclicDistance (leaf_page l) targetPage in
  if fst best <? dist then (dist, l) else best.

(** The reuse candidate a [scanInfo] holds. *)
Definition empty_of (i : scanInfo) : Z * Z * Z :=
  (emptyFrame i, emptyParent i, emptyRowInParent i).

Definition all_zerob (m : PM) (frame : Z) : bool :=
  forallb (fun row => entry m frame row =? 0) (seqZ 0 PAGE_SIZE).

(** The tables the scan visits below [frame] hold no entry equal to [x]. *)
Definition no_entry (m : PM) (frame depth x : Z) : Prop :=
  forall q g row,
    path_ok q -> Z.of_nat (length q) < TABLES_DEPTH - depth ->
    descend m frame q = Some g -> row_ok row -> u64 (entry m g row) <> x.

(** [frame] is an empty table that [scan] may propose for reuse while the
    table [parentFrame] is being populated. *)
Definition reusable (m : PM) (parentFrame frame : Z) : Prop :=
  all_zerob m frame = true /\ frame <> 0 /\ frame <> parentFrame.

(** The part of the tree below [frame], which sits at depth [depth], is
    well formed: its entries are frame indices and no frame occurs twice. *)
Definition subtree_ok (m : PM) (frame depth : Z) : Prop :=
  frame_ok frame /\
  (forall q g row,
     path_ok q -> Z.of_nat (length q) < TABLES_DEPTH - depth ->
     descend m frame q = Some g -> row_ok row ->
     0 <= entry m g row < NUM_FRAMES) /\
  (forall q1 q2 g,
     path_ok q1 -> path_ok q2 ->
     Z.of_nat (length q1) <= TABLES_DEPTH - depth ->
     Z.of_nat (length q2) <= TABLES_DEPTH - depth ->
     descend m frame q1 = Some g -> descend m frame q2 = Some g -> q1 = q2).

(** No table at or below [frame] is reusable. *)
Definition none_reusable (m : PM) (parentFrame frame depth : Z) : Prop :=
  forall q g,
    path_ok q -> Z.of_nat (length q) < TABLES_DEPTH - depth ->
    descend m frame q = Some g -> ~ reusable m parentFrame g.

(** [info] holds a reusable table below [frame] together with the entry
    that points to it. *)
Definition found_reusable (m : PM) (parentFrame frame depth : Z)
    (info : scanInfo) : Prop :=
  exists q,
    path_ok q /\ Z.of_nat (length q) + 1 < TABLES_DEPTH - depth /\
    descend m frame q = Some (emptyParent info) /\
    row_ok (emptyRowInParent info) /\
    entry m (emptyParent info) (emptyRowInParent info) = emptyFrame info /\
    reusable m parentFrame (emptyFrame info) /\
    emptyFrame info <> UINT64_MAX /\ emptyParent info <> UINT64_MAX.

(** [x] is the data page at the end of the path [q ++ [leaf_row x]] below
    [frame], where [prefix] are the digits that lead to [frame]. *)
Definition leaf_at (m : PM) (frame prefix : Z) (n : nat) (x : leaf) : Prop :=
  exists q,
    path_ok q /\ row_ok (leaf_row x) /\ S (length q) = n /\
    descend m frame q = Some (leaf_parent x) /\
    entry m (leaf_parent x) (leaf_row x) <> 0 /\
    leaf_frame x = u64 (entry m (leaf_parent x) (leaf_row x)) /\
    leaf_page x = prefix * PAGE_SIZE ^ Z.of_nat n + page_of_path (q ++ [leaf_row x]).

(** The frames met on the way down from [frame] along [path]. *)
Fixpoint chain (m : PM) (frame : Z) (path : list Z) : list Z :=
  match path with
  | [] => []
  | row :: rest =>
      let e := entry m frame row in
      if e =? 0 then [] else u64 e :: chain m (u64 e) rest
  end.

(** The walk of [va] has reached [frame] after [level] levels and finds the
    entry for the next level empty. *)
Definition fault_at (m : PM) (va level frame : Z) : Prop :=
  tree_inv m /\ 0 <= va < VIRTUAL_MEMORY_SIZE /\ 0 <= level < TABLES_DEPTH /\
  frame_at m (take (Z.to_nat level) (walk_path va)) = Some frame /\
  entry m frame (indexAtLevel va level) = 0.

(** A call [allocateFrame parentFrame ParentRow targetPage isLeaf] with the
    arguments the walker passes, on a well-formed tree [m], reached by the
    simulator or not: [parentFrame] is the table the walk of an in-range
    address has reached after [level] levels, its row [ParentRow] for the
    next level is empty, [targetPage] is the page of the address and
    [isLeaf] tells whether the next level is the last. *)
Definition table_call (m : PM) (parentFrame ParentRow targetPage : Z)
    (isLeaf : bool) : Prop :=
  exists va level,
    fault_at m va level parentFrame /\
    ParentRow = indexAtLevel va level /\
    targetPage = Z.shiftr va OFFSET_WIDTH /\
    isLeaf = (level + 1 =? TABLES_DEPTH).

(** ** One resolved fault *)

(** The effect on the memory of resolving one fault: the walker, at the
    table [F] that sits at the end of the path [pF], finds row [row] empty,
    obtains the frame [X] from the allocator, prepares it and links it.
    [old] tells where [X] comes from: [None] for a frame that was not in
    the tree, [Some (qX, rX, PX)] for the frame that row [rX] of the table
    [PX], at the end of the path [qX], pointed to. *)
Record alloc_step (m m' : PM) (pF : list Z) (F row X target : Z)
    (old : option (list Z * Z * Z)) : Prop := mkAllocStep {
  st_frame : 1 <= X < NUM_FRAMES;
  st_ne : X <> F;
  st_fresh : old = None ->
    (forall p, path_ok p -> Z.of_nat (length p) <= TABLES_DEPTH ->
       frame_at m p <> Some X) /\
    (forall g, 1 <= g < X ->
       exists q, path_ok q /\ Z.of_nat (length q) <= TABLES_DEPTH /\
                 frame_at m q = Some g);
  st_old : forall qX rX PX, old = Some (qX, rX, PX) ->
    path_ok qX /\ row_ok rX /\ Z.of_nat (length qX) < TABLES_DEPTH /\
    frame_at m qX = Some PX /\ entry m PX rX = X /\
    (Z.of_nat (length qX) + 1 < TABLES_DEPTH -> all_zero m X);
  st_link : entry m' F row = X;
  st_unlink : forall qX rX PX, old = Some (qX, rX, PX) -> entry m' PX rX = 0;
  st_other : forall g r, frame_ok g -> row_ok r -> g <> X -> (g, r) <> (F, row) ->
    (forall qX rX PX, old = Some (qX, rX, PX) -> (g, r) <> (PX, rX)) ->
    entry m' g r = entry m g r;
  st_clear : Z.of_nat (length pF) + 1 < TABLES_DEPTH -> all_zero m' X;
  st_restore : Z.of_nat (length pF) + 1 = TABLES_DEPTH ->
    forall ws, swapFile m' !! target = Some ws ->
    forall r, row_ok r -> entry m' X r = default 0 (ws !! Z.to_nat r);
  st_swap : swapFile m' =
    match old with
    | Some (qX, rX, PX) =>
        if Z.of_nat (length qX) + 1 =? TABLES_DEPTH
        then <[page_of_path (qX ++ [rX]) := frame_words X m]> (swapFile m)
        else swapFile m
    | None => swapFile m
    end
}.

(** The place of the tree the frame of a resolved fault is taken from. *)
Definition old_path (old : option (list Z * Z * Z)) : option (list Z) :=
  match old with
  | Some (qX, rX, _) => Some (qX ++ [rX])
  | None => None
  end.

(** The scan [allocateFrame] starts with. *)
Definition alloc_info (parentFrame targetPage : Z) (m : PM) : scanInfo :=
  scan scan_fuel 0 0 0 targetPage scanInfo_init parentFrame m.

(** What the walker does with the frame [X] it got from the allocator for
    row [row] of table [F]: restore or clear, then link. *)
Definition link_frame (F row X target : Z) (isLeaf : bool) (m1 : PM) : PM :=
  let m2 := if isLeaf then PMrestore X target m1 else clearFrame X false m1 in
  PMwrite (phys F row) (to_word X) m2.

(** The three ways of [allocateFrame], in its order of priority. *)
Inductive alloc_choice : Type := Reuse | Fresh | Evict.

(** The way [allocateFrame parentFrame _ targetPage _] takes on [m]. *)
Definition alloc_decision (parentFrame targetPage : Z) (m : PM) : alloc_choice :=
  let info := alloc_info parentFrame targetPage m in
  if negb (emptyFrame info =? UINT64_MAX) && negb (emptyFrame info =? parentFrame)
  then Reuse
  else if u64 (maxFrame info + 1) <? NUM_FRAMES then Fresh
  else Evict.

(** [v] is the first of the mapped data pages, in depth-first order,
    whose distance to [targetPage] is the largest. *)
Definition first_farthest (m : PM) (targetPage : Z) (v : leaf) : Prop :=
  exists l1 l2,
    mapped_leaves m = l1 ++ v :: l2 /\
    (forall x, x ∈ l1 -> cyclicDistance (leaf_page x) targetPage
                         < cyclicDistance (leaf_page v) targetPage) /\
    (forall x, x ∈ l2 -> cyclicDistance (leaf_page x) targetPage
                         <= cyclicDistance (leaf_page v) targetPage).

(** An in-range operation on an address of another page than that of
    [a]. *)
Definition other_page (a : Z) (o : op) : Prop :=
  0 <= op_address o < VIRTUAL_MEMORY_SIZE /\
  Z.shiftr (op_address o) OFFSET_WIDTH <> Z.shiftr a OFFSET_WIDTH.

(** An operation that does not write to the address [a]. *)
Definition keeps_address (a : Z) (o : op) : Prop :=
  match o with
  | OpRead _ => True
  | OpWrite b _ => b <> a
  end.

(** Some table of the tree is reusable while [parentFrame] is being
    populated. *)
Definition has_reusable (m : PM) (parentFrame : Z) : Prop :=
  exists p g,
    path_ok p /\ Z.of_nat (length p) < TABLES_DEPTH /\
    frame_at m p = Some g /\ reusable m parentFrame g.


(** [j] continues [i]: the high-water mark and the distance of the eviction
    candidate have not decreased, and an empty table once found is kept. *)
Definition info_le (i j : scanInfo) : Prop :=
  maxFrame i <= maxFrame j /\ victimDistance i <= victimDistance j /\
  (emptyFrame i <> UINT64_MAX -> emptyFrame j = emptyFrame i).

(** ** The contents of the virtual memory *)

(** The word the simulator holds for the virtual address [va]: in the data
    frame of its page when the page is mapped, in the swap store
    otherwise. *)
Definition vread (m : PM) (va : Z) : option Z :=
  match frame_at m (walk_path va) with
  | Some leafFrame => Some (entry m leafFrame (offsetOf va))
  | None =>
      match swapFile m !! (va / PAGE_SIZE) with
      | Some ws => ws !! Z.to_nat (offsetOf va)
      | None => None
      end
  end.

(** * Proofs *)

Section WithConfig.

Hypothesis Hcfg : config_ok.

(** ** Arithmetic of the configuration *)

Lemma u64_small x : 0 <= x < 2 ^ 64 -> u64 x = x.
Proof. intros H. unfold u64. apply Z.mod_small. exact H. Qed.

Lemma PAGE_SIZE_pos : 2 <= PAGE_SIZE.
Proof.
  unfold PAGE_SIZE. destruct Hcfg as (Hw & _).
  change 2 with (2 ^ 1) at 1. apply Z.pow_le_mono_r; lia.
Qed.

Lemma OFFSET_WIDTH_lt : 0 < OFFSET_WIDTH < 64.
Proof. destruct Hcfg as (Hw & Hd & Hva & _). nia. Qed.

Lemma TABLES_DEPTH_pos : 0 < TABLES_DEPTH.
Proof. destruct Hcfg as (_ & Hd & _). exact Hd. Qed.

Lemma NUM_FRAMES_bound : TABLES_DEPTH < NUM_FRAMES /\ NUM_FRAMES * PAGE_SIZE <= 2 ^ 64.
Proof. destruct Hcfg as (_ & _ & _ & _ & _ & Hnf & _ & _ & Hram). split; assumption. Qed.

Lemma NUM_FRAMES_lt : NUM_FRAMES < 2 ^ 64.
Proof.
  pose proof NUM_FRAMES_bound as [_ H]. pose proof PAGE_SIZE_pos.
  pose proof TABLES_DEPTH_pos. nia.
Qed.

Lemma phys_ok frame row : frame_ok frame -> row_ok row ->
  phys frame row = frame * PAGE_SIZE + row.
Proof.
  unfold frame_ok, row_ok, phys. intros Hf Hr. apply u64_small.
  pose proof NUM_FRAMES_bound as [_ H]. nia.
Qed.

Lemma phys_inj f1 r1 f2 r2 :
  frame_ok f1 -> row_ok r1 -> frame_ok f2 -> row_ok r2 ->
  phys f1 r1 = phys f2 r2 -> f1 = f2 /\ r1 = r2.
Proof.
  intros Hf1 Hr1 Hf2 Hr2. rewrite !phys_ok by assumption.
  unfold frame_ok, row_ok in *. intros E.
  destruct (Z.lt_trichotomy f1 f2) as [Hlt | [Heq | Hgt]]; [nia | subst; lia | nia].
Qed.

Lemma to_word_frame x : 0 <= x < NUM_FRAMES -> to_word x = x.
Proof.
  intros Hx. unfold to_word, wrap_signed.
  destruct Hcfg as (_ & _ & _ & _ & _ & _ & Hw & Hnf & _).
  assert (2 ^ (WORD_WIDTH - 1) < 2 ^ WORD_WIDTH) by (apply Z.pow_lt_mono_r; lia).
  rewrite Z.mod_small by lia.
  destruct (Z.ltb_spec x (2 ^ (WORD_WIDTH - 1))); lia.
Qed.

Lemma u64_frame x : 0 <= x < NUM_FRAMES -> u64 x = x.
Proof. intros Hx. apply u64_small. pose proof NUM_FRAMES_lt. lia. Qed.

(** ** Reads after writes *)

Lemma PMread_PMwrite a b v m :
  PMread a (PMwrite b v m) = if decide (a = b) then v else PMread a m.
Proof.
  unfold PMread, PMwrite; simpl. rewrite lookup_insert.
  repeat case_decide; try congruence; reflexivity.
Qed.

Lemma clear_fold_other frame rows m a :
  a ∉ (phys frame <$> rows) ->
  PMread a (fold_left (fun m' i => PMwrite (phys frame i) 0 m') rows m) = PMread a m.
Proof.
  revert m. induction rows as [|i rows IH]; intros m Hne; simpl; [reflexivity|].
  rewrite fmap_cons, not_elem_of_cons in Hne. destruct Hne as [Hne1 Hne2].
  rewrite IH by exact Hne2.
  rewrite PMread_PMwrite. case_decide as E; [contradiction | reflexivity].
Qed.

Lemma clear_fold_hit frame rows m a :
  a ∈ (phys frame <$> rows) ->
  PMread a (fold_left (fun m' i => PMwrite (phys frame i) 0 m') rows m) = 0.
Proof.
  revert m. induction rows as [|i rows IH]; intros m Hin; simpl.
  - rewrite fmap_nil in Hin. set_solver.
  - destruct (decide (a ∈ (phys frame <$> rows))) as [Hin' | Hout].
    + apply IH. exact Hin'.
    + rewrite clear_fold_other by exact Hout.
      rewrite PMread_PMwrite. case_decide as E; [reflexivity|].
      rewrite fmap_cons in Hin. apply elem_of_cons in Hin as [-> | Hin]; congruence.
Qed.

Lemma swapFile_clear_fold frame rows m :
  swapFile (fold_left (fun m' i => PMwrite (phys frame i) 0 m') rows m) = swapFile m.
Proof. revert m. induction rows as [|i rows IH]; intros m; simpl; [reflexivity|]. rewrite IH. reflexivity. Qed.

Lemma swapFile_clearFrame frame isLeaf m :
  swapFile (clearFrame frame isLeaf m) = swapFile m.
Proof. unfold clearFrame. destruct isLeaf; [reflexivity | apply swapFile_clear_fold]. Qed.

Lemma entry_PMwrite f r v m f' r' :
  frame_ok f -> row_ok r -> frame_ok f' -> row_ok r' ->
  entry (PMwrite (phys f r) v m) f' r' =
  if decide (f' = f /\ r' = r) then v else entry m f' r'.
Proof.
  intros Hf Hr Hf' Hr'. unfold entry. rewrite PMread_PMwrite.
  repeat case_decide; try reflexivity.
  - exfalso. apply phys_inj in H; tauto.
  - exfalso. destruct H0 as [-> ->]. congruence.
Qed.

Lemma entry_clearFrame f m f' r' :
  frame_ok f -> frame_ok f' -> row_ok r' ->
  entry (clearFrame f false m) f' r' = if decide (f' = f) then 0 else entry m f' r'.
Proof.
  intros Hf Hf' Hr'. unfold entry, clearFrame. case_decide as E.
  - subst f'. apply clear_fold_hit. apply list_elem_of_fmap. exists r'.
    split; [reflexivity|]. apply elem_of_seqZ. unfold row_ok in Hr'. lia.
  - apply clear_fold_other. intros Hin. apply list_elem_of_fmap in Hin as (i & Heq & Hi).
    apply elem_of_seqZ in Hi.
    apply phys_inj in Heq; [tauto | assumption .. | unfold row_ok; lia].
Qed.

Lemma store_words_lookup ws base r a :
  default 0 (store_words base ws r !! a) =
  if decide (base <= a < base + Z.of_nat (length ws))
  then default 0 (ws !! Z.to_nat (a - base))
  else default 0 (r !! a).
Proof.
  revert base r. induction ws as [|w ws IH]; intros base r; simpl length.
  - simpl. case_decide; [lia | reflexivity].
  - simpl store_words. rewrite IH. repeat case_decide; try lia.
    + replace (Z.to_nat (a - base)) with (S (Z.to_nat (a - (base + 1)))) by lia.
      reflexivity.
    + assert (a = base) as -> by lia. rewrite lookup_insert_eq.
      replace (Z.to_nat (base - base)) with O by lia. reflexivity.
    + rewrite lookup_insert_ne by lia. reflexivity.
Qed.

Lemma frame_words_lookup f m r :
  frame_ok f -> row_ok r ->
  frame_words f m !! Z.to_nat r = Some (entry m f r).
Proof.
  intros Hf Hr. unfold frame_words. rewrite list_lookup_fmap.
  unfold row_ok in Hr. rewrite lookup_seqZ_lt by lia. simpl.
  unfold entry. rewrite phys_ok by (assumption || exact Hr).
  do 2 f_equal. lia.
Qed.

Lemma frame_words_length f m : Z.of_nat (length (frame_words f m)) = PAGE_SIZE.
Proof.
  unfold frame_words. rewrite length_fmap, length_seqZ.
  pose proof PAGE_SIZE_pos. lia.
Qed.

Lemma entry_PMrestore_some f p m ws f' r' :
  swapFile m !! p = Some ws -> Z.of_nat (length ws) = PAGE_SIZE ->
  frame_ok f -> frame_ok f' -> row_ok r' ->
  entry (PMrestore f p m) f' r' =
  if decide (f' = f) then default 0 (ws !! Z.to_nat r') else entry m f' r'.
Proof.
  intros Hs Hlen Hf Hf' Hr'. unfold entry, PMrestore. rewrite Hs.
  unfold PMread at 1. simpl. rewrite store_words_lookup.
  rewrite phys_ok by assumption. unfold row_ok, frame_ok in *.
  repeat case_decide; try reflexivity.
  - subst f'. do 2 f_equal. lia.
  - exfalso. nia.
  - exfalso. subst f'. lia.
Qed.

Lemma PMrestore_none f p m : swapFile m !! p = None -> PMrestore f p m = m.
Proof. intros Hs. unfold PMrestore. rewrite Hs. reflexivity. Qed.

Lemma swapFile_PMrestore f p m : swapFile (PMrestore f p m) = swapFile m.
Proof. unfold PMrestore. destruct (swapFile m !! p); reflexivity. Qed.

(** ** Digits of addresses and page numbers *)

Lemma lor_shift_add a r n :
  0 <= n -> 0 <= r < 2 ^ n -> Z.lor (a * 2 ^ n) r = a * 2 ^ n + r.
Proof.
  intros Hn Hr. rewrite <- Z.add_lor_land.
  assert (Z.land (a * 2 ^ n) r = 0) as ->; [|lia].
  apply Z.bits_inj'. intros i Hi. rewrite Z.land_spec, Z.bits_0.
  destruct (Z.lt_ge_cases i n) as [Hlt | Hge].
  - rewrite Z.mul_pow2_bits_low by lia. reflexivity.
  - rewrite <- (Z.mod_small r (2 ^ n)) by lia.
    rewrite Z.mod_pow2_bits_high by lia. apply andb_false_r.
Qed.

Lemma land_PAGE_SIZE x : Z.land x (PAGE_SIZE - 1) = x mod PAGE_SIZE.
Proof.
  unfold PAGE_SIZE. rewrite <- Z.land_ones by (pose proof OFFSET_WIDTH_lt; lia).
  rewrite Z.ones_equiv. reflexivity.
Qed.

Lemma indexAtLevel_eq va level :
  0 <= level < TABLES_DEPTH ->
  indexAtLevel va level = (va / PAGE_SIZE ^ (TABLES_DEPTH - level)) mod PAGE_SIZE.
Proof.
  intros Hl. unfold indexAtLevel. rewrite land_PAGE_SIZE.
  pose proof OFFSET_WIDTH_lt as Hw.
  rewrite Z.shiftr_div_pow2 by nia. unfold PAGE_SIZE.
  rewrite <- Z.pow_mul_r by lia. do 3 f_equal. lia.
Qed.

Lemma indexAtLevel_ok va level :
  0 <= level < TABLES_DEPTH -> row_ok (indexAtLevel va level).
Proof.
  intros Hl. rewrite indexAtLevel_eq by exact Hl. unfold row_ok.
  apply Z.mod_pos_bound. pose proof PAGE_SIZE_pos. lia.
Qed.

Lemma offsetOf_ok va : row_ok (offsetOf va).
Proof.
  unfold offsetOf. rewrite land_PAGE_SIZE. unfold row_ok.
  apply Z.mod_pos_bound. pose proof PAGE_SIZE_pos. lia.
Qed.

Lemma page_of_path_snoc path row :
  page_of_path (path ++ [row]) = page_of_path path * PAGE_SIZE + row.
Proof. unfold page_of_path. rewrite fold_left_app. reflexivity. Qed.

Lemma page_of_path_bound path :
  path_ok path -> 0 <= page_of_path path < PAGE_SIZE ^ Z.of_nat (length path).
Proof.
  induction path as [|row path IH] using rev_ind; intros Hok.
  - simpl. unfold page_of_path. simpl. lia.
  - unfold path_ok in *. rewrite Forall_app, Forall_singleton in Hok.
    destruct Hok as [Hok Hrow]. specialize (IH Hok). rewrite page_of_path_snoc, length_app. simpl length.
    replace (Z.of_nat (length path + 1)) with (Z.of_nat (length path) + 1) by lia.
    rewrite Z.pow_add_r, Z.pow_1_r by lia. unfold row_ok in Hrow.
    pose proof PAGE_SIZE_pos.
    assert ((page_of_path path + 1) * PAGE_SIZE
            <= PAGE_SIZE ^ Z.of_nat (length path) * PAGE_SIZE)
      by (apply Z.mul_le_mono_nonneg_r; lia).
    nia.
Qed.

Lemma page_of_path_inj p1 p2 :
  path_ok p1 -> path_ok p2 -> length p1 = length p2 ->
  page_of_path p1 = page_of_path p2 -> p1 = p2.
Proof.
  revert p2. induction p1 as [|r1 p1 IH] using rev_ind; intros p2 H1 H2 Hlen Heq.
  - destruct p2; [reflexivity | discriminate].
  - destruct p2 as [|r2 p2 _] using rev_ind.
    + rewrite length_app in Hlen. simpl in Hlen. lia.
    + rewrite !length_app in Hlen. simpl in Hlen.
      unfold path_ok in *. rewrite Forall_app, Forall_singleton in H1, H2.
      destruct H1 as [H1 Hr1], H2 as [H2 Hr2].
      rewrite !page_of_path_snoc in Heq. unfold row_ok in *.
      assert (page_of_path p1 = page_of_path p2 /\ r1 = r2) as [E1 E2].
      { destruct (Z.lt_trichotomy (page_of_path p1) (page_of_path p2)) as [?|[?|?]];
          [nia | split; lia | nia]. }
      subst r2. f_equal. apply IH; [assumption .. | lia | assumption].
Qed.

Lemma walk_path_length va : length (walk_path va) = Z.to_nat TABLES_DEPTH.
Proof. unfold walk_path. rewrite length_fmap, length_seqZ. reflexivity. Qed.

Lemma walk_path_ok va : path_ok (walk_path va).
Proof.
  unfold walk_path, path_ok. apply Forall_fmap, Forall_seqZ.
  intros l Hl. apply indexAtLevel_ok. lia.
Qed.

Lemma walk_path_full a :
  path_ok (walk_path a) /\ Z.of_nat (length (walk_path a)) = TABLES_DEPTH.
Proof.
  split; [apply walk_path_ok|]. rewrite walk_path_length.
  pose proof TABLES_DEPTH_pos. lia.
Qed.

Lemma walk_path_lookup va level :
  0 <= level < TABLES_DEPTH ->
  walk_path va !! Z.to_nat level = Some (indexAtLevel va level).
Proof.
  intros Hl. unfold walk_path. rewrite list_lookup_fmap, lookup_seqZ_lt by lia.
  simpl. do 2 f_equal. lia.
Qed.

Lemma take_walk_path_S va level :
  0 <= level < TABLES_DEPTH ->
  take (Z.to_nat (level + 1)) (walk_path va) =
  take (Z.to_nat level) (walk_path va) ++ [indexAtLevel va level].
Proof.
  intros Hl. replace (Z.to_nat (level + 1)) with (S (Z.to_nat level)) by lia.
  erewrite take_S_r; [reflexivity | apply walk_path_lookup; exact Hl].
Qed.

Lemma page_of_take_walk_path va (j : nat) :
  0 <= va -> Z.of_nat j <= TABLES_DEPTH ->
  page_of_path (take j (walk_path va)) =
  (va / PAGE_SIZE ^ (TABLES_DEPTH - Z.of_nat j + 1)) mod PAGE_SIZE ^ Z.of_nat j.
Proof.
  intros Hva. pose proof PAGE_SIZE_pos as Hps. induction j as [|j IH]; intros Hj.
  - simpl. unfold page_of_path. simpl. rewrite Z.mod_1_r. reflexivity.
  - replace (S j) with (Z.to_nat (Z.of_nat j + 1)) by lia.
    rewrite take_walk_path_S by lia. rewrite Nat2Z.id.
    rewrite page_of_path_snoc, IH by lia. rewrite indexAtLevel_eq by lia.
    replace (Z.of_nat (Z.to_nat (Z.of_nat j + 1))) with (Z.of_nat j + 1) by lia.
    replace (TABLES_DEPTH - (Z.of_nat j + 1) + 1) with (TABLES_DEPTH - Z.of_nat j) by lia.
    set (k := TABLES_DEPTH - Z.of_nat j).
    set (y := va / PAGE_SIZE ^ k).
    assert (Hy : va / PAGE_SIZE ^ (k + 1) = y / PAGE_SIZE).
    { unfold y. rewrite Z.pow_add_r, Z.pow_1_r by lia.
      rewrite Z.div_div; [reflexivity | | lia].
      apply Z.pow_nonzero; lia. }
    rewrite Hy. rewrite Z.pow_add_r, Z.pow_1_r by lia.
    assert (0 < PAGE_SIZE ^ Z.of_nat j) by (apply Z.pow_pos_nonneg; lia).
    rewrite (Z.mul_comm (PAGE_SIZE ^ Z.of_nat j) PAGE_SIZE).
    rewrite Z.rem_mul_r by lia.
    rewrite (Z.mul_comm PAGE_SIZE). lia.
Qed.

Lemma VIRTUAL_MEMORY_SIZE_bound :
  VIRTUAL_MEMORY_SIZE <= PAGE_SIZE ^ (TABLES_DEPTH + 1) /\
  PAGE_SIZE ^ (TABLES_DEPTH + 1) < 2 ^ 64.
Proof.
  destruct Hcfg as (Hw & Hd & Hva & Hnp & Hvms & _). pose proof PAGE_SIZE_pos.
  split.
  - rewrite Hvms, Z.pow_add_r, Z.pow_1_r by lia. nia.
  - unfold PAGE_SIZE. rewrite <- Z.pow_mul_r by lia. apply Z.pow_lt_mono_r; lia.
Qed.

Lemma page_of_walk_path va :
  0 <= va < VIRTUAL_MEMORY_SIZE ->
  page_of_path (walk_path va) = va / PAGE_SIZE.
Proof.
  intros Hva. pose proof TABLES_DEPTH_pos as Hd. pose proof PAGE_SIZE_pos as Hps.
  rewrite <- (firstn_all (walk_path va)), walk_path_length.
  rewrite page_of_take_walk_path by lia.
  rewrite Z2Nat.id by lia.
  replace (TABLES_DEPTH - TABLES_DEPTH + 1) with 1 by lia. rewrite Z.pow_1_r.
  apply Z.mod_small. pose proof VIRTUAL_MEMORY_SIZE_bound as [Hb _].
  rewrite Z.pow_add_r, Z.pow_1_r in Hb by lia. split.
  - apply Z.div_pos; lia.
  - apply Z.div_lt_upper_bound; lia.
Qed.

Lemma shiftr_page va : Z.shiftr va OFFSET_WIDTH = va / PAGE_SIZE.
Proof. rewrite Z.shiftr_div_pow2 by (pose proof OFFSET_WIDTH_lt; lia). reflexivity. Qed.

Lemma page_lt_NUM_PAGES va :
  0 <= va < VIRTUAL_MEMORY_SIZE -> 0 <= va / PAGE_SIZE < NUM_PAGES.
Proof.
  intros Hva. destruct Hcfg as (_ & _ & _ & _ & Hvms & _). pose proof PAGE_SIZE_pos.
  split; [apply Z.div_pos; lia | apply Z.div_lt_upper_bound; lia].
Qed.

(** ** What the scan computes *)

Lemma scan_prefix_eq prefix row k :
  0 <= prefix -> row_ok row -> 0 < k -> (prefix + 1) * PAGE_SIZE ^ k <= 2 ^ 64 ->
  Z.lor (u64 (Z.shiftl prefix OFFSET_WIDTH)) row = prefix * PAGE_SIZE + row.
Proof.
  intros Hp Hr Hk Hb. pose proof OFFSET_WIDTH_lt as Hw. pose proof PAGE_SIZE_pos as Hps.
  rewrite Z.shiftl_mul_pow2 by lia. fold PAGE_SIZE.
  assert (PAGE_SIZE <= PAGE_SIZE ^ k).
  { rewrite <- (Z.pow_1_r PAGE_SIZE) at 1. apply Z.pow_le_mono_r; lia. }
  rewrite u64_small by nia.
  unfold PAGE_SIZE. apply lor_shift_add; [lia | exact Hr].
Qed.

Lemma prefix_child_bound prefix row k :
  0 <= prefix -> row_ok row -> 0 <= k ->
  (prefix + 1) * PAGE_SIZE ^ (k + 1) <= 2 ^ 64 ->
  0 <= prefix * PAGE_SIZE + row /\
  (prefix * PAGE_SIZE + row + 1) * PAGE_SIZE ^ k <= 2 ^ 64.
Proof.
  intros Hp Hr Hk Hb. pose proof PAGE_SIZE_pos as Hps. unfold row_ok in Hr.
  rewrite Z.pow_add_r, Z.pow_1_r in Hb by lia.
  assert (0 < PAGE_SIZE ^ k) by (apply Z.pow_pos_nonneg; lia).
  split; [nia|].
  assert ((prefix * PAGE_SIZE + row + 1) * PAGE_SIZE ^ k
          <= ((prefix + 1) * PAGE_SIZE) * PAGE_SIZE ^ k)
    by (apply Z.mul_le_mono_nonneg_r; nia).
  nia.
Qed.

Lemma victim_of_scan_finish frame parentFrame m az info :
  victim_of (scan_finish frame parentFrame m az info) = victim_of info.
Proof.
  unfold scan_finish.
  repeat match goal with |- context [if ?b then _ else _] => destruct b end;
    try reflexivity;
    repeat match goal with |- context [match ?o with Some _ => _ | None => _ end] =>
      destruct o end; reflexivity.
Qed.

Lemma maxFrame_scan_finish frame parentFrame m az info :
  maxFrame (scan_finish frame parentFrame m az info) = maxFrame info.
Proof.
  unfold scan_finish.
  repeat match goal with |- context [if ?b then _ else _] => destruct b end;
    try reflexivity;
    repeat match goal with |- context [match ?o with Some _ => _ | None => _ end] =>
      destruct o end; reflexivity.
Qed.

Lemma scan_victim targetPage parentFrame m fuel :
  forall n frame depth prefix info,
    Z.of_nat n = TABLES_DEPTH - depth -> (1 <= n <= fuel)%nat ->
    0 <= prefix -> (prefix + 1) * PAGE_SIZE ^ Z.of_nat n <= 2 ^ 64 ->
    victim_of (scan fuel frame depth prefix targetPage info parentFrame m) =
    fold_left (pick targetPage) (dfs_leaves n m frame prefix) (victim_of info).
Proof.
  induction fuel as [|fuel IH]; intros n frame depth prefix info Hn Hfuel Hp Hb; [lia|].
  destruct n as [|n']; [lia|].
  cbn [scan dfs_leaves]. rewrite victim_of_scan_finish.
  assert (Hrows : Forall row_ok (seqZ 0 PAGE_SIZE)).
  { apply Forall_seqZ. unfold row_ok. lia. }
  change info with (snd (true, info)) at 2.
  generalize (true, info). revert Hrows. generalize (seqZ 0 PAGE_SIZE).
  intros rows. induction rows as [|row rows IHrows]; intros Hrows acc; [reflexivity|].
  apply Forall_cons in Hrows as [Hrow Hrows].
  cbn [fold_left flat_map]. rewrite fold_left_app, IHrows by exact Hrows. f_equal.
  unfold scan_row. fold (entry m frame row).
  destruct (entry m frame row =? 0); [reflexivity|].
  rewrite (scan_prefix_eq prefix row (Z.of_nat (S n'))) by (assumption || lia).
  destruct (prefix_child_bound prefix row (Z.of_nat n')) as [Hp' Hb'];
    [assumption | assumption | lia | replace (Z.of_nat n' + 1) with (Z.of_nat (S n')) by lia; assumption |].
  destruct n' as [|n''].
  - destruct (Z.ltb_spec (depth + 1) TABLES_DEPTH) as [Hlt | Hge]; [lia|].
    cbn [snd fold_left]. unfold pick. cbn [leaf_page fst].
    destruct (victimDistance _ <? _) eqn:E; cbn in E |- *; rewrite E; reflexivity.
  - destruct (Z.ltb_spec (depth + 1) TABLES_DEPTH) as [Hlt | Hge]; [|lia].
    cbn [snd]. rewrite (IH (S n'')) by (assumption || lia). reflexivity.
Qed.

Lemma scan_maxFrame targetPage parentFrame m fuel :
  forall n frame depth prefix info,
    Z.of_nat n = TABLES_DEPTH - depth -> (1 <= n <= fuel)%nat ->
    maxFrame (scan fuel frame depth prefix targetPage info parentFrame m) =
    fold_left Z.max (dfs_frames n m frame) (maxFrame info).
Proof.
  induction fuel as [|fuel IH]; intros n frame depth prefix info Hn Hfuel; [lia|].
  destruct n as [|n']; [lia|].
  cbn [scan dfs_frames]. rewrite maxFrame_scan_finish.
  change info with (snd (true, info)) at 2.
  generalize (true, info). generalize (seqZ 0 PAGE_SIZE).
  intros rows. induction rows as [|row rows IHrows]; intros acc; [reflexivity|].
  cbn [fold_left flat_map]. rewrite fold_left_app, IHrows. f_equal.
  unfold scan_row. fold (entry m frame row).
  destruct (entry m frame row =? 0); [reflexivity|].
  cbn [fold_left]. destruct n' as [|n''].
  - destruct (Z.ltb_spec (depth + 1) TABLES_DEPTH) as [Hlt | Hge]; [lia|].
    cbn [dfs_frames fold_left].
    destruct (victimDistance _ <? _); reflexivity.
  - destruct (Z.ltb_spec (depth + 1) TABLES_DEPTH) as [Hlt | Hge]; [|lia].
    cbn [snd]. rewrite (IH (S n'')) by lia. reflexivity.
Qed.

(** The fuel of [scan] is only a bound: any two amounts that cover the
    levels below [depth] give the same result. *)
Lemma scan_fuel_irrelevant targetPage parentFrame m fuel1 :
  forall fuel2 frame depth prefix info,
    (1 <= fuel1)%nat -> (1 <= fuel2)%nat ->
    TABLES_DEPTH - depth <= Z.of_nat fuel1 -> TABLES_DEPTH - depth <= Z.of_nat fuel2 ->
    scan fuel1 frame depth prefix targetPage info parentFrame m =
    scan fuel2 frame depth prefix targetPage info parentFrame m.
Proof.
  induction fuel1 as [|fuel1 IH]; intros fuel2 frame depth prefix info H1 H2 Hd1 Hd2; [lia|].
  destruct fuel2 as [|fuel2]; [lia|]. cbn [scan].
  assert (E : forall rows acc,
            fold_left (scan_row (fun child newPrefix info' =>
                         scan fuel1 child (depth + 1) newPrefix targetPage info' parentFrame m)
                       frame depth prefix targetPage m) rows acc =
            fold_left (scan_row (fun child newPrefix info' =>
                         scan fuel2 child (depth + 1) newPrefix targetPage info' parentFrame m)
                       frame depth prefix targetPage m) rows acc).
  { intros rows. induction rows as [|row rows IHrows]; intros acc; [reflexivity|].
    cbn [fold_left]. rewrite <- IHrows. f_equal. unfold scan_row.
    destruct (PMread _ _ =? 0); [reflexivity|].
    destruct (Z.ltb_spec (depth + 1) TABLES_DEPTH); [|reflexivity].
    f_equal. apply IH; lia. }
  rewrite E. reflexivity.
Qed.

(** *** The reuse candidate *)

Lemma find_row_Some frame target m row :
  find_row frame target m = Some row ->
  row_ok row /\ u64 (entry m frame row) = target.
Proof.
  unfold find_row. intros H. apply find_some in H as [Hin Heq].
  apply list_elem_of_In, elem_of_seqZ in Hin. split; [unfold row_ok; lia|].
  apply Z.eqb_eq in Heq. exact Heq.
Qed.

Lemma find_row_None frame target m :
  (forall row, row_ok row -> u64 (entry m frame row) <> target) ->
  find_row frame target m = None.
Proof.
  intros H. destruct (find_row frame target m) as [row|] eqn:E; [|reflexivity].
  apply find_row_Some in E as [Hr He]. exfalso. exact (H row Hr He).
Qed.

Lemma find_row_exists frame target m row :
  row_ok row -> u64 (entry m frame row) = target ->
  exists row', find_row frame target m = Some row'.
Proof.
  intros Hr He. destruct (find_row frame target m) as [row'|] eqn:E; [eauto|].
  exfalso. unfold find_row in E.
  assert (Hin : In row (seqZ 0 PAGE_SIZE)).
  { apply list_elem_of_In, elem_of_seqZ. unfold row_ok in Hr. lia. }
  pose proof (find_none _ _ E row Hin) as Hf. simpl in Hf.
  apply Z.eqb_neq in Hf. apply Hf. exact He.
Qed.

Lemma empty_of_eq i1 i2 :
  empty_of i1 = empty_of i2 ->
  emptyFrame i1 = emptyFrame i2 /\ emptyParent i1 = emptyParent i2 /\
  emptyRowInParent i1 = emptyRowInParent i2.
Proof. unfold empty_of. intros H. injection H. auto. Qed.

Lemma scan_finish_done frame parentFrame m az info :
  emptyFrame info <> UINT64_MAX -> emptyParent info <> UINT64_MAX ->
  empty_of (scan_finish frame parentFrame m az info) = empty_of info.
Proof.
  intros H1 H2. unfold scan_finish.
  destruct (az && (frame =? parentFrame)); [reflexivity|].
  apply Z.eqb_neq in H1, H2. rewrite H1, andb_false_r. rewrite H1, H2. reflexivity.
Qed.

Lemma scan_finish_pending frame parentFrame m az info :
  emptyFrame info <> UINT64_MAX -> emptyParent info = UINT64_MAX ->
  find_row frame (emptyFrame info) m = None ->
  empty_of (scan_finish frame parentFrame m az info) = empty_of info.
Proof.
  intros H1 H2 H3. unfold scan_finish.
  destruct (az && (frame =? parentFrame)); [reflexivity|].
  apply Z.eqb_neq in H1. rewrite H1, andb_false_r. rewrite H1, H2, H3.
  destruct (negb false && (UINT64_MAX =? UINT64_MAX)); reflexivity.
Qed.

(** A candidate whose parent is known stays as it is. *)
Lemma scan_rows_done rec frame depth pagePrefix targetPage m :
  (forall child prefix info,
     emptyFrame info <> UINT64_MAX -> emptyParent info <> UINT64_MAX ->
     empty_of (rec child prefix info) = empty_of info) ->
  forall rows acc,
    emptyFrame (snd acc) <> UINT64_MAX -> emptyParent (snd acc) <> UINT64_MAX ->
    empty_of (snd (fold_left (scan_row rec frame depth pagePrefix targetPage m) rows acc))
    = empty_of (snd acc).
Proof.
  intros Hrec rows. induction rows as [|row rows IH]; intros acc H1 H2; [reflexivity|].
  cbn [fold_left].
  assert (E : empty_of (snd (scan_row rec frame depth pagePrefix targetPage m acc row))
              = empty_of (snd acc)).
  { unfold scan_row. destruct (PMread _ _ =? 0); [reflexivity|].
    destruct (depth + 1 <? TABLES_DEPTH).
    - cbn [snd]. rewrite Hrec by assumption. reflexivity.
    - destruct (victimDistance _ <? _); reflexivity. }
  apply empty_of_eq in E as E'. destruct E' as (E1 & E2 & _).
  rewrite IH by congruence. exact E.
Qed.

Lemma scan_done targetPage parentFrame m fuel :
  forall frame depth prefix info,
    emptyFrame info <> UINT64_MAX -> emptyParent info <> UINT64_MAX ->
    empty_of (scan fuel frame depth prefix targetPage info parentFrame m) = empty_of info.
Proof.
  induction fuel as [|fuel IH]; intros frame depth prefix info H1 H2; [reflexivity|].
  cbn [scan].
  pose proof (scan_rows_done
    (fun child newPrefix info' =>
       scan fuel child (depth + 1) newPrefix targetPage info' parentFrame m)
    frame depth prefix targetPage m
    (fun child prefix' info' => IH child (depth + 1) prefix' info')
    (seqZ 0 PAGE_SIZE) (true, info) H1 H2) as E.
  apply empty_of_eq in E as E'. destruct E' as (E1 & E2 & _). cbn [snd] in E1, E2.
  rewrite scan_finish_done by congruence. exact E.
Qed.

Lemma no_entry_child m frame depth x row :
  no_entry m frame depth x -> row_ok row -> entry m frame row <> 0 ->
  no_entry m (u64 (entry m frame row)) (depth + 1) x.
Proof.
  intros H Hr He q g r Hq Hlen Hd Hr'.
  apply (H (row :: q) g r); [constructor; assumption | simpl length; lia | | assumption].
  simpl. apply Z.eqb_neq in He. rewrite He. exact Hd.
Qed.

(** A candidate whose parent is not known yet stays as it is while the
    scan visits tables that do not point to it. *)
Lemma scan_rows_pending rec frame depth pagePrefix targetPage m x :
  (forall row prefix info,
     row_ok row -> entry m frame row <> 0 -> depth + 1 < TABLES_DEPTH ->
     emptyFrame info = x -> emptyParent info = UINT64_MAX ->
     empty_of (rec (u64 (entry m frame row)) prefix info) = empty_of info) ->
  x <> UINT64_MAX ->
  forall rows acc,
    Forall row_ok rows ->
    emptyFrame (snd acc) = x -> emptyParent (snd acc) = UINT64_MAX ->
    empty_of (snd (fold_left (scan_row rec frame depth pagePrefix targetPage m) rows acc))
    = empty_of (snd acc).
Proof.
  intros Hrec Hx rows. induction rows as [|row rows IH]; intros acc Hrows H1 H2; [reflexivity|].
  apply Forall_cons in Hrows as [Hrow Hrows]. cbn [fold_left].
  assert (E : empty_of (snd (scan_row rec frame depth pagePrefix targetPage m acc row))
              = empty_of (snd acc)).
  { unfold scan_row. fold (entry m frame row).
    destruct (Z.eqb_spec (entry m frame row) 0) as [|He]; [reflexivity|].
    destruct (Z.ltb_spec (depth + 1) TABLES_DEPTH).
    - cbn [snd]. rewrite Hrec by assumption. reflexivity.
    - destruct (victimDistance _ <? _); reflexivity. }
  apply empty_of_eq in E as E'. destruct E' as (E1 & E2 & _).
  rewrite IH by congruence. exact E.
Qed.

Lemma scan_pending targetPage parentFrame m x fuel :
  x <> UINT64_MAX ->
  forall frame depth prefix info,
    no_entry m frame depth x -> depth < TABLES_DEPTH ->
    emptyFrame info = x -> emptyParent info = UINT64_MAX ->
    empty_of (scan fuel frame depth prefix targetPage info parentFrame m) = empty_of info.
Proof.
  intros Hx. induction fuel as [|fuel IH]; intros frame depth prefix info Hno Hd H1 H2;
    [reflexivity|].
  cbn [scan].
  assert (Hrows : Forall row_ok (seqZ 0 PAGE_SIZE)).
  { apply Forall_seqZ. unfold row_ok. lia. }
  pose proof (scan_rows_pending
    (fun child newPrefix info' =>
       scan fuel child (depth + 1) newPrefix targetPage info' parentFrame m)
    frame depth prefix targetPage m x) as E.
  specialize (E (fun row prefix' info' Hr He Hlt =>
    IH _ (depth + 1) prefix' info' (no_entry_child _ _ _ _ row Hno Hr He) Hlt) Hx
    (seqZ 0 PAGE_SIZE) (true, info) Hrows H1 H2).
  apply empty_of_eq in E as E'. destruct E' as (E1 & E2 & _). cbn [snd] in E1, E2.
  rewrite scan_finish_pending; [exact E | congruence | congruence |].
  rewrite E1, H1. apply find_row_None. intros row Hr.
  apply (Hno [] frame row); [constructor | simpl; lia | reflexivity | exact Hr].
Qed.

Lemma descend_cons m frame row q :
  descend m frame (row :: q) =
  if entry m frame row =? 0 then None else descend m (u64 (entry m frame row)) q.
Proof. reflexivity. Qed.

Lemma descend_cons_ne m frame row q :
  entry m frame row <> 0 ->
  descend m frame (row :: q) = descend m (u64 (entry m frame row)) q.
Proof. intros He. rewrite descend_cons. apply Z.eqb_neq in He. rewrite He. reflexivity. Qed.

Lemma descend_app m frame p q :
  descend m frame (p ++ q) =
  match descend m frame p with Some g => descend m g q | None => None end.
Proof.
  revert frame. induction p as [|row p IH]; intros frame; [reflexivity|].
  simpl. destruct (entry m frame row =? 0); [reflexivity | apply IH].
Qed.

Lemma descend_snoc m frame p row g :
  descend m frame p = Some g ->
  descend m frame (p ++ [row]) =
  if entry m g row =? 0 then None else Some (u64 (entry m g row)).
Proof. intros H. rewrite descend_app, H. reflexivity. Qed.

Lemma subtree_ok_child m frame depth row :
  subtree_ok m frame depth -> row_ok row -> entry m frame row <> 0 ->
  depth < TABLES_DEPTH ->
  subtree_ok m (u64 (entry m frame row)) (depth + 1).
Proof.
  intros (Hf & Hrange & Hinj) Hr He Hd.
  assert (Hc : 0 <= entry m frame row < NUM_FRAMES).
  { apply (Hrange [] frame row); [constructor | simpl; lia | reflexivity | exact Hr]. }
  split; [|split].
  - rewrite u64_frame by exact Hc. exact Hc.
  - intros q g r Hq Hlen Hdesc Hr'.
    apply (Hrange (row :: q) g r); [constructor; assumption | simpl length; lia | | exact Hr'].
    rewrite descend_cons_ne by exact He. exact Hdesc.
  - intros q1 q2 g Hq1 Hq2 Hl1 Hl2 Hd1 Hd2.
    assert (E : row :: q1 = row :: q2); [|congruence].
    apply (Hinj _ _ g); try (constructor; assumption); try (simpl length; lia);
      rewrite descend_cons_ne by exact He; assumption.
Qed.

Lemma scan_rows_fst rec frame depth pagePrefix targetPage m rows acc :
  fst (fold_left (scan_row rec frame depth pagePrefix targetPage m) rows acc) =
  fst acc && forallb (fun row => entry m frame row =? 0) rows.
Proof.
  revert acc. induction rows as [|row rows IH]; intros acc; simpl.
  - rewrite andb_true_r. reflexivity.
  - rewrite IH. unfold scan_row. fold (entry m frame row).
    destruct (entry m frame row =? 0); [reflexivity|].
    rewrite andb_false_r.
    destruct (depth + 1 <? TABLES_DEPTH); [reflexivity|].
    destruct (victimDistance _ <? _); reflexivity.
Qed.

Lemma all_zerob_true m frame :
  all_zerob m frame = true <-> all_zero m frame.
Proof.
  unfold all_zerob, all_zero. rewrite forallb_forall. split.
  - intros H row Hr. apply Z.eqb_eq, H, list_elem_of_In, elem_of_seqZ.
    unfold row_ok in Hr. lia.
  - intros H row Hin. apply Z.eqb_eq, H.
    apply list_elem_of_In, elem_of_seqZ in Hin. unfold row_ok. lia.
Qed.

Lemma subtree_entry_ok m frame depth row :
  subtree_ok m frame depth -> depth < TABLES_DEPTH -> row_ok row ->
  0 <= entry m frame row < NUM_FRAMES /\ u64 (entry m frame row) = entry m frame row.
Proof.
  intros (Hf & Hrange & _) Hd Hr.
  assert (Hc : 0 <= entry m frame row < NUM_FRAMES).
  { apply (Hrange [] frame row); [constructor | simpl; lia | reflexivity | exact Hr]. }
  split; [exact Hc | apply u64_frame; exact Hc].
Qed.

Lemma no_entry_sibling m frame depth row row' :
  subtree_ok m frame depth -> row_ok row -> row_ok row' ->
  entry m frame row <> 0 -> entry m frame row' <> 0 -> depth + 1 < TABLES_DEPTH ->
  no_entry m (u64 (entry m frame row')) (depth + 1) (u64 (entry m frame row)).
Proof.
  intros Hok Hr Hr' He He' Hd q g r Hq Hlen Hdesc Hrr Heq.
  destruct (subtree_entry_ok m frame depth row Hok ltac:(lia) Hr) as [Hc Hu].
  pose proof Hok as (Hf & Hrange & Hinj).
  assert (Hg : 0 <= entry m g r < NUM_FRAMES).
  { apply (Hrange (row' :: q) g r); [constructor; assumption | simpl length; lia | | exact Hrr].
    rewrite descend_cons_ne by exact He'. exact Hdesc. }
  rewrite (u64_frame _ Hg), Hu in Heq.
  assert (E : [row] = row' :: (q ++ [r])).
  { apply (Hinj _ _ (entry m frame row)).
    - constructor; [exact Hr | constructor].
    - constructor; [exact Hr'|]. apply Forall_app. split; [exact Hq|].
      constructor; [exact Hrr | constructor].
    - simpl. lia.
    - simpl length. rewrite length_app. simpl. lia.
    - rewrite descend_cons_ne by exact He. simpl. congruence.
    - rewrite descend_cons_ne by exact He'. rewrite (descend_snoc _ _ _ _ _ Hdesc).
      destruct (Z.eqb_spec (entry m g r) 0); [lia|]. rewrite (u64_frame _ Hg). congruence. }
  injection E as _ E. destruct q; discriminate.
Qed.

Lemma scan_rows_fresh rec frame depth pagePrefix targetPage parentFrame m :
  subtree_ok m frame depth -> depth < TABLES_DEPTH ->
  (forall row pfx info,
     row_ok row -> entry m frame row <> 0 -> depth + 1 < TABLES_DEPTH ->
     emptyFrame info = UINT64_MAX ->
     (emptyFrame (rec (u64 (entry m frame row)) pfx info) = UINT64_MAX /\
      none_reusable m parentFrame (u64 (entry m frame row)) (depth + 1)) \/
     (emptyFrame (rec (u64 (entry m frame row)) pfx info) = u64 (entry m frame row) /\
      emptyParent (rec (u64 (entry m frame row)) pfx info) = UINT64_MAX /\
      reusable m parentFrame (u64 (entry m frame row))) \/
     found_reusable m parentFrame (u64 (entry m frame row)) (depth + 1)
       (rec (u64 (entry m frame row)) pfx info)) ->
  (forall child pfx info,
     emptyFrame info <> UINT64_MAX -> emptyParent info <> UINT64_MAX ->
     empty_of (rec child pfx info) = empty_of info) ->
  (forall x row pfx info,
     x <> UINT64_MAX -> row_ok row -> entry m frame row <> 0 ->
     depth + 1 < TABLES_DEPTH ->
     no_entry m (u64 (entry m frame row)) (depth + 1) x ->
     emptyFrame info = x -> emptyParent info = UINT64_MAX ->
     empty_of (rec (u64 (entry m frame row)) pfx info) = empty_of info) ->
  forall rows acc,
    Forall row_ok rows -> emptyFrame (snd acc) = UINT64_MAX ->
    let acc' := fold_left (scan_row rec frame depth pagePrefix targetPage m) rows acc in
    (emptyFrame (snd acc') = UINT64_MAX /\
     forall row, row ∈ rows -> entry m frame row <> 0 ->
       none_reusable m parentFrame (u64 (entry m frame row)) (depth + 1)) \/
    (exists row, row_ok row /\ entry m frame row <> 0 /\ depth + 1 < TABLES_DEPTH /\
       emptyFrame (snd acc') = u64 (entry m frame row) /\
       emptyParent (snd acc') = UINT64_MAX /\
       reusable m parentFrame (u64 (entry m frame row))) \/
    (exists row, row_ok row /\ entry m frame row <> 0 /\
       found_reusable m parentFrame (u64 (entry m frame row)) (depth + 1) (snd acc')).
Proof.
  intros Hok Hd Hfresh Hdone Hpend rows.
  induction rows as [|row rows IH]; intros acc Hrows Hacc acc'.
  - left. split; [exact Hacc | intros row Hin; set_solver].
  - apply Forall_cons in Hrows as [Hrow Hrows]. subst acc'. cbn [fold_left].
    destruct (subtree_entry_ok m frame depth row Hok Hd Hrow) as [Hc Hu].
    (* the rows after [row] when nothing was found at [row] *)
    assert (Hnext : forall acc1, emptyFrame (snd acc1) = UINT64_MAX ->
              (entry m frame row <> 0 ->
               none_reusable m parentFrame (u64 (entry m frame row)) (depth + 1)) ->
              (emptyFrame (snd (fold_left (scan_row rec frame depth pagePrefix targetPage m)
                                          rows acc1)) = UINT64_MAX /\
               forall row0, row0 ∈ row :: rows -> entry m frame row0 <> 0 ->
                 none_reusable m parentFrame (u64 (entry m frame row0)) (depth + 1)) \/
              (exists row0, row_ok row0 /\ entry m frame row0 <> 0 /\ depth + 1 < TABLES_DEPTH /\
                 emptyFrame (snd (fold_left (scan_row rec frame depth pagePrefix targetPage m)
                                            rows acc1)) = u64 (entry m frame row0) /\
                 emptyParent (snd (fold_left (scan_row rec frame depth pagePrefix targetPage m)
                                             rows acc1)) = UINT64_MAX /\
                 reusable m parentFrame (u64 (entry m frame row0))) \/
              (exists row0, row_ok row0 /\ entry m frame row0 <> 0 /\
                 found_reusable m parentFrame (u64 (entry m frame row0)) (depth + 1)
                   (snd (fold_left (scan_row rec frame depth pagePrefix targetPage m)
                                   rows acc1)))).
    { intros acc1 H1 Hnone. destruct (IH acc1 Hrows H1) as [[Ha Hb] | [Hb | Hb]].
      - left. split; [exact Ha|]. intros row0 Hin He0.
        apply elem_of_cons in Hin as [-> | Hin]; [apply Hnone; exact He0 | apply Hb; assumption].
      - right. left. exact Hb.
      - right. right. exact Hb. }
    remember (scan_row rec frame depth pagePrefix targetPage m acc row) as acc1 eqn:E1.
    unfold scan_row in E1. fold (entry m frame row) in E1.
    destruct (Z.eqb_spec (entry m frame row) 0) as [Hz | Hnz].
    { subst acc1. apply Hnext; [exact Hacc | intros; contradiction]. }
    destruct (Z.ltb_spec (depth + 1) TABLES_DEPTH) as [Hlt | Hge].
    2:{ assert (Hvac : none_reusable m parentFrame (u64 (entry m frame row)) (depth + 1)).
        { intros q g _ Hlen. lia. }
        destruct (victimDistance _ <? _); subst acc1;
          apply Hnext; try exact Hacc; intros; exact Hvac. }
    set (pfx := Z.lor (u64 (Z.shiftl pagePrefix OFFSET_WIDTH)) row) in *.
    set (info1 := set_maxFrame (Z.max (maxFrame (snd acc)) (u64 (entry m frame row))) (snd acc)) in *.
    subst acc1.
    destruct (Hfresh row pfx info1 Hrow Hnz Hlt Hacc) as [[Ha Hb] | [(Ha & Hb & Hcand) | Hfound]].
    + apply Hnext; [exact Ha | intros; exact Hb].
    + right. left. exists row.
      assert (Hx : u64 (entry m frame row) <> UINT64_MAX).
      { rewrite Hu. pose proof NUM_FRAMES_lt. unfold UINT64_MAX. lia. }
      pose proof (scan_rows_pending rec frame depth pagePrefix targetPage m
                    (u64 (entry m frame row))) as E.
      specialize (E (fun row' pfx' info' Hr' He' Hlt' H1 H2 =>
                Hpend _ row' pfx' info' Hx Hr' He' Hlt'
                  (no_entry_sibling m frame depth row row' Hok Hrow Hr' Hnz He' Hlt') H1 H2)
              Hx rows (false, rec (u64 (entry m frame row)) pfx info1) Hrows Ha Hb).
      apply empty_of_eq in E as (E1 & E2 & _). cbn [snd] in E1, E2.
      cbn [snd] in Ha, Hb.
      split; [exact Hrow|]. split; [exact Hnz|]. split; [exact Hlt|].
      split; [congruence|]. split; [congruence | exact Hcand].
    + right. right. exists row. split; [exact Hrow|]. split; [exact Hnz|].
      destruct Hfound as (q & Hq & Hlen & Hdesc & Hr & He & Hcand & Hn1 & Hn2).
      pose proof (scan_rows_done rec frame depth pagePrefix targetPage m Hdone rows
                    (false, rec (u64 (entry m frame row)) pfx info1) Hn1 Hn2) as E.
      apply empty_of_eq in E as (E1 & E2 & E3). cbn [snd] in E1, E2, E3.
      exists q. rewrite E1, E2, E3.
      split; [exact Hq|]. split; [exact Hlen|]. split; [exact Hdesc|].
      split; [exact Hr|]. split; [exact He|]. split; [exact Hcand|].
      split; assumption.
Qed.

Lemma none_reusable_cons m parentFrame frame depth :
  ~ reusable m parentFrame frame ->
  (forall row, row_ok row -> entry m frame row <> 0 ->
     none_reusable m parentFrame (u64 (entry m frame row)) (depth + 1)) ->
  none_reusable m parentFrame frame depth.
Proof.
  intros Hself Hsub q g Hq Hlen Hdesc. destruct q as [|row q].
  - simpl in Hdesc. injection Hdesc as <-. exact Hself.
  - apply Forall_cons in Hq as [Hrow Hq]. rewrite descend_cons in Hdesc.
    destruct (Z.eqb_spec (entry m frame row) 0) as [|He]; [discriminate|].
    apply (Hsub row Hrow He q g Hq); [simpl length in Hlen; lia | exact Hdesc].
Qed.

Lemma found_reusable_cons m parentFrame frame depth row info :
  row_ok row -> entry m frame row <> 0 ->
  found_reusable m parentFrame (u64 (entry m frame row)) (depth + 1) info ->
  found_reusable m parentFrame frame depth info.
Proof.
  intros Hrow He (q & Hq & Hlen & Hdesc & Hrest). exists (row :: q).
  split; [constructor; assumption|]. split; [simpl length; lia|].
  split; [rewrite descend_cons_ne by exact He; exact Hdesc | exact Hrest].
Qed.

(** When no candidate is held yet, the scan of a well-formed subtree ends
    with no candidate only if the subtree has no reusable table; otherwise
    it holds a reusable table of the subtree: the subtree's root, whose
    parent is still to be filled in, or a table below it together with the
    entry that points to it. *)
Lemma scan_fresh targetPage parentFrame m fuel :
  forall frame depth prefix info,
    subtree_ok m frame depth -> depth < TABLES_DEPTH ->
    (Z.to_nat (TABLES_DEPTH - depth) <= fuel)%nat ->
    emptyFrame info = UINT64_MAX ->
    (emptyFrame (scan fuel frame depth prefix targetPage info parentFrame m) = UINT64_MAX /\
     none_reusable m parentFrame frame depth) \/
    (emptyFrame (scan fuel frame depth prefix targetPage info parentFrame m) = frame /\
     emptyParent (scan fuel frame depth prefix targetPage info parentFrame m) = UINT64_MAX /\
     reusable m parentFrame frame) \/
    found_reusable m parentFrame frame depth
      (scan fuel frame depth prefix targetPage info parentFrame m).
Proof.
  induction fuel as [|fuel IH]; intros frame depth prefix info Hok Hd Hfuel Hinfo; [lia|].
  cbn [scan].
  assert (Hrows : Forall row_ok (seqZ 0 PAGE_SIZE)).
  { apply Forall_seqZ. unfold row_ok. lia. }
  pose proof (scan_rows_fresh
    (fun child newPrefix info' =>
       scan fuel child (depth + 1) newPrefix targetPage info' parentFrame m)
    frame depth prefix targetPage parentFrame m Hok Hd) as Hloop.
  specialize (Hloop
    (fun row pfx info' Hr He Hlt Hi =>
       IH _ (depth + 1) pfx info' (subtree_ok_child m frame depth row Hok Hr He Hd)
          Hlt ltac:(lia) Hi)
    (fun child pfx info' => scan_done targetPage parentFrame m fuel child (depth + 1) pfx info')
    (fun x row pfx info' Hx Hr He Hlt Hno =>
       scan_pending targetPage parentFrame m x fuel Hx _ (depth + 1) pfx info' Hno Hlt)
    (seqZ 0 PAGE_SIZE) (true, info) Hrows Hinfo).
  cbn zeta in Hloop.
  pose proof (scan_rows_fst
    (fun child newPrefix info' =>
       scan fuel child (depth + 1) newPrefix targetPage info' parentFrame m)
    frame depth prefix targetPage m (seqZ 0 PAGE_SIZE) (true, info)) as Hfst.
  cbn [fst andb] in Hfst. fold (all_zerob m frame) in Hfst.
  set (acc := fold_left _ _ _) in *. clearbody acc. rewrite Hfst. clear Hfst.
  destruct Hok as (Hf & Hrange & Hinj).
  assert (HfM : frame <> UINT64_MAX).
  { pose proof NUM_FRAMES_lt. unfold frame_ok in Hf. unfold UINT64_MAX. lia. }
  destruct Hloop as [[Ha Hnone] | [(row & Hrow & He & Hlt & Ha & Hb & Hcand) | (row & Hrow & He & Hfound)]].
  - (* nothing below [frame] *)
    assert (Hsub : forall row, row_ok row -> entry m frame row <> 0 ->
               none_reusable m parentFrame (u64 (entry m frame row)) (depth + 1)).
    { intros row Hr He. apply Hnone; [|exact He].
      apply elem_of_seqZ. unfold row_ok in Hr. lia. }
    unfold scan_finish. rewrite Ha, Z.eqb_refl, andb_true_r.
    destruct (all_zerob m frame) eqn:Haz; cbn [andb negb].
    + destruct (Z.eqb_spec frame parentFrame) as [Hfp | Hfp].
      { left. split; [exact Ha|]. apply none_reusable_cons; [|exact Hsub].
        intros (_ & _ & Hne). contradiction. }
      destruct (Z.eqb_spec frame 0) as [Hf0 | Hf0]; cbn [negb].
      { rewrite Ha, Z.eqb_refl. cbn [negb andb]. left. split; [exact Ha|].
        apply none_reusable_cons; [|exact Hsub]. intros (_ & Hne & _). contradiction. }
      cbn [set_empty emptyFrame emptyParent].
      apply Z.eqb_neq in HfM. rewrite HfM, Z.eqb_refl. cbn [negb andb].
      rewrite find_row_None.
      * right. left. cbn. repeat split; assumption.
      * intros row Hr. apply all_zerob_true in Haz. rewrite (Haz row Hr).
        unfold u64. rewrite Z.mod_0_l by lia. congruence.
    + rewrite Ha, Z.eqb_refl. cbn [negb andb]. left. split; [exact Ha|].
      apply none_reusable_cons; [|exact Hsub]. intros (Hne & _ & _). congruence.
  - (* a child of [frame] is the candidate *)
    assert (Haz : all_zerob m frame = false).
    { apply not_true_is_false. intros Haz. apply all_zerob_true in Haz.
      apply He, Haz, Hrow. }
    assert (Hc : 0 <= entry m frame row < NUM_FRAMES).
    { apply (Hrange [] frame row); [constructor | simpl; lia | reflexivity | exact Hrow]. }
    rewrite (u64_frame _ Hc) in *.
    assert (HcM : entry m frame row <> UINT64_MAX).
    { pose proof NUM_FRAMES_lt. unfold UINT64_MAX. lia. }
    unfold scan_finish. rewrite Haz. cbn [andb]. rewrite Ha, Hb.
    apply Z.eqb_neq in HcM. rewrite HcM, Z.eqb_refl. cbn [negb andb].
    destruct (find_row_exists frame (entry m frame row) m row Hrow (u64_frame _ Hc))
      as [row' Hfind].
    rewrite Hfind. apply find_row_Some in Hfind as [Hrow' He'].
    assert (Hc' : 0 <= entry m frame row' < NUM_FRAMES).
    { apply (Hrange [] frame row'); [constructor | simpl; lia | reflexivity | exact Hrow']. }
    rewrite (u64_frame _ Hc') in He'.
    right. right. exists []. cbn. apply Z.eqb_neq in HcM.
    split; [constructor|]. split; [lia|]. split; [reflexivity|].
    split; [exact Hrow'|]. split; [exact He'|]. split; [exact Hcand|].
    split; assumption.
  - (* a table further below is the candidate *)
    pose proof Hfound as (q & _ & _ & _ & _ & _ & _ & Hn1 & Hn2).
    pose proof (scan_finish_done frame parentFrame m (all_zerob m frame) (snd acc) Hn1 Hn2) as E.
    apply empty_of_eq in E as (E1 & E2 & E3).
    right. right. apply (found_reusable_cons m parentFrame frame depth row); try assumption.
    destruct Hfound as (q' & H1 & H2 & H3 & H4 & H5 & H6 & H7 & H8).
    exists q'. rewrite E1, E2, E3. repeat (split; [assumption|]). assumption.
Qed.

(** *** The frames and the data pages the scan meets *)

Lemma elem_of_flat_map_rows {A} (f : Z -> list A) (x : A) :
  x ∈ flat_map f (seqZ 0 PAGE_SIZE) <-> exists row, row_ok row /\ x ∈ f row.
Proof.
  rewrite list_elem_of_In, in_flat_map. split; intros (row & H1 & H2); exists row.
  - apply list_elem_of_In, elem_of_seqZ in H1. apply list_elem_of_In in H2.
    split; [unfold row_ok; lia | exact H2].
  - split; [|apply list_elem_of_In; exact H2].
    apply list_elem_of_In, elem_of_seqZ. unfold row_ok in H1. lia.
Qed.

Lemma elem_of_dfs_frames m g n :
  forall frame,
    g ∈ dfs_frames n m frame <->
    exists p, p <> [] /\ path_ok p /\ (length p <= n)%nat /\ descend m frame p = Some g.
Proof.
  induction n as [|n IH]; intros frame.
  - simpl. split; [intros H; set_solver|].
    intros (p & Hne & _ & Hlen & _). destruct p; [congruence | simpl in Hlen; lia].
  - cbn [dfs_frames]. rewrite elem_of_flat_map_rows. split.
    + intros (row & Hrow & Hin).
      destruct (Z.eqb_spec (entry m frame row) 0) as [|He]; [set_solver|].
      apply elem_of_cons in Hin as [-> | Hin].
      * exists [row]. split; [discriminate|]. split; [constructor; [exact Hrow | constructor]|].
        split; [simpl; lia|]. rewrite descend_cons_ne by exact He. reflexivity.
      * apply IH in Hin as (p & Hne & Hp & Hlen & Hdesc). exists (row :: p).
        split; [discriminate|]. split; [constructor; assumption|].
        split; [simpl; lia|]. rewrite descend_cons_ne by exact He. exact Hdesc.
    + intros (p & Hne & Hp & Hlen & Hdesc). destruct p as [|row p]; [congruence|].
      apply Forall_cons in Hp as [Hrow Hp]. exists row. split; [exact Hrow|].
      rewrite descend_cons in Hdesc.
      destruct (Z.eqb_spec (entry m frame row) 0) as [|He]; [discriminate|].
      destruct p as [|row' p].
      * simpl in Hdesc. injection Hdesc as <-. apply elem_of_cons. left. reflexivity.
      * apply elem_of_cons. right. apply IH. exists (row' :: p).
        split; [discriminate|]. split; [exact Hp|]. split; [simpl in *; lia | exact Hdesc].
Qed.

Lemma page_of_path_cons row path :
  page_of_path (row :: path) =
  row * PAGE_SIZE ^ Z.of_nat (length path) + page_of_path path.
Proof.
  induction path as [|r path IH] using rev_ind.
  - unfold page_of_path. simpl. lia.
  - rewrite app_comm_cons, !page_of_path_snoc, IH, length_app. simpl length.
    replace (Z.of_nat (length path + 1)) with (Z.of_nat (length path) + 1) by lia.
    rewrite Z.pow_add_r, Z.pow_1_r by lia. ring.
Qed.

Lemma elem_of_dfs_leaves m x n :
  forall frame prefix, x ∈ dfs_leaves n m frame prefix <-> leaf_at m frame prefix n x.
Proof.
  induction n as [|n IH]; intros frame prefix.
  - simpl. split; [intros H; set_solver|]. intros (q & _ & _ & Hlen & _). lia.
  - cbn [dfs_leaves]. rewrite elem_of_flat_map_rows. split.
    + intros (row & Hrow & Hin).
      destruct (Z.eqb_spec (entry m frame row) 0) as [|He]; [set_solver|].
      destruct n as [|n'].
      * apply list_elem_of_singleton in Hin. subst x. exists []. cbn.
        split; [constructor|]. split; [exact Hrow|]. split; [reflexivity|].
        split; [reflexivity|]. split; [exact He|]. split; [reflexivity|].
        unfold page_of_path. simpl. rewrite Z.pow_1_r. lia.
      * apply IH in Hin as (q & Hq & Hr & Hlen & Hdesc & He' & Hfr & Hpg).
        exists (row :: q). split; [constructor; assumption|]. split; [exact Hr|].
        split; [simpl; lia|]. split; [rewrite descend_cons_ne by exact He; exact Hdesc|].
        split; [exact He'|]. split; [exact Hfr|].
        rewrite Hpg. rewrite <- app_comm_cons, page_of_path_cons, length_app. simpl length.
        replace (Z.of_nat (S (S n'))) with (Z.of_nat (S n') + 1) by lia.
        replace (Z.of_nat (length q + 1)) with (Z.of_nat (S n')) by lia.
        rewrite Z.pow_add_r, Z.pow_1_r by lia. ring.
    + intros (q & Hq & Hr & Hlen & Hdesc & He' & Hfr & Hpg).
      destruct q as [|row q].
      * simpl in Hdesc. injection Hdesc as Hpar. exists (leaf_row x).
        split; [exact Hr|]. rewrite Hpar.
        destruct (Z.eqb_spec (entry m (leaf_parent x) (leaf_row x)) 0) as [|_]; [contradiction|].
        simpl in Hlen. assert (n = O) as -> by lia.
        apply list_elem_of_singleton. destruct x as [pg fr pa ro]. cbn in *.
        subst. f_equal. unfold page_of_path. simpl. rewrite Z.pow_1_r. lia.
      * apply Forall_cons in Hq as [Hrow Hq]. exists row. split; [exact Hrow|].
        rewrite descend_cons in Hdesc.
        destruct (Z.eqb_spec (entry m frame row) 0) as [|He]; [discriminate|].
        destruct n as [|n']; [simpl in Hlen; lia|].
        apply IH. exists q. split; [exact Hq|]. split; [exact Hr|].
        split; [simpl in Hlen; lia|]. split; [exact Hdesc|].
        split; [exact He'|]. split; [exact Hfr|].
        rewrite Hpg. rewrite <- app_comm_cons, page_of_path_cons, length_app. simpl length.
        replace (Z.of_nat (S (S n'))) with (Z.of_nat (S n') + 1) by lia.
        replace (Z.of_nat (length q + 1)) with (Z.of_nat (S n')) by (simpl in Hlen; lia).
        rewrite Z.pow_add_r, Z.pow_1_r by lia. ring.
Qed.

Lemma fold_max_ge l : forall a, a <= fold_left Z.max l a.
Proof.
  induction l as [|x l IH]; intros a; simpl; [lia|]. specialize (IH (Z.max a x)). lia.
Qed.

Lemma fold_max_elem l : forall a x, x ∈ l -> x <= fold_left Z.max l a.
Proof.
  induction l as [|y l IH]; intros a x Hin; simpl; [set_solver|].
  apply elem_of_cons in Hin as [-> | Hin]; [|apply IH; exact Hin].
  pose proof (fold_max_ge l (Z.max a y)). lia.
Qed.

Lemma fold_max_in l : forall a, fold_left Z.max l a = a \/ fold_left Z.max l a ∈ l.
Proof.
  induction l as [|y l IH]; intros a; simpl; [left; reflexivity|].
  destruct (IH (Z.max a y)) as [E | Hin].
  - rewrite E. destruct (Z.max_spec a y) as [[_ ->] | [_ ->]];
      [right; apply elem_of_cons; left; reflexivity | left; reflexivity].
  - right. apply elem_of_cons. right. exact Hin.
Qed.

(** The fold of [pick] keeps the first data page of largest distance. *)
Lemma pick_fold targetPage l :
  forall best,
    (fold_left (pick targetPage) l best = best /\
     forall x, x ∈ l -> cyclicDistance (leaf_page x) targetPage <= fst best) \/
    (exists l1 v l2,
       l = l1 ++ v :: l2 /\
       fold_left (pick targetPage) l best = (cyclicDistance (leaf_page v) targetPage, v) /\
       fst best < cyclicDistance (leaf_page v) targetPage /\
       (forall x, x ∈ l1 -> cyclicDistance (leaf_page x) targetPage
                            < cyclicDistance (leaf_page v) targetPage) /\
       (forall x, x ∈ l2 -> cyclicDistance (leaf_page x) targetPage
                            <= cyclicDistance (leaf_page v) targetPage)).
Proof.
  induction l as [|y l IH]; intros best.
  - left. split; [reflexivity | intros x Hx; set_solver].
  - cbn [fold_left]. unfold pick at 2 4.
    destruct (Z.ltb_spec (fst best) (cyclicDistance (leaf_page y) targetPage)) as [Hlt | Hge].
    + right. destruct (IH (cyclicDistance (leaf_page y) targetPage, y))
        as [[E Hall] | (l1 & v & l2 & El & E & Hb & H1 & H2)].
      * exists [], y, l. split; [reflexivity|]. split; [exact E|]. split; [exact Hlt|].
        split; [intros x Hx; set_solver | exact Hall].
      * exists (y :: l1), v, l2. split; [rewrite El; reflexivity|]. split; [exact E|].
        cbn [fst] in Hb. split; [lia|]. split; [|exact H2].
        intros x Hx. apply elem_of_cons in Hx as [-> | Hx]; [exact Hb | apply H1; exact Hx].
    + destruct (IH best) as [[E Hall] | (l1 & v & l2 & El & E & Hb & H1 & H2)].
      * left. split; [exact E|]. intros x Hx.
        apply elem_of_cons in Hx as [-> | Hx]; [exact Hge | apply Hall; exact Hx].
      * right. exists (y :: l1), v, l2. split; [rewrite El; reflexivity|]. split; [exact E|].
        split; [exact Hb|]. split; [|exact H2].
        intros x Hx. apply elem_of_cons in Hx as [-> | Hx]; [lia | apply H1; exact Hx].
Qed.

(** *** Distances on the ring of pages *)

Lemma NUM_PAGES_bound : 0 < NUM_PAGES < 2 ^ 64.
Proof.
  destruct Hcfg as (Hw & Hd & Hva & Hnp & _). split; [lia|].
  pose proof VIRTUAL_MEMORY_SIZE_bound as [_ Hb]. pose proof PAGE_SIZE_pos.
  rewrite Z.pow_add_r, Z.pow_1_r in Hb by lia.
  assert (0 < PAGE_SIZE ^ TABLES_DEPTH) by (apply Z.pow_pos_nonneg; lia). nia.
Qed.

Lemma cyclicDistance_ring a b :
  0 <= a < NUM_PAGES -> 0 <= b < NUM_PAGES ->
  cyclicDistance a b = ring_distance a b.
Proof.
  intros Ha Hb. pose proof NUM_PAGES_bound. unfold cyclicDistance, ring_distance.
  destruct (Z.ltb_spec b a).
  - rewrite (u64_small (a - b)) by lia. rewrite u64_small by lia. lia.
  - rewrite (u64_small (b - a)) by lia. rewrite u64_small by lia. lia.
Qed.

Lemma ring_distance_pos a b :
  0 <= a < NUM_PAGES -> 0 <= b < NUM_PAGES -> a <> b -> 0 < ring_distance a b.
Proof. intros Ha Hb Hne. unfold ring_distance. lia. Qed.

(** *** A data page to evict exists *)

Lemma chain_length m path : forall frame, (length (chain m frame path) <= length path)%nat.
Proof.
  induction path as [|row path IH]; intros frame; simpl; [lia|].
  destruct (entry m frame row =? 0); simpl; [lia|]. specialize (IH (u64 (entry m frame row))). lia.
Qed.

Lemma chain_prefix m p :
  forall frame path g,
    p <> [] -> p `prefix_of` path -> descend m frame p = Some g ->
    g ∈ chain m frame path.
Proof.
  induction p as [|row p IH]; intros frame path g Hne Hpre Hdesc; [congruence|].
  destruct path as [|row' path]; [apply prefix_nil_not in Hpre; contradiction|].
  pose proof (prefix_cons_inv_1 _ _ _ _ Hpre) as ->.
  apply prefix_cons_inv_2 in Hpre.
  rewrite descend_cons in Hdesc. simpl.
  destruct (entry m frame row' =? 0); [discriminate|].
  destruct p as [|r p].
  - simpl in Hdesc. injection Hdesc as <-. apply elem_of_cons. left. reflexivity.
  - apply elem_of_cons. right. apply IH; [discriminate | exact Hpre | exact Hdesc].
Qed.

Lemma all_zerob_false m frame :
  all_zerob m frame = false -> exists row, row_ok row /\ entry m frame row <> 0.
Proof.
  unfold all_zerob. intros H.
  assert (Hex : exists row, In row (seqZ 0 PAGE_SIZE) /\ (entry m frame row =? 0) = false).
  { induction (seqZ 0 PAGE_SIZE) as [|r l IH]; [discriminate|].
    simpl in H. apply andb_false_iff in H as [H | H].
    - exists r. split; [left; reflexivity | exact H].
    - destruct (IH H) as (row & Hin & He). exists row. split; [right; exact Hin | exact He]. }
  destruct Hex as (row & Hin & He). exists row.
  apply list_elem_of_In, elem_of_seqZ in Hin. apply Z.eqb_neq in He.
  split; [unfold row_ok; lia | exact He].
Qed.

Lemma frame_at_nil m : frame_at m [] = Some 0.
Proof. reflexivity. Qed.

Lemma frame_at_snoc m p row g :
  frame_at m p = Some g ->
  frame_at m (p ++ [row]) =
  if entry m g row =? 0 then None else Some (u64 (entry m g row)).
Proof. apply descend_snoc. Qed.

Lemma frame_at_snoc_None m p row :
  frame_at m p = None -> frame_at m (p ++ [row]) = None.
Proof. intros H. unfold frame_at in *. rewrite descend_app, H. reflexivity. Qed.

Lemma frame_at_table_ok m p g :
  tree_inv m -> path_ok p -> Z.of_nat (length p) <= TABLES_DEPTH ->
  frame_at m p = Some g -> frame_ok g.
Proof.
  intros Hinv Hp Hlen Hat. destruct p as [|r p _] using rev_ind.
  - rewrite frame_at_nil in Hat. injection Hat as <-.
    pose proof NUM_FRAMES_bound. pose proof TABLES_DEPTH_pos. unfold frame_ok. lia.
  - unfold path_ok in Hp. rewrite Forall_app, Forall_singleton in Hp. destruct Hp as [Hp Hr].
    rewrite length_app in Hlen. simpl in Hlen.
    destruct (frame_at m p) as [g'|] eqn:Hg'.
    + rewrite (frame_at_snoc _ _ _ _ Hg') in Hat.
      pose proof (inv_range m Hinv p g' r Hp ltac:(lia) Hg' Hr) as Hc.
      destruct (entry m g' r =? 0); [discriminate|]. injection Hat as <-.
      rewrite u64_frame by exact Hc. exact Hc.
    + rewrite frame_at_snoc_None in Hat by exact Hg'. discriminate.
Qed.

Lemma frame_at_nonroot m p g :
  tree_inv m -> path_ok p -> Z.of_nat (length p) <= TABLES_DEPTH ->
  frame_at m p = Some g -> p <> [] -> g <> 0.
Proof.
  intros Hinv Hp Hlen Hat Hne ->. apply Hne.
  apply (inv_inj m Hinv p [] 0); try assumption; [constructor | simpl | reflexivity].
  pose proof TABLES_DEPTH_pos. lia.
Qed.

Lemma descend_to_leaf m pF F (k : nat) :
  tree_inv m -> path_ok pF -> Z.of_nat (length pF) < TABLES_DEPTH ->
  frame_at m pF = Some F -> none_reusable m F 0 0 ->
  forall p g,
    path_ok p -> Z.of_nat (length p) + Z.of_nat k = TABLES_DEPTH ->
    frame_at m p = Some g -> p <> [] -> ~ p `prefix_of` pF ->
    exists p' g', path_ok p' /\ Z.of_nat (length p') = TABLES_DEPTH /\
                  frame_at m p' = Some g'.
Proof.
  intros Hinv HpF HlF HF Hnone. induction k as [|k IH]; intros p g Hp Hlen Hat Hne Hpre.
  - exists p, g. split; [exact Hp|]. split; [lia | exact Hat].
  - assert (Hg0 : g <> 0) by (apply (frame_at_nonroot m p); (assumption || lia)).
    assert (HgF : g <> F).
    { intros ->. apply Hpre.
      rewrite (inv_inj m Hinv p pF F); try assumption; try lia. reflexivity. }
    assert (Haz : all_zerob m g = false).
    { destruct (all_zerob m g) eqn:E; [|reflexivity]. exfalso.
      apply (Hnone p g Hp ltac:(lia) Hat). split; [exact E|]. split; assumption. }
    apply all_zerob_false in Haz as (row & Hrow & He).
    apply (IH (p ++ [row]) (u64 (entry m g row))).
    + apply Forall_app. split; [exact Hp|]. constructor; [exact Hrow | constructor].
    + rewrite length_app. simpl. lia.
    + rewrite (frame_at_snoc _ _ _ _ Hat). apply Z.eqb_neq in He. rewrite He. reflexivity.
    + destruct p; discriminate.
    + intros Hpre'. apply Hpre. eapply prefix_app_l. exact Hpre'.
Qed.

(** When the frames 1, ..., [TABLES_DEPTH] all sit in the tree and no table
    but the one being populated is empty, some data page is mapped. *)
Lemma leaf_exists m pF F :
  tree_inv m -> path_ok pF -> Z.of_nat (length pF) < TABLES_DEPTH ->
  frame_at m pF = Some F -> none_reusable m F 0 0 ->
  (forall g, 1 <= g <= TABLES_DEPTH ->
     exists q, path_ok q /\ Z.of_nat (length q) <= TABLES_DEPTH /\ frame_at m q = Some g) ->
  exists p g, path_ok p /\ Z.of_nat (length p) = TABLES_DEPTH /\ frame_at m p = Some g.
Proof.
  intros Hinv HpF HlF HF Hnone Hall.
  assert (Hex : Exists (fun g => g ∉ chain m 0 pF) (seqZ 1 TABLES_DEPTH)).
  { apply not_Forall_Exists; [intros g; apply _|]. intros Hfa.
    assert (Hsub : seqZ 1 TABLES_DEPTH ⊆+ chain m 0 pF).
    { apply NoDup_submseteq; [apply NoDup_seqZ|]. intros g Hg.
      rewrite Forall_forall in Hfa. specialize (Hfa g Hg). cbn in Hfa.
      destruct (decide (g ∈ chain m 0 pF)); [assumption | contradiction]. }
    apply submseteq_length in Hsub. rewrite length_seqZ in Hsub.
    pose proof (chain_length m pF 0). lia. }
  apply Exists_exists in Hex as (g & Hg & Hnot). apply elem_of_seqZ in Hg.
  destruct (Hall g ltac:(lia)) as (q & Hq & Hlq & Hat).
  assert (Hqne : q <> []).
  { intros ->. rewrite frame_at_nil in Hat. injection Hat as Hat. lia. }
  apply (descend_to_leaf m pF F (Z.to_nat (TABLES_DEPTH - Z.of_nat (length q)))
           Hinv HpF HlF HF Hnone q g); try assumption; [lia|].
  intros Hpre. apply Hnot. apply (chain_prefix m q 0 pF g Hqne Hpre Hat).
Qed.

(** ** The tree after a resolved fault *)

Lemma old_cases (old : option (list Z * Z * Z)) :
  (exists qX rX PX, old = Some (qX, rX, PX)) \/ old = None.
Proof. destruct old as [[[qX rX] PX]|]; [left; eauto | right; reflexivity]. Qed.

Section Step.

Variables (m m' : PM) (pF : list Z) (F row X target : Z)
          (old : option (list Z * Z * Z)).
Hypothesis Hinv : tree_inv m.
Hypothesis HpF : path_ok pF.
Hypothesis HlF : Z.of_nat (length pF) < TABLES_DEPTH.
Hypothesis HF : frame_at m pF = Some F.
Hypothesis Hrow : row_ok row.
Hypothesis Hzero : entry m F row = 0.
Hypothesis Hstep : alloc_step m m' pF F row X target old.

Lemma step_new_unmapped : frame_at m (pF ++ [row]) = None.
Proof. rewrite (frame_at_snoc _ _ _ _ HF), Hzero. reflexivity. Qed.

Lemma step_old_path qX rX PX :
  old = Some (qX, rX, PX) ->
  path_ok (qX ++ [rX]) /\ Z.of_nat (length (qX ++ [rX])) <= TABLES_DEPTH /\
  frame_at m (qX ++ [rX]) = Some X /\ qX ++ [rX] <> pF ++ [row].
Proof.
  intros Hold. destruct (st_old _ _ _ _ _ _ _ _ Hstep _ _ _ Hold)
    as (Hq & Hr & Hl & Hat & He & _).
  pose proof (st_frame _ _ _ _ _ _ _ _ Hstep) as HX.
  assert (Hat' : frame_at m (qX ++ [rX]) = Some X).
  { rewrite (frame_at_snoc _ _ _ _ Hat), He.
    destruct (Z.eqb_spec X 0); [lia|]. rewrite u64_frame by lia. reflexivity. }
  split; [apply Forall_app; split; [exact Hq | constructor; [exact Hr | constructor]]|].
  split; [rewrite length_app; simpl; lia|]. split; [exact Hat'|].
  intros E. rewrite E, step_new_unmapped in Hat'. discriminate.
Qed.

Lemma step_not_X p g :
  path_ok p -> Z.of_nat (length p) <= TABLES_DEPTH ->
  frame_at m p = Some g -> old_path old <> Some p -> g <> X.
Proof.
  intros Hp Hl Hat Hne ->. destruct (old_cases old) as [(qX & rX & PX & Hold) | Hold].
  - destruct (step_old_path qX rX PX Hold) as (Hq & Hlq & Hat' & _).
    apply Hne. rewrite Hold. simpl. f_equal.
    apply (inv_inj m Hinv _ _ X); assumption.
  - destruct (st_fresh _ _ _ _ _ _ _ _ Hstep Hold) as [Hno _].
    exact (Hno p Hp Hl Hat).
Qed.

(** The tree after the step: the new frame hangs at [pF ++ [row]], its old
    place is empty, every other place is as before. *)
Lemma step_frame_at p :
  path_ok p -> Z.of_nat (length p) <= TABLES_DEPTH ->
  frame_at m' p =
  if decide (p = pF ++ [row]) then Some X
  else if decide (old_path old = Some p) then None
  else frame_at m p.
Proof.
  pose proof (st_frame _ _ _ _ _ _ _ _ Hstep) as HX.
  induction p as [|r p IH] using rev_ind; intros Hp Hl.
  - rewrite !frame_at_nil. case_decide as E1; [destruct pF; discriminate|].
    case_decide as E2; [|reflexivity].
    destruct (old_cases old) as [(qX & rX & PX & Hold) | Hold];
      rewrite Hold in E2; [|discriminate].
    simpl in E2. injection E2 as E2. destruct qX; discriminate.
  - unfold path_ok in Hp. rewrite Forall_app, Forall_singleton in Hp.
    destruct Hp as [Hp Hr]. rewrite length_app in Hl. simpl in Hl.
    specialize (IH Hp ltac:(lia)).
    destruct (decide (p = pF ++ [row])) as [E1 | E1].
    { (* below the new frame, which is a cleared table *)
      rewrite (frame_at_snoc _ _ _ _ IH).
      assert (Hc : Z.of_nat (length pF) + 1 < TABLES_DEPTH).
      { subst p. rewrite length_app in Hl. simpl in Hl. lia. }
      rewrite (st_clear _ _ _ _ _ _ _ _ Hstep Hc r Hr). simpl.
      case_decide as E3.
      { apply (f_equal length) in E3. subst p. rewrite !length_app in E3. simpl in E3. lia. }
      case_decide as E4; [reflexivity|].
      subst p. rewrite frame_at_snoc_None by apply step_new_unmapped. reflexivity. }
    destruct (decide (old_path old = Some p)) as [E2 | E2].
    { (* below the old place of the frame, an empty table *)
      rewrite frame_at_snoc_None by exact IH.
      destruct (old_cases old) as [(qX & rX & PX & Hold) | Hold];
        rewrite Hold in E2; [|discriminate].
      simpl in E2. injection E2 as E2.
      destruct (step_old_path qX rX PX Hold) as (_ & _ & Hat & _).
      destruct (st_old _ _ _ _ _ _ _ _ Hstep _ _ _ Hold) as (_ & _ & _ & _ & _ & Haz).
      rewrite E2 in Hat.
      case_decide as E3.
      { apply app_inj_tail in E3 as [-> ->].
        rewrite HF in Hat. injection Hat as Hat.
        exfalso. apply (st_ne _ _ _ _ _ _ _ _ Hstep). congruence. }
      case_decide as E4; [reflexivity|].
      rewrite (frame_at_snoc _ _ _ _ Hat).
      rewrite Haz; [reflexivity | | exact Hr].
      apply (f_equal length) in E2. rewrite length_app in E2. simpl in E2. lia. }
    destruct (frame_at m p) as [g|] eqn:Hg.
    2:{ rewrite frame_at_snoc_None by exact IH.
        case_decide as E3.
        { apply app_inj_tail in E3 as [-> ->]. congruence. }
        case_decide as E4; [reflexivity|].
        rewrite frame_at_snoc_None by exact Hg. reflexivity. }
    rewrite (frame_at_snoc _ _ _ _ IH).
    assert (Hgok : frame_ok g) by (apply (frame_at_table_ok m p); (assumption || lia)).
    assert (HgX : g <> X) by (apply (step_not_X p); (assumption || lia)).
    destruct (decide ((g, r) = (F, row))) as [E3 | E3].
    { injection E3 as -> ->.
      assert (p = pF) as -> by (apply (inv_inj m Hinv _ _ F); (assumption || lia)).
      rewrite (st_link _ _ _ _ _ _ _ _ Hstep).
      destruct (Z.eqb_spec X 0); [lia|]. rewrite u64_frame by lia.
      rewrite decide_True by reflexivity. reflexivity. }
    assert (Hne1 : p ++ [r] <> pF ++ [row]).
    { intros E. apply app_inj_tail in E as [-> ->]. apply E3. congruence. }
    rewrite (decide_False _ _ Hne1).
    destruct (old_cases old) as [(qX & rX & PX & Hold) | Hold].
    + destruct (st_old _ _ _ _ _ _ _ _ Hstep _ _ _ Hold)
        as (Hq & HrX & Hlq & Hat & He & _).
      destruct (decide ((g, r) = (PX, rX))) as [E4 | E4].
      * injection E4 as -> ->.
        assert (p = qX) as -> by (apply (inv_inj m Hinv _ _ PX); (assumption || lia)).
        rewrite (st_unlink _ _ _ _ _ _ _ _ Hstep _ _ _ Hold). simpl.
        rewrite decide_True by (rewrite Hold; reflexivity). reflexivity.
      * assert (Hne2 : old_path old <> Some (p ++ [r])).
        { rewrite Hold. simpl. intros E. injection E as E.
          apply app_inj_tail in E as [-> ->]. apply E4. congruence. }
        rewrite (decide_False _ _ Hne2).
        rewrite (st_other _ _ _ _ _ _ _ _ Hstep g r Hgok Hr HgX E3).
        -- rewrite (frame_at_snoc _ _ _ _ Hg). reflexivity.
        -- intros ? ? ? E. rewrite Hold in E. injection E as <- <- <-. exact E4.
    + rewrite decide_False by (rewrite Hold; discriminate).
      rewrite (st_other _ _ _ _ _ _ _ _ Hstep g r Hgok Hr HgX E3).
      * rewrite (frame_at_snoc _ _ _ _ Hg). reflexivity.
      * intros ? ? ? E. rewrite Hold in E. discriminate.
Qed.

Lemma step_new_path : path_ok (pF ++ [row]) /\ Z.of_nat (length (pF ++ [row])) <= TABLES_DEPTH.
Proof.
  split; [apply Forall_app; split; [exact HpF | constructor; [exact Hrow | constructor]]|].
  rewrite length_app. simpl. lia.
Qed.

Lemma step_new_mapped : frame_at m' (pF ++ [row]) = Some X.
Proof.
  destruct step_new_path as [H1 H2]. rewrite (step_frame_at _ H1 H2).
  rewrite decide_True by reflexivity. reflexivity.
Qed.

Lemma step_keeps p g :
  path_ok p -> Z.of_nat (length p) <= TABLES_DEPTH ->
  frame_at m p = Some g -> g <> X -> frame_at m' p = Some g.
Proof.
  intros Hp Hl Hat Hne. rewrite (step_frame_at _ Hp Hl).
  case_decide as E1; [subst p; rewrite step_new_unmapped in Hat; discriminate|].
  case_decide as E2; [|exact Hat].
  destruct (old_cases old) as [(qX & rX & PX & Hold) | Hold];
    rewrite Hold in E2; [|discriminate].
  simpl in E2. injection E2 as <-.
  destruct (step_old_path qX rX PX Hold) as (_ & _ & Hat' & _). congruence.
Qed.

Lemma step_from p g :
  path_ok p -> Z.of_nat (length p) <= TABLES_DEPTH ->
  frame_at m' p = Some g ->
  (p = pF ++ [row] /\ g = X) \/
  (p <> pF ++ [row] /\ old_path old <> Some p /\ frame_at m p = Some g /\ g <> X).
Proof.
  intros Hp Hl Hat. rewrite (step_frame_at _ Hp Hl) in Hat.
  case_decide as E1; [left; split; congruence|].
  case_decide as E2; [discriminate|].
  right. split; [exact E1|]. split; [exact E2|]. split; [exact Hat|].
  apply (step_not_X p); assumption.
Qed.

Hypothesis Hpage :
  Z.of_nat (length pF) + 1 = TABLES_DEPTH ->
  target = page_of_path (pF ++ [row]) /\ target < NUM_PAGES.

(** The invariant of the tree holds again after the step. *)
Lemma step_inv : tree_inv m'.
Proof.
  pose proof (st_frame _ _ _ _ _ _ _ _ Hstep) as HX.
  destruct step_new_path as [Hnp Hnl].
  constructor.
  - intros p g r Hp Hl Hat Hr.
    destruct (step_from p g Hp ltac:(lia) Hat) as [[-> ->] | (E1 & E2 & Hat' & HgX)].
    + rewrite (st_clear _ _ _ _ _ _ _ _ Hstep); [lia | | exact Hr].
      rewrite length_app in Hl. simpl in Hl. lia.
    + assert (Hgok : frame_ok g) by (apply (frame_at_table_ok m p); (assumption || lia)).
      destruct (decide ((g, r) = (F, row))) as [E3 | E3].
      { injection E3 as -> ->. rewrite (st_link _ _ _ _ _ _ _ _ Hstep). lia. }
      destruct (old_cases old) as [(qX & rX & PX & Hold) | Hold].
      * destruct (decide ((g, r) = (PX, rX))) as [E4 | E4].
        { injection E4 as -> ->. rewrite (st_unlink _ _ _ _ _ _ _ _ Hstep _ _ _ Hold). lia. }
        rewrite (st_other _ _ _ _ _ _ _ _ Hstep g r Hgok Hr HgX E3).
        -- apply (inv_range m Hinv p g r); assumption.
        -- intros ? ? ? E. rewrite Hold in E. injection E as <- <- <-. exact E4.
      * rewrite (st_other _ _ _ _ _ _ _ _ Hstep g r Hgok Hr HgX E3).
        -- apply (inv_range m Hinv p g r); assumption.
        -- intros ? ? ? E. rewrite Hold in E. discriminate.
  - intros p1 p2 g Hp1 Hp2 Hl1 Hl2 Hat1 Hat2.
    destruct (step_from p1 g Hp1 Hl1 Hat1) as [[E1 E1'] | (_ & _ & Hat1' & HgX1)];
    destruct (step_from p2 g Hp2 Hl2 Hat2) as [[E2 E2'] | (_ & _ & Hat2' & HgX2)];
      try congruence.
    apply (inv_inj m Hinv p1 p2 g); assumption.
  - intros p f g Hp Hl Hat Hg.
    destruct (decide (g = X)) as [-> | HgX].
    { exists (pF ++ [row]). split; [exact Hnp|]. split; [exact Hnl | apply step_new_mapped]. }
    assert (Hin : exists q, path_ok q /\ Z.of_nat (length q) <= TABLES_DEPTH /\
                            frame_at m q = Some g).
    { destruct (step_from p f Hp Hl Hat) as [[-> ->] | (_ & _ & Hat' & _)].
      - destruct (old_cases old) as [(qX & rX & PX & Hold) | Hold].
        + destruct (step_old_path qX rX PX Hold) as (Hq & Hlq & HatX & _).
          apply (inv_contig m Hinv _ X g Hq Hlq HatX Hg).
        + destruct (st_fresh _ _ _ _ _ _ _ _ Hstep Hold) as [_ Hall]. apply Hall. lia.
      - apply (inv_contig m Hinv p f g Hp Hl Hat' Hg). }
    destruct Hin as (q & Hq & Hlq & Hatq). exists q.
    split; [exact Hq|]. split; [exact Hlq|]. apply step_keeps; assumption.
  - intros p g Hp Hl Hat.
    destruct (step_from p g Hp ltac:(lia) Hat) as [[-> ->] | (_ & _ & Hat' & _)].
    + rewrite length_app in Hl. simpl in Hl.
      destruct (Hpage ltac:(lia)) as [<- Hlt]. exact Hlt.
    + apply (inv_pages m Hinv p g); assumption.
  - intros page ws Hs. rewrite (st_swap _ _ _ _ _ _ _ _ Hstep) in Hs.
    destruct old as [[[qX rX] PX]|]; [|apply (inv_swap m Hinv page ws Hs)].
    destruct (Z.of_nat (length qX) + 1 =? TABLES_DEPTH);
      [|apply (inv_swap m Hinv page ws Hs)].
    rewrite lookup_insert in Hs. case_decide.
    + injection Hs as <-. apply frame_words_length.
    + apply (inv_swap m Hinv page ws Hs).
Qed.

(** The words the virtual memory holds are the same after the step. *)
Lemma step_vread a v :
  0 <= a < VIRTUAL_MEMORY_SIZE -> vread m a = Some v -> vread m' a = Some v.
Proof.
  intros Ha Hv. unfold vread in *.
  pose proof (st_frame _ _ _ _ _ _ _ _ Hstep) as HX.
  destruct (walk_path_full a) as [Hpa Hla].
  pose proof (page_of_walk_path a Ha) as Hpg.
  pose proof (offsetOf_ok a) as Hoff.
  rewrite (step_frame_at _ Hpa ltac:(lia)).
  destruct (decide (walk_path a = pF ++ [row])) as [E1 | E1].
  { (* the page that the step maps: restored from the swap store *)
    rewrite E1, step_new_unmapped in Hv.
    assert (HlD : Z.of_nat (length pF) + 1 = TABLES_DEPTH).
    { rewrite E1, length_app in Hla. simpl in Hla. lia. }
    destruct (Hpage HlD) as [Ht _]. rewrite <- E1, Hpg in Ht.
    destruct (swapFile m !! (a / PAGE_SIZE)) as [ws|] eqn:Hs; [|discriminate].
    assert (Hs' : swapFile m' !! target = Some ws).
    { rewrite (st_swap _ _ _ _ _ _ _ _ Hstep), Ht.
      destruct (old_cases old) as [(qX & rX & PX & Hold) | Hold]; rewrite Hold; [|exact Hs].
      destruct (Z.eqb_spec (Z.of_nat (length qX) + 1) TABLES_DEPTH) as [Hq|]; [|exact Hs].
      rewrite lookup_insert_ne; [exact Hs|]. intros Heq.
      destruct (step_old_path qX rX PX Hold) as (Hq1 & Hq2 & Hq3 & Hq4).
      apply Hq4. rewrite <- E1. apply page_of_path_inj; try assumption.
      - rewrite length_app. simpl. apply Nat2Z.inj. lia.
      - congruence. }
    rewrite (st_restore _ _ _ _ _ _ _ _ Hstep HlD ws Hs' _ Hoff), Hv. reflexivity. }
  destruct (decide (old_path old = Some (walk_path a))) as [E2 | E2].
  { (* the page that the step evicts: saved in the swap store *)
    destruct (old_cases old) as [(qX & rX & PX & Hold) | Hold];
      rewrite Hold in E2; [|discriminate].
    simpl in E2. injection E2 as E2.
    destruct (step_old_path qX rX PX Hold) as (Hq1 & Hq2 & Hq3 & Hq4).
    rewrite E2 in Hq3. rewrite Hq3 in Hv. injection Hv as <-.
    rewrite (st_swap _ _ _ _ _ _ _ _ Hstep), Hold.
    assert (Z.of_nat (length qX) + 1 = TABLES_DEPTH) as Hq.
    { rewrite <- E2, length_app in Hla. simpl in Hla. lia. }
    apply Z.eqb_eq in Hq. rewrite Hq, E2, Hpg, lookup_insert_eq.
    apply frame_words_lookup; [unfold frame_ok; lia | exact Hoff]. }
  destruct (frame_at m (walk_path a)) as [g|] eqn:Hg.
  - (* a page that stays mapped *)
    injection Hv as <-. f_equal.
    assert (HgX : g <> X) by (apply (step_not_X (walk_path a)); (assumption || lia)).
    assert (Hgok : frame_ok g) by (apply (frame_at_table_ok m (walk_path a)); (assumption || lia)).
    apply (st_other _ _ _ _ _ _ _ _ Hstep g _ Hgok Hoff HgX).
    + intros E. injection E as -> _.
      assert (walk_path a = pF) as E by (apply (inv_inj m Hinv _ _ F); (assumption || lia)).
      rewrite E in Hla. lia.
    + intros qX rX PX Hold E. injection E as -> _.
      destruct (st_old _ _ _ _ _ _ _ _ Hstep _ _ _ Hold) as (Hq & _ & Hlq & Hat & _).
      assert (walk_path a = qX) as E by (apply (inv_inj m Hinv _ _ PX); (assumption || lia)).
      rewrite E in Hla. lia.
  - (* a page that stays in the swap store *)
    rewrite (st_swap _ _ _ _ _ _ _ _ Hstep).
    destruct (old_cases old) as [(qX & rX & PX & Hold) | Hold]; rewrite Hold; [|exact Hv].
    destruct (Z.eqb_spec (Z.of_nat (length qX) + 1) TABLES_DEPTH) as [Hq|]; [|exact Hv].
    rewrite lookup_insert_ne; [exact Hv|]. intros Heq.
    destruct (step_old_path qX rX PX Hold) as (Hq1 & Hq2 & Hq3 & Hq4).
    apply E2. rewrite Hold. simpl. f_equal. apply page_of_path_inj; try assumption.
    + rewrite length_app. simpl. apply Nat2Z.inj. lia.
    + congruence.
Qed.

End Step.

(** ** What the allocator finds when the walker calls it *)

Lemma tree_inv_subtree_ok m : tree_inv m -> subtree_ok m 0 0.
Proof.
  intros Hinv. split; [|split].
  - pose proof NUM_FRAMES_bound. pose proof TABLES_DEPTH_pos. unfold frame_ok. lia.
  - intros q g r Hq Hl Hd Hr. apply (inv_range m Hinv q g r); (assumption || lia).
  - intros q1 q2 g Hq1 Hq2 Hl1 Hl2 Hd1 Hd2.
    apply (inv_inj m Hinv q1 q2 g); (assumption || lia).
Qed.

Lemma fault_path m va level F :
  fault_at m va level F ->
  path_ok (take (Z.to_nat level) (walk_path va)) /\
  Z.of_nat (length (take (Z.to_nat level) (walk_path va))) = level /\
  row_ok (indexAtLevel va level).
Proof.
  intros (_ & _ & Hl & _ & _). split; [|split].
  - apply Forall_take, walk_path_ok.
  - rewrite length_take, walk_path_length. lia.
  - apply indexAtLevel_ok. exact Hl.
Qed.

Lemma fault_unmapped m va level F :
  fault_at m va level F -> frame_at m (walk_path va) = None.
Proof.
  intros (_ & _ & Hl & HF & Hz).
  rewrite <- (take_drop (Z.to_nat (level + 1)) (walk_path va)).
  rewrite take_walk_path_S by exact Hl.
  unfold frame_at. rewrite descend_app.
  fold (frame_at m (take (Z.to_nat level) (walk_path va) ++ [indexAtLevel va level])).
  rewrite (frame_at_snoc _ _ _ _ HF), Hz. reflexivity.
Qed.

Lemma mapped_leaf_facts m x :
  tree_inv m -> x ∈ mapped_leaves m ->
  exists q,
    path_ok q /\ row_ok (leaf_row x) /\ Z.of_nat (length q) + 1 = TABLES_DEPTH /\
    frame_at m q = Some (leaf_parent x) /\
    entry m (leaf_parent x) (leaf_row x) = leaf_frame x /\
    1 <= leaf_frame x < NUM_FRAMES /\
    leaf_page x = page_of_path (q ++ [leaf_row x]) /\
    0 <= leaf_page x < NUM_PAGES /\
    frame_at m (q ++ [leaf_row x]) = Some (leaf_frame x).
Proof.
  intros Hinv Hin. unfold mapped_leaves in Hin.
  apply elem_of_dfs_leaves in Hin as (q & Hq & Hr & Hl & Hd & He & Hfr & Hpg).
  pose proof TABLES_DEPTH_pos as HD.
  assert (Hc : 0 <= entry m (leaf_parent x) (leaf_row x) < NUM_FRAMES).
  { apply (inv_range m Hinv q); try assumption. lia. }
  rewrite (u64_frame _ Hc) in Hfr.
  assert (Hpath : path_ok (q ++ [leaf_row x])).
  { apply Forall_app. split; [exact Hq | constructor; [exact Hr | constructor]]. }
  assert (Hat : frame_at m (q ++ [leaf_row x]) = Some (leaf_frame x)).
  { rewrite (frame_at_snoc _ _ _ _ Hd). apply Z.eqb_neq in He. rewrite He.
    rewrite (u64_frame _ Hc). congruence. }
  assert (HlD : Z.of_nat (length (q ++ [leaf_row x])) = TABLES_DEPTH).
  { rewrite length_app. simpl. lia. }
  exists q. split; [exact Hq|]. split; [exact Hr|]. split; [lia|]. split; [exact Hd|].
  split; [congruence|]. split; [lia|].
  assert (Hpg' : leaf_page x = page_of_path (q ++ [leaf_row x])) by (rewrite Hpg; lia).
  split; [exact Hpg'|]. split; [|exact Hat].
  rewrite Hpg'. split; [apply page_of_path_bound; exact Hpath|].
  apply (inv_pages m Hinv _ _ Hpath HlD Hat).
Qed.

Lemma mapped_leaf_intro m p g :
  tree_inv m -> path_ok p -> Z.of_nat (length p) = TABLES_DEPTH ->
  frame_at m p = Some g ->
  exists x, x ∈ mapped_leaves m /\ leaf_page x = page_of_path p /\ leaf_frame x = g.
Proof.
  intros Hinv Hp Hl Hat. pose proof TABLES_DEPTH_pos as HD.
  destruct p as [|r q _] using rev_ind; [simpl in Hl; lia|].
  unfold path_ok in Hp. rewrite Forall_app, Forall_singleton in Hp. destruct Hp as [Hq Hr].
  rewrite length_app in Hl. simpl in Hl.
  destruct (frame_at m q) as [P|] eqn:HP;
    [|rewrite frame_at_snoc_None in Hat by exact HP; discriminate].
  rewrite (frame_at_snoc _ _ _ _ HP) in Hat.
  destruct (Z.eqb_spec (entry m P r) 0) as [|He]; [discriminate|]. injection Hat as Hat.
  exists (mkLeaf (page_of_path (q ++ [r])) g P r).
  split; [|split; reflexivity].
  unfold mapped_leaves. apply elem_of_dfs_leaves. exists q. cbn.
  split; [exact Hq|]. split; [exact Hr|]. split; [lia|]. split; [exact HP|].
  split; [exact He|]. split; [congruence | lia].
Qed.

(** The high-water mark of the scan bounds the frames of the tree, is one
    of them unless it is 0, and is below [NUM_FRAMES]. *)
Lemma scan_root_maxFrame m targetPage parentFrame :
  tree_inv m ->
  let info := scan scan_fuel 0 0 0 targetPage scanInfo_init parentFrame m in
  0 <= maxFrame info < NUM_FRAMES /\
  (forall p g, path_ok p -> Z.of_nat (length p) <= TABLES_DEPTH ->
     frame_at m p = Some g -> g <= maxFrame info) /\
  (forall g, 1 <= g <= maxFrame info ->
     exists q, path_ok q /\ Z.of_nat (length q) <= TABLES_DEPTH /\ frame_at m q = Some g).
Proof.
  intros Hinv info. pose proof TABLES_DEPTH_pos as HD.
  assert (E : maxFrame info = fold_left Z.max (dfs_frames (Z.to_nat TABLES_DEPTH) m 0) 0).
  { unfold info, scan_fuel. rewrite (scan_maxFrame _ _ _ _ (Z.to_nat TABLES_DEPTH)) by lia.
    reflexivity. }
  assert (Hin : forall g, g ∈ dfs_frames (Z.to_nat TABLES_DEPTH) m 0 ->
            exists q, q <> [] /\ path_ok q /\ Z.of_nat (length q) <= TABLES_DEPTH /\
                      frame_at m q = Some g).
  { intros g Hg. apply elem_of_dfs_frames in Hg as (q & Hne & Hq & Hl & Hd).
    exists q. split; [exact Hne|]. split; [exact Hq|]. split; [lia | exact Hd]. }
  assert (Hmax : maxFrame info = 0 \/
            exists q, q <> [] /\ path_ok q /\ Z.of_nat (length q) <= TABLES_DEPTH /\
                      frame_at m q = Some (maxFrame info)).
  { rewrite E. destruct (fold_max_in (dfs_frames (Z.to_nat TABLES_DEPTH) m 0) 0) as [-> | H];
      [left; reflexivity | right; apply Hin; exact H]. }
  split; [|split].
  - pose proof (fold_max_ge (dfs_frames (Z.to_nat TABLES_DEPTH) m 0) 0) as Hge.
    rewrite <- E in Hge. split; [exact Hge|].
    destruct Hmax as [-> | (q & _ & Hq & Hl & Hat)].
    + pose proof NUM_FRAMES_bound. lia.
    + apply (frame_at_table_ok m q _ Hinv Hq Hl Hat).
  - intros p g Hp Hl Hat. destruct p as [|r p].
    + rewrite frame_at_nil in Hat. injection Hat as <-. rewrite E. apply fold_max_ge.
    + rewrite E. apply fold_max_elem, elem_of_dfs_frames. exists (r :: p).
      split; [discriminate|]. split; [exact Hp|]. split; [lia | exact Hat].
  - intros g Hg. destruct Hmax as [E0 | (q & _ & Hq & Hl & Hat)]; [lia|].
    apply (inv_contig m Hinv q _ g Hq Hl Hat Hg).
Qed.

Lemma scan_root_empty m va level F :
  fault_at m va level F ->
  let info := alloc_info F (Z.shiftr va OFFSET_WIDTH) m in
  (emptyFrame info = UINT64_MAX /\ none_reusable m F 0 0) \/
  found_reusable m F 0 0 info.
Proof.
  intros (Hinv & _) info. pose proof TABLES_DEPTH_pos as HD.
  destruct (scan_fresh (Z.shiftr va OFFSET_WIDTH) F m scan_fuel 0 0 0 scanInfo_init
              (tree_inv_subtree_ok m Hinv) HD) as [H | [(_ & _ & _ & H & _) | H]].
  - unfold scan_fuel. lia.
  - reflexivity.
  - left. exact H.
  - congruence.
  - right. exact H.
Qed.

Lemma scan_root_victim m va level F :
  fault_at m va level F ->
  let target := Z.shiftr va OFFSET_WIDTH in
  let info := alloc_info F target m in
  none_reusable m F 0 0 -> NUM_FRAMES <= maxFrame info + 1 ->
  exists l1 v l2,
    mapped_leaves m = l1 ++ v :: l2 /\
    victim_of info = (cyclicDistance (leaf_page v) target, v) /\
    0 < cyclicDistance (leaf_page v) target /\
    (forall x, x ∈ l1 -> cyclicDistance (leaf_page x) target
                         < cyclicDistance (leaf_page v) target) /\
    (forall x, x ∈ l2 -> cyclicDistance (leaf_page x) target
                         <= cyclicDistance (leaf_page v) target).
Proof.
  intros Hfault target info Hnone Hfull.
  pose proof Hfault as (Hinv & Hva & Hl & HF & Hz).
  pose proof TABLES_DEPTH_pos as HD. pose proof PAGE_SIZE_pos as Hps.
  destruct (fault_path m va level F Hfault) as (HpF & HlF & Hrow).
  destruct (scan_root_maxFrame m target F Hinv) as (Hmax & _ & Hall).
  fold (alloc_info F target m) in Hmax, Hall. fold info in Hmax, Hall.
  assert (Hv : victim_of info =
               fold_left (pick target) (mapped_leaves m) (0, mkLeaf 0 UINT64_MAX UINT64_MAX 0)).
  { unfold info, alloc_info, scan_fuel, mapped_leaves.
    rewrite (scan_victim _ _ _ _ (Z.to_nat TABLES_DEPTH)); [reflexivity | lia | lia | lia |].
    rewrite Z2Nat.id by lia. pose proof VIRTUAL_MEMORY_SIZE_bound as [_ Hb].
    rewrite Z.pow_add_r, Z.pow_1_r in Hb by lia.
    assert (0 < PAGE_SIZE ^ TABLES_DEPTH) by (apply Z.pow_pos_nonneg; lia). nia. }
  destruct (leaf_exists m _ F Hinv HpF ltac:(lia) HF Hnone) as (p & g & Hp & Hlp & Hat).
  { intros g Hg. apply Hall. pose proof NUM_FRAMES_bound. lia. }
  destruct (mapped_leaf_intro m p g Hinv Hp Hlp Hat) as (x & Hx & Hxp & _).
  assert (Hpos : 0 < cyclicDistance (leaf_page x) target).
  { destruct (mapped_leaf_facts m x Hinv Hx) as (_ & _ & _ & _ & _ & _ & _ & _ & Hbx & _).
    pose proof (page_lt_NUM_PAGES va Hva) as Hbt.
    unfold target. rewrite shiftr_page. rewrite cyclicDistance_ring by assumption.
    apply ring_distance_pos; try assumption.
    rewrite Hxp, <- (page_of_walk_path va Hva). intros E.
    apply page_of_path_inj in E; [| exact Hp | apply walk_path_ok |].
    - pose proof (fault_unmapped m va level F Hfault) as Hun.
      rewrite <- E in Hun. congruence.
    - rewrite walk_path_length. apply Nat2Z.inj. lia. }
  destruct (pick_fold target (mapped_leaves m) (0, mkLeaf 0 UINT64_MAX UINT64_MAX 0))
    as [[_ Hle] | (l1 & v & l2 & El & E & Hb & H1 & H2)].
  - specialize (Hle x Hx). cbn [fst] in Hle. lia.
  - exists l1, v, l2. split; [exact El|]. split; [congruence|].
    split; [exact Hb|]. split; assumption.
Qed.

(** The entries after the walker has prepared and linked the frame [X]. *)
Lemma link_frame_spec F row X target isLeaf m1 :
  frame_ok F -> row_ok row -> 1 <= X < NUM_FRAMES -> X <> F ->
  (forall page ws, swapFile m1 !! page = Some ws -> Z.of_nat (length ws) = PAGE_SIZE) ->
  let m3 := link_frame F row X target isLeaf m1 in
  entry m3 F row = X /\
  (forall g r, frame_ok g -> row_ok r -> g <> X -> (g, r) <> (F, row) ->
     entry m3 g r = entry m1 g r) /\
  (isLeaf = false -> all_zero m3 X) /\
  (isLeaf = true -> forall ws, swapFile m1 !! target = Some ws ->
     forall r, row_ok r -> entry m3 X r = default 0 (ws !! Z.to_nat r)) /\
  swapFile m3 = swapFile m1.
Proof.
  intros HF Hrow HX HXF Hswap m3. unfold m3, link_frame. clear m3.
  assert (HXok : frame_ok X) by (unfold frame_ok; lia).
  rewrite (to_word_frame X) by lia.
  split; [|split; [|split; [|split]]].
  - rewrite entry_PMwrite by assumption. rewrite decide_True by (split; reflexivity).
    reflexivity.
  - intros g r Hg Hr HgX Hne. rewrite entry_PMwrite by assumption.
    rewrite decide_False by (intros [-> ->]; congruence).
    destruct isLeaf.
    + destruct (swapFile m1 !! target) as [ws|] eqn:Hs.
      * rewrite (entry_PMrestore_some _ _ _ ws) by eauto.
        rewrite decide_False by exact HgX. reflexivity.
      * rewrite PMrestore_none by exact Hs. reflexivity.
    + rewrite entry_clearFrame by assumption. rewrite decide_False by exact HgX. reflexivity.
  - intros -> r Hr. rewrite entry_PMwrite by assumption.
    rewrite decide_False by (intros [E _]; congruence).
    rewrite entry_clearFrame by assumption. rewrite decide_True by reflexivity. reflexivity.
  - intros -> ws Hs r Hr. rewrite entry_PMwrite by assumption.
    rewrite decide_False by (intros [E _]; congruence).
    rewrite (entry_PMrestore_some _ _ _ ws) by eauto.
    rewrite decide_True by reflexivity. reflexivity.
  - cbn [PMwrite swapFile].
    destruct isLeaf; [apply swapFile_PMrestore | apply (swapFile_clearFrame X false)].
Qed.

(** The memory [m1] the allocator leaves before it clears the frame [X]
    gives a resolved fault once the walker has linked [X]. *)
Lemma alloc_step_intro m m1 pF F row X target old :
  tree_inv m -> path_ok pF -> Z.of_nat (length pF) < TABLES_DEPTH ->
  frame_at m pF = Some F -> row_ok row -> entry m F row = 0 ->
  1 <= X < NUM_FRAMES -> X <> F ->
  (old = None ->
    (forall p, path_ok p -> Z.of_nat (length p) <= TABLES_DEPTH ->
       frame_at m p <> Some X) /\
    (forall g, 1 <= g < X ->
       exists q, path_ok q /\ Z.of_nat (length q) <= TABLES_DEPTH /\
                 frame_at m q = Some g)) ->
  (forall qX rX PX, old = Some (qX, rX, PX) ->
    path_ok qX /\ row_ok rX /\ Z.of_nat (length qX) < TABLES_DEPTH /\
    frame_at m qX = Some PX /\ entry m PX rX = X /\
    (Z.of_nat (length qX) + 1 < TABLES_DEPTH -> all_zero m X)) ->
  (forall qX rX PX, old = Some (qX, rX, PX) -> entry m1 PX rX = 0) ->
  (forall g r, frame_ok g -> row_ok r ->
     (forall qX rX PX, old = Some (qX, rX, PX) -> (g, r) <> (PX, rX)) ->
     entry m1 g r = entry m g r) ->
  swapFile m1 =
    match old with
    | Some (qX, rX, PX) =>
        if Z.of_nat (length qX) + 1 =? TABLES_DEPTH
        then <[page_of_path (qX ++ [rX]) := frame_words X m]> (swapFile m)
        else swapFile m
    | None => swapFile m
    end ->
  let isLeaf := Z.of_nat (length pF) + 1 =? TABLES_DEPTH in
  alloc_step m (link_frame F row X target isLeaf (clearFrame X isLeaf m1))
             pF F row X target old.
Proof.
  intros Hinv HpF HlF HF Hrow Hz HX HXF Hfresh Hold Hunlink Hother Hswap isLeaf.
  assert (HFok : frame_ok F) by (apply (frame_at_table_ok m pF); (assumption || lia)).
  assert (HXok : frame_ok X) by (unfold frame_ok; lia).
  assert (Hlen : forall page ws,
            swapFile (clearFrame X isLeaf m1) !! page = Some ws ->
            Z.of_nat (length ws) = PAGE_SIZE).
  { intros page ws. rewrite swapFile_clearFrame, Hswap.
    destruct old as [[[qX rX] PX]|]; [|apply (inv_swap m Hinv)].
    destruct (Z.of_nat (length qX) + 1 =? TABLES_DEPTH); [|apply (inv_swap m Hinv)].
    rewrite lookup_insert. case_decide; [|apply (inv_swap m Hinv)].
    intros E. injection E as <-. apply frame_words_length. }
  destruct (link_frame_spec F row X target isLeaf (clearFrame X isLeaf m1)
              HFok Hrow HX HXF Hlen) as (L1 & L2 & L3 & L4 & L5).
  assert (Hm1 : forall g r, frame_ok g -> row_ok r -> g <> X ->
            entry (clearFrame X isLeaf m1) g r = entry m1 g r).
  { intros g r Hg Hr HgX. destruct isLeaf; [reflexivity|].
    rewrite entry_clearFrame by assumption. rewrite decide_False by exact HgX. reflexivity. }
  assert (Hparent : forall qX rX PX, old = Some (qX, rX, PX) ->
            frame_ok PX /\ PX <> X /\ (PX, rX) <> (F, row)).
  { intros qX rX PX E. destruct (Hold _ _ _ E) as (Hq & Hr & Hl & Hat & He & _).
    split; [apply (frame_at_table_ok m qX); (assumption || lia)|]. split.
    - intros ->. assert (E' : qX ++ [rX] = qX).
      { apply (inv_inj m Hinv _ _ X); try assumption.
        + apply Forall_app. split; [exact Hq | constructor; [exact Hr | constructor]].
        + rewrite length_app. simpl. lia.
        + lia.
        + rewrite (frame_at_snoc _ _ _ _ Hat), He.
          destruct (Z.eqb_spec X 0); [lia|]. rewrite u64_frame by lia. reflexivity. }
      apply (f_equal length) in E'. rewrite length_app in E'. simpl in E'. lia.
    - intros E'. injection E' as -> ->. lia. }
  constructor.
  - exact HX.
  - exact HXF.
  - exact Hfresh.
  - exact Hold.
  - exact L1.
  - intros qX rX PX E. destruct (Hparent _ _ _ E) as (H1 & H2 & H3).
    destruct (Hold _ _ _ E) as (_ & Hr & _).
    rewrite L2, Hm1 by assumption. apply (Hunlink _ _ _ E).
  - intros g r Hg Hr HgX Hne Hne'. rewrite L2, Hm1 by assumption.
    apply Hother; assumption.
  - intros Hlt. apply L3. unfold isLeaf. apply Z.eqb_neq. lia.
  - intros Heq ws Hs r Hr. assert (isLeaf = true) as El by (apply Z.eqb_eq; exact Heq).
    apply L4; [exact El | | exact Hr]. rewrite L5 in Hs. exact Hs.
  - rewrite L5, swapFile_clearFrame. exact Hswap.
Qed.

Lemma victim_of_eq info d v :
  victim_of info = (d, v) ->
  victimDistance info = d /\ victimFrame info = leaf_frame v /\
  victimPage info = leaf_page v /\ victimParent info = leaf_parent v /\
  victimRowInParent info = leaf_row v.
Proof. unfold victim_of. intros E. injection E as <- <-. cbn. auto. Qed.

(** The three ways of the allocator when the walker calls it on a fault. *)
Lemma alloc_outcome m va level F :
  fault_at m va level F ->
  let row := indexAtLevel va level in
  let target := Z.shiftr va OFFSET_WIDTH in
  let isLeaf := level + 1 =? TABLES_DEPTH in
  let info := alloc_info F target m in
  match alloc_decision F target m with
  | Reuse =>
      found_reusable m F 0 0 info /\
      allocateFrame F row target isLeaf m =
        (emptyFrame info,
         clearFrame (emptyFrame info) isLeaf
           (PMwrite (phys (emptyParent info) (emptyRowInParent info)) 0 m))
  | Fresh =>
      none_reusable m F 0 0 /\ maxFrame info + 1 < NUM_FRAMES /\
      allocateFrame F row target isLeaf m =
        (maxFrame info + 1, clearFrame (maxFrame info + 1) isLeaf m)
  | Evict =>
      none_reusable m F 0 0 /\ maxFrame info + 1 = NUM_FRAMES /\
      (exists v, first_farthest m target v /\
                 0 < cyclicDistance (leaf_page v) target /\
                 victim_of info = (cyclicDistance (leaf_page v) target, v)) /\
      allocateFrame F row target isLeaf m =
        (victimFrame info,
         clearFrame (victimFrame info) isLeaf
           (PMwrite (phys (victimParent info) (victimRowInParent info)) 0
              (PMevict (victimFrame info) (victimPage info) m)))
  end.
Proof.
  intros Hfault row target isLeaf info.
  pose proof Hfault as (Hinv & _).
  destruct (scan_root_maxFrame m target F Hinv) as (Hmax & _ & _).
  fold (alloc_info F target m) in Hmax. fold info in Hmax.
  assert (Hu : u64 (maxFrame info + 1) = maxFrame info + 1).
  { apply u64_small. pose proof NUM_FRAMES_lt. lia. }
  pose proof (scan_root_empty m va level F Hfault) as Hempty.
  fold target in Hempty. fold info in Hempty.
  unfold alloc_decision, allocateFrame. fold (alloc_info F target m). fold info.
  rewrite Hu.
  destruct Hempty as [[He Hnone] | Hfound].
  - rewrite He, Z.eqb_refl. cbn [negb andb].
    destruct (Z.ltb_spec (maxFrame info + 1) NUM_FRAMES) as [Hlt | Hge].
    + split; [exact Hnone|]. split; [exact Hlt | reflexivity].
    + split; [exact Hnone|]. split; [lia|]. split; [|reflexivity].
      destruct (scan_root_victim m va level F Hfault Hnone ltac:(fold target; fold info; lia))
        as (l1 & v & l2 & El & Ev & Hpos & H1 & H2).
      exists v. split; [exists l1, l2; auto|]. split; [exact Hpos | exact Ev].
  - pose proof Hfound as (q & _ & _ & _ & _ & _ & (_ & _ & HneF) & HneM & _).
    apply Z.eqb_neq in HneM, HneF. rewrite HneM, HneF. cbn [negb andb].
    split; [exact Hfound | reflexivity].
Qed.

(** Every fault the walker resolves is a resolved fault in the sense of
    [alloc_step]; [old] is the former place of the frame: none for a fresh
    frame, a table entry for a reused table, the entry of the victim for an
    evicted page. *)
Lemma fault_step m va level F :
  fault_at m va level F ->
  let row := indexAtLevel va level in
  let target := Z.shiftr va OFFSET_WIDTH in
  let isLeaf := level + 1 =? TABLES_DEPTH in
  let info := alloc_info F target m in
  let r := allocateFrame F row target isLeaf m in
  exists old,
    alloc_step m (link_frame F row (fst r) target isLeaf (snd r))
               (take (Z.to_nat level) (walk_path va)) F row (fst r) target old /\
    match alloc_decision F target m with
    | Reuse => exists qX, old = Some (qX, emptyRowInParent info, emptyParent info) /\
                          Z.of_nat (length qX) + 1 < TABLES_DEPTH
    | Fresh => old = None
    | Evict => exists qX, old = Some (qX, victimRowInParent info, victimParent info) /\
                          Z.of_nat (length qX) + 1 = TABLES_DEPTH
    end.
Proof.
  intros Hfault row target isLeaf info r.
  pose proof Hfault as (Hinv & Hva & Hl & HF & Hz).
  destruct (fault_path m va level F Hfault) as (HpF & HlF & Hrow).
  set (pF := take (Z.to_nat level) (walk_path va)) in *.
  assert (HisLeaf : isLeaf = (Z.of_nat (length pF) + 1 =? TABLES_DEPTH))
    by (unfold isLeaf; rewrite HlF; reflexivity).
  pose proof (alloc_outcome m va level F Hfault) as Hout.
  cbn zeta in Hout. fold row target isLeaf info in Hout.
  destruct (scan_root_maxFrame m target F Hinv) as (Hmax & Hle & Hall).
  fold (alloc_info F target m) in Hmax, Hle, Hall. fold info in Hmax, Hle, Hall.
  destruct (alloc_decision F target m).
  - (* an empty table is reused *)
    destruct Hout as [Hfound Er]. unfold r. rewrite Er. cbn [fst snd].
    destruct Hfound as (q & Hq & Hlq & Hd & HrX & He & (Haz & HX0 & HXF) & HXM & HPM).
    fold (frame_at m q) in Hd.
    assert (HX : 1 <= emptyFrame info < NUM_FRAMES).
    { pose proof (inv_range m Hinv q _ _ Hq ltac:(lia) Hd HrX). lia. }
    assert (HP : frame_ok (emptyParent info))
      by (apply (frame_at_table_ok m q); (assumption || lia)).
    exists (Some (q, emptyRowInParent info, emptyParent info)). split; [|exists q; split; [reflexivity | lia]].
    rewrite HisLeaf. apply alloc_step_intro; try assumption; try lia.
    + intros E. discriminate.
    + intros qX rX PX E. injection E as <- <- <-.
      split; [exact Hq|]. split; [exact HrX|]. split; [lia|]. split; [exact Hd|].
      split; [exact He|]. intros _. apply all_zerob_true. exact Haz.
    + intros qX rX PX E. injection E as <- <- <-.
      rewrite entry_PMwrite by assumption. rewrite decide_True by (split; reflexivity).
      reflexivity.
    + intros g r0 Hg Hr0 Hne. rewrite entry_PMwrite by assumption.
      rewrite decide_False; [reflexivity|]. intros [-> ->].
      apply (Hne q _ _ eq_refl). reflexivity.
    + cbn [PMwrite swapFile].
      destruct (Z.eqb_spec (Z.of_nat (length q) + 1) TABLES_DEPTH); [lia | reflexivity].
  - (* a fresh frame is taken *)
    destruct Hout as (Hnone & Hlt & Er). unfold r. rewrite Er. cbn [fst snd].
    exists None. split; [|reflexivity].
    rewrite HisLeaf. apply alloc_step_intro; try assumption; try lia.
    + pose proof (Hle pF F HpF ltac:(lia) HF). lia.
    + intros _. split.
      * intros p Hp Hlp Hat. pose proof (Hle p _ Hp Hlp Hat). lia.
      * intros g Hg. apply Hall. lia.
    + intros ? ? ? E. discriminate.
    + intros ? ? ? E. discriminate.
    + reflexivity.
  - (* a data page is evicted *)
    destruct Hout as (Hnone & Hfull & (v & (l1 & l2 & El & _) & Hpos & Ev) & Er).
    unfold r. rewrite Er. cbn [fst snd].
    apply victim_of_eq in Ev as (_ & Ef & Ep & Epar & Erow).
    rewrite Ef, Ep, Epar, Erow.
    assert (Hin : v ∈ mapped_leaves m).
    { rewrite El. apply elem_of_app. right. apply elem_of_cons. left. reflexivity. }
    destruct (mapped_leaf_facts m v Hinv Hin)
      as (q & Hq & HrX & Hlq & Hd & He & HX & Hpg & Hpgb & Hat).
    assert (HP : frame_ok (leaf_parent v))
      by (apply (frame_at_table_ok m q); (assumption || lia)).
    assert (Hqr : path_ok (q ++ [leaf_row v])).
    { apply Forall_app. split; [exact Hq | constructor; [exact HrX | constructor]]. }
    exists (Some (q, leaf_row v, leaf_parent v)). split; [|exists q; split; [reflexivity | lia]].
    rewrite HisLeaf. apply alloc_step_intro; try assumption; try lia.
    + intros E. rewrite <- E in HF.
      assert (E' : q ++ [leaf_row v] = pF).
      { apply (inv_inj m Hinv _ _ (leaf_frame v)); try assumption.
        - rewrite length_app. simpl. lia.
        - lia. }
      apply (f_equal length) in E'. rewrite length_app in E'. simpl in E'. lia.
    + intros E. discriminate.
    + intros qX rX PX E. injection E as <- <- <-.
      split; [exact Hq|]. split; [exact HrX|]. split; [lia|]. split; [exact Hd|].
      split; [exact He|]. intros Hlt. lia.
    + intros qX rX PX E. injection E as <- <- <-.
      rewrite entry_PMwrite by assumption. rewrite decide_True by (split; reflexivity).
      reflexivity.
    + intros g r0 Hg Hr0 Hne. rewrite entry_PMwrite by assumption.
      rewrite decide_False; [reflexivity|]. intros [-> ->].
      apply (Hne q _ _ eq_refl). reflexivity.
    + cbn [PMwrite PMevict swapFile].
      destruct (Z.eqb_spec (Z.of_nat (length q) + 1) TABLES_DEPTH); [|lia].
      rewrite Hpg. reflexivity.
Qed.

(** ** The walker *)

(** After a fault is resolved the tree is well formed again, the new frame
    sits one level further down the path of the address, and the virtual
    memory holds the same words. *)
Lemma fault_resolved m va level F :
  fault_at m va level F ->
  let row := indexAtLevel va level in
  let target := Z.shiftr va OFFSET_WIDTH in
  let isLeaf := level + 1 =? TABLES_DEPTH in
  let r := allocateFrame F row target isLeaf m in
  let m3 := link_frame F row (fst r) target isLeaf (snd r) in
  tree_inv m3 /\
  frame_at m3 (take (Z.to_nat (level + 1)) (walk_path va)) = Some (fst r) /\
  1 <= fst r < NUM_FRAMES /\
  (forall a v, 0 <= a < VIRTUAL_MEMORY_SIZE -> vread m a = Some v -> vread m3 a = Some v).
Proof.
  intros Hfault row target isLeaf r m3.
  pose proof Hfault as (Hinv & Hva & Hl & HF & Hz).
  destruct (fault_path m va level F Hfault) as (HpF & HlF & Hrow).
  destruct (fault_step m va level F Hfault) as (old & Hstep & _).
  fold row target isLeaf r in Hstep. fold m3 in Hstep.
  assert (Hpage : Z.of_nat (length (take (Z.to_nat level) (walk_path va))) + 1 = TABLES_DEPTH ->
            target = page_of_path (take (Z.to_nat level) (walk_path va) ++ [row]) /\
            target < NUM_PAGES).
  { intros HlD. unfold target, row. rewrite shiftr_page.
    rewrite <- take_walk_path_S by exact Hl.
    rewrite take_ge by (rewrite walk_path_length; lia).
    rewrite page_of_walk_path by exact Hva. split; [reflexivity|].
    apply page_lt_NUM_PAGES. exact Hva. }
  split; [|split; [|split]].
  - eapply step_inv; eauto. lia.
  - rewrite take_walk_path_S by exact Hl. eapply step_new_mapped; eauto. lia.
  - apply (st_frame _ _ _ _ _ _ _ _ Hstep).
  - eapply step_vread; eauto. lia.
Qed.

(** [n] levels of the walk, starting at level [level] in table [frame]:
    with creation enabled the walk never misses, it arrives at the frame the
    tree holds for the next [n] digits of the address, and it keeps the
    invariant and the words of the virtual memory. *)
Lemma walk_loop_spec va (n : nat) :
  0 <= va < VIRTUAL_MEMORY_SIZE ->
  forall level frame m,
    tree_inv m -> 0 <= level -> level + Z.of_nat n <= TABLES_DEPTH ->
    frame_at m (take (Z.to_nat level) (walk_path va)) = Some frame ->
    exists f' m',
      walk_loop n level va true frame m = (Some f', m') /\
      tree_inv m' /\
      frame_at m' (take (Z.to_nat (level + Z.of_nat n)) (walk_path va)) = Some f' /\
      (forall a v, 0 <= a < VIRTUAL_MEMORY_SIZE ->
         vread m a = Some v -> vread m' a = Some v).
Proof.
  intros Hva. induction n as [|n IH]; intros level frame m Hinv Hl0 Hl HF.
  - exists frame, m. split; [reflexivity|]. split; [exact Hinv|].
    split; [rewrite Z.add_0_r; exact HF | auto].
  - cbn [walk_loop]. fold (entry m frame (indexAtLevel va level)).
    destruct (Z.eqb_spec (entry m frame (indexAtLevel va level)) 0) as [Hz | Hnz].
    + cbn [negb].
      assert (Hfault : fault_at m va level frame).
      { split; [exact Hinv|]. split; [exact Hva|]. split; [lia|]. split; assumption. }
      destruct (fault_resolved m va level frame Hfault) as (Hinv' & Hat & HX & Hv).
      destruct (allocateFrame frame (indexAtLevel va level) (Z.shiftr va OFFSET_WIDTH)
                  (level + 1 =? TABLES_DEPTH) m) as [X m1] eqn:Ealloc.
      cbn [fst snd] in Hinv', Hat, HX, Hv.
      rewrite (to_word_frame X) by lia. rewrite (u64_frame X) by lia.
      unfold link_frame in Hinv', Hat, Hv. rewrite (to_word_frame X) in Hinv', Hat, Hv by lia.
      destruct (IH (level + 1) X _ Hinv' ltac:(lia) ltac:(lia) Hat)
        as (f' & m' & Ew & Hinv'' & Hat' & Hv').
      exists f', m'. split; [exact Ew|]. split; [exact Hinv''|]. split.
      * replace (level + Z.of_nat (S n)) with (level + 1 + Z.of_nat n) by lia. exact Hat'.
      * intros a v Ha Hr. apply Hv'; [exact Ha|]. apply Hv; assumption.
    + assert (Hc : 0 <= entry m frame (indexAtLevel va level) < NUM_FRAMES).
      { apply (inv_range m Hinv (take (Z.to_nat level) (walk_path va))).
        - apply Forall_take, walk_path_ok.
        - rewrite length_take, walk_path_length. lia.
        - exact HF.
        - apply indexAtLevel_ok. lia. }
      assert (Hat : frame_at m (take (Z.to_nat (level + 1)) (walk_path va))
                    = Some (u64 (entry m frame (indexAtLevel va level)))).
      { rewrite take_walk_path_S by lia. rewrite (frame_at_snoc _ _ _ _ HF).
        apply Z.eqb_neq in Hnz. rewrite Hnz. reflexivity. }
      destruct (IH (level + 1) _ m Hinv ltac:(lia) ltac:(lia) Hat)
        as (f' & m' & Ew & Hinv'' & Hat' & Hv').
      exists f', m'. split; [exact Ew|]. split; [exact Hinv''|]. split; [|exact Hv'].
      replace (level + Z.of_nat (S n)) with (level + 1 + Z.of_nat n) by lia. exact Hat'.
Qed.

(** ** The public operations *)

Lemma frame_at_agree m m' :
  tree_inv m ->
  (forall p g r, path_ok p -> Z.of_nat (length p) < TABLES_DEPTH ->
     frame_at m p = Some g -> row_ok r -> entry m' g r = entry m g r) ->
  forall p, path_ok p -> Z.of_nat (length p) <= TABLES_DEPTH ->
    frame_at m' p = frame_at m p.
Proof.
  intros Hinv Hag p. induction p as [|r p IH] using rev_ind; intros Hp Hl; [reflexivity|].
  unfold path_ok in Hp. rewrite Forall_app, Forall_singleton in Hp. destruct Hp as [Hp Hr].
  rewrite length_app in Hl. simpl in Hl. specialize (IH Hp ltac:(lia)).
  destruct (frame_at m p) as [g|] eqn:Hg.
  - rewrite (frame_at_snoc _ _ _ _ IH), (frame_at_snoc _ _ _ _ Hg).
    rewrite (Hag p g r Hp ltac:(lia) Hg Hr). reflexivity.
  - rewrite !frame_at_snoc_None by assumption. reflexivity.
Qed.

Lemma tree_inv_agree m m' :
  tree_inv m ->
  (forall p g r, path_ok p -> Z.of_nat (length p) < TABLES_DEPTH ->
     frame_at m p = Some g -> row_ok r -> entry m' g r = entry m g r) ->
  swapFile m' = swapFile m ->
  tree_inv m'.
Proof.
  intros Hinv Hag Hswap. pose proof (frame_at_agree m m' Hinv Hag) as Hat.
  constructor.
  - intros p g r Hp Hl Hg Hr. rewrite Hat in Hg by (assumption || lia).
    rewrite (Hag p g r Hp Hl Hg Hr). apply (inv_range m Hinv p g r); assumption.
  - intros p1 p2 g Hp1 Hp2 Hl1 Hl2 H1 H2. rewrite Hat in H1, H2 by assumption.
    apply (inv_inj m Hinv p1 p2 g); assumption.
  - intros p f g Hp Hl Hf Hg. rewrite Hat in Hf by assumption.
    destruct (inv_contig m Hinv p f g Hp Hl Hf Hg) as (q & Hq & Hlq & Hatq).
    exists q. split; [exact Hq|]. split; [exact Hlq|]. rewrite Hat by assumption. exact Hatq.
  - intros p g Hp Hl Hg. rewrite Hat in Hg by (assumption || lia).
    apply (inv_pages m Hinv p g); assumption.
  - intros page ws Hs. rewrite Hswap in Hs. apply (inv_swap m Hinv page ws Hs).
Qed.

Lemma initial_inv r : tree_inv (initial r).
Proof.
  pose proof TABLES_DEPTH_pos as HD. pose proof NUM_FRAMES_bound as [HNF _].
  assert (H0 : frame_ok 0) by (unfold frame_ok; lia).
  assert (Hroot : forall row, row_ok row -> entry (initial r) 0 row = 0).
  { intros row Hr. unfold initial, VMinitialize.
    rewrite entry_clearFrame by assumption. rewrite decide_True by reflexivity. reflexivity. }
  assert (Hnone : forall p, path_ok p -> p <> [] -> frame_at (initial r) p = None).
  { intros p Hp Hne. destruct p as [|row p]; [congruence|].
    apply Forall_cons in Hp as [Hr _]. unfold frame_at. rewrite descend_cons.
    rewrite (Hroot row Hr). reflexivity. }
  assert (Honly : forall p g, path_ok p -> frame_at (initial r) p = Some g -> p = [] /\ g = 0).
  { intros p g Hp Hg. destruct p as [|row p].
    - rewrite frame_at_nil in Hg. injection Hg as <-. auto.
    - rewrite Hnone in Hg by (assumption || discriminate). discriminate. }
  constructor.
  - intros p g row Hp _ Hg Hr. apply Honly in Hg as [-> ->]; [|exact Hp].
    rewrite (Hroot row Hr). lia.
  - intros p1 p2 g Hp1 Hp2 _ _ H1 H2.
    apply Honly in H1 as [-> _]; [|exact Hp1]. apply Honly in H2 as [-> _]; [|exact Hp2].
    reflexivity.
  - intros p f g Hp _ Hf Hg. apply Honly in Hf as [_ ->]; [lia | exact Hp].
  - intros p g Hp Hl Hg. apply Honly in Hg as [-> _]; [|exact Hp]. simpl in Hl. lia.
  - intros page ws Hs. unfold initial, VMinitialize in Hs.
    rewrite swapFile_clearFrame in Hs. simpl in Hs. rewrite lookup_empty in Hs. discriminate.
Qed.

(** The whole walk of an in-range address. *)
Lemma walk_spec m va :
  tree_inv m -> 0 <= va < VIRTUAL_MEMORY_SIZE ->
  exists leafFrame m',
    walk va true m = (Some leafFrame, m') /\ tree_inv m' /\
    frame_at m' (walk_path va) = Some leafFrame /\
    1 <= leafFrame < NUM_FRAMES /\
    (forall a v, 0 <= a < VIRTUAL_MEMORY_SIZE ->
       vread m a = Some v -> vread m' a = Some v).
Proof.
  intros Hinv Hva. pose proof TABLES_DEPTH_pos as HD.
  destruct (walk_loop_spec va (Z.to_nat TABLES_DEPTH) Hva 0 0 m Hinv ltac:(lia) ltac:(lia)
              eq_refl) as (f & m' & Ew & Hinv' & Hat & Hv).
  rewrite take_ge in Hat by (rewrite walk_path_length; lia).
  exists f, m'. split; [exact Ew|]. split; [exact Hinv'|]. split; [exact Hat|].
  split; [|exact Hv].
  destruct (walk_path_full va) as [Hp Hl].
  pose proof (frame_at_table_ok m' _ _ Hinv' Hp ltac:(lia) Hat) as Hok.
  assert (f <> 0); [|unfold frame_ok in Hok; lia].
  apply (frame_at_nonroot m' (walk_path va)); try assumption; [lia|].
  intros E. rewrite E in Hl. simpl in Hl. lia.
Qed.

Lemma address_split a b :
  0 <= a -> 0 <= b -> walk_path a = walk_path b ->
  a < VIRTUAL_MEMORY_SIZE -> b < VIRTUAL_MEMORY_SIZE ->
  offsetOf a = offsetOf b -> a = b.
Proof.
  intros Ha Hb Hw Ha' Hb' Ho. pose proof PAGE_SIZE_pos.
  pose proof (page_of_walk_path a ltac:(lia)) as Pa.
  pose proof (page_of_walk_path b ltac:(lia)) as Pb.
  rewrite Hw, Pb in Pa. unfold offsetOf in Ho. rewrite !land_PAGE_SIZE in Ho.
  rewrite (Z.div_mod a PAGE_SIZE), (Z.div_mod b PAGE_SIZE) by lia. congruence.
Qed.

(** A word written into a data frame: the tree stays as it is, the address
    written holds the new word and the other addresses their words. *)
Lemma leaf_write m a v L :
  tree_inv m -> 0 <= a < VIRTUAL_MEMORY_SIZE ->
  frame_at m (walk_path a) = Some L ->
  let m' := PMwrite (phys L (offsetOf a)) v m in
  tree_inv m' /\ vread m' a = Some v /\
  (forall b w, 0 <= b < VIRTUAL_MEMORY_SIZE -> b <> a ->
     vread m b = Some w -> vread m' b = Some w).
Proof.
  intros Hinv Ha HL m'. destruct (walk_path_full a) as [Hpa Hla].
  pose proof (offsetOf_ok a) as Hoff.
  assert (HLok : frame_ok L) by (apply (frame_at_table_ok m (walk_path a)); (assumption || lia)).
  assert (Hag : forall p g r, path_ok p -> Z.of_nat (length p) < TABLES_DEPTH ->
            frame_at m p = Some g -> row_ok r -> entry m' g r = entry m g r).
  { intros p g r Hp Hl Hg Hr. unfold m'.
    rewrite entry_PMwrite; try assumption;
      [|apply (frame_at_table_ok m p); (assumption || lia)].
    rewrite decide_False; [reflexivity|]. intros [-> _].
    assert (E : p = walk_path a) by (apply (inv_inj m Hinv _ _ L); (assumption || lia)).
    rewrite E in Hl. lia. }
  pose proof (frame_at_agree m m' Hinv Hag) as Hat.
  split; [apply (tree_inv_agree m m' Hinv Hag); reflexivity|]. split.
  - unfold vread. rewrite Hat, HL by (assumption || lia). unfold m'.
    rewrite entry_PMwrite by assumption. rewrite decide_True by (split; reflexivity).
    reflexivity.
  - intros b w Hb Hne Hv. unfold vread in *. destruct (walk_path_full b) as [Hpb Hlb].
    rewrite Hat by (assumption || lia).
    destruct (frame_at m (walk_path b)) as [g|] eqn:Hg; [|exact Hv].
    injection Hv as <-. f_equal. unfold m'.
    assert (Hgok : frame_ok g) by (apply (frame_at_table_ok m (walk_path b)); (assumption || lia)).
    rewrite entry_PMwrite; try assumption; [|apply offsetOf_ok].
    rewrite decide_False; [reflexivity|]. intros [-> Ho]. apply Hne.
    apply address_split; try lia; try exact Ho.
    apply (inv_inj m Hinv _ _ L); (assumption || lia).
Qed.

Lemma VMwrite_spec m a v :
  tree_inv m -> 0 <= a < VIRTUAL_MEMORY_SIZE ->
  exists m',
    VMwrite a v m = Some (1, m') /\ tree_inv m' /\ vread m' a = Some v /\
    (forall b w, 0 <= b < VIRTUAL_MEMORY_SIZE -> b <> a ->
       vread m b = Some w -> vread m' b = Some w).
Proof.
  intros Hinv Ha. unfold VMwrite.
  destruct (Z.leb_spec VIRTUAL_MEMORY_SIZE a) as [|_]; [lia|].
  destruct (walk_spec m a Hinv Ha) as (L & m1 & Ew & Hinv1 & HL & _ & Hv). rewrite Ew.
  destruct (leaf_write m1 a v L Hinv1 Ha HL) as (Hinv' & Hva & Hvb).
  eexists. split; [reflexivity|]. split; [exact Hinv'|]. split; [exact Hva|].
  intros b w Hb Hne Hr. apply Hvb; try assumption. apply Hv; assumption.
Qed.

Lemma VMread_spec m a value :
  tree_inv m -> 0 <= a < VIRTUAL_MEMORY_SIZE ->
  exists out m',
    VMread a value m = Some (1, out, m') /\ tree_inv m' /\ vread m' a = Some out /\
    (forall b w, 0 <= b < VIRTUAL_MEMORY_SIZE ->
       vread m b = Some w -> vread m' b = Some w).
Proof.
  intros Hinv Ha. unfold VMread.
  destruct (Z.leb_spec VIRTUAL_MEMORY_SIZE a) as [|_]; [lia|].
  destruct (walk_spec m a Hinv Ha) as (L & m1 & Ew & Hinv1 & HL & _ & Hv). rewrite Ew.
  eexists _, _. split; [reflexivity|]. split; [exact Hinv1|]. split; [|exact Hv].
  unfold vread. rewrite HL. reflexivity.
Qed.

Lemma VMread_out_of_range m a value :
  VIRTUAL_MEMORY_SIZE <= a -> VMread a value m = Some (0, value, m).
Proof. intros H. unfold VMread. destruct (Z.leb_spec VIRTUAL_MEMORY_SIZE a); [reflexivity | lia]. Qed.

Lemma VMwrite_out_of_range m a v :
  VIRTUAL_MEMORY_SIZE <= a -> VMwrite a v m = Some (0, m).
Proof. intros H. unfold VMwrite. destruct (Z.leb_spec VIRTUAL_MEMORY_SIZE a); [reflexivity | lia]. Qed.

(** ** Reachable states *)

Lemma run_op_inv o m m' :
  tree_inv m -> 0 <= op_address o <= UINT64_MAX -> run_op o m = Some m' ->
  tree_inv m' /\
  (forall b w, 0 <= b < VIRTUAL_MEMORY_SIZE -> keeps_address b o ->
     vread m b = Some w -> vread m' b = Some w).
Proof.
  intros Hinv Ha Hrun. destruct o as [a | a v]; cbn in Ha, Hrun |- *.
  - destruct (Z.lt_ge_cases a VIRTUAL_MEMORY_SIZE) as [Hlt | Hge].
    + destruct (VMread_spec m a 0 Hinv ltac:(lia)) as (out & m1 & E & Hinv' & _ & Hv).
      rewrite E in Hrun. injection Hrun as <-. split; [exact Hinv'|].
      intros b w Hb _. apply Hv. exact Hb.
    + rewrite VMread_out_of_range in Hrun by exact Hge. injection Hrun as <-.
      split; [exact Hinv | auto].
  - destruct (Z.lt_ge_cases a VIRTUAL_MEMORY_SIZE) as [Hlt | Hge].
    + destruct (VMwrite_spec m a v Hinv ltac:(lia)) as (m1 & E & Hinv' & _ & Hv).
      rewrite E in Hrun. injection Hrun as <-. split; [exact Hinv'|].
      intros b w Hb Hne. apply Hv; [exact Hb | congruence].
    + rewrite VMwrite_out_of_range in Hrun by exact Hge. injection Hrun as <-.
      split; [exact Hinv | auto].
Qed.

Lemma reachable_inv m : reachable m -> tree_inv m.
Proof.
  induction 1 as [r | o m m' _ IH Ha Hrun]; [apply initial_inv|].
  apply (run_op_inv o m m' IH Ha Hrun).
Qed.

Lemma in_walk_inv m : in_walk m -> tree_inv m.
Proof.
  intros (m0 & va & n & Hreach & Hva & Hn & <-).
  destruct (walk_loop_spec va n Hva 0 0 m0 (reachable_inv m0 Hreach) ltac:(lia) ltac:(lia)
              eq_refl) as (f & m' & Ew & Hinv & _).
  rewrite Ew. exact Hinv.
Qed.

Lemma reachable_in_walk m : reachable m -> in_walk m.
Proof.
  intros Hreach. exists m, 0, O. split; [exact Hreach|].
  destruct Hcfg as (_ & _ & _ & Hnp & Hvms & _). pose proof PAGE_SIZE_pos.
  pose proof TABLES_DEPTH_pos. split; [nia|]. split; [simpl; lia | reflexivity].
Qed.

(** The calls of the allocator by the walker are made on faults. *)
Lemma alloc_call_fault m F row page isLeaf :
  alloc_call m F row page isLeaf ->
  exists va level,
    fault_at m va level F /\ row = indexAtLevel va level /\
    page = Z.shiftr va OFFSET_WIDTH /\ isLeaf = (level + 1 =? TABLES_DEPTH).
Proof.
  intros (m0 & va & level & Hreach & Hva & Hl & Ew & Hrow & Hz & Hpage & Hleaf).
  exists va, level. split; [|auto].
  destruct (walk_loop_spec va (Z.to_nat level) Hva 0 0 m0 (reachable_inv m0 Hreach)
              ltac:(lia) ltac:(lia) eq_refl) as (f & m' & Ew' & Hinv & Hat & _).
  rewrite Ew in Ew'. injection Ew' as <- <-.
  rewrite Z.add_0_l, Z2Nat.id in Hat by lia.
  split; [exact Hinv|]. split; [exact Hva|]. split; [exact Hl|]. split; [exact Hat|].
  subst row. exact Hz.
Qed.

Lemma alloc_call_in_walk m F row page isLeaf :
  alloc_call m F row page isLeaf -> in_walk m.
Proof.
  intros (m0 & va & level & Hreach & Hva & Hl & Ew & _).
  exists m0, va, (Z.to_nat level). split; [exact Hreach|]. split; [exact Hva|].
  split; [lia|]. rewrite Ew. reflexivity.
Qed.

Lemma parent_ne_child m q P r X :
  tree_inv m -> path_ok q -> row_ok r -> Z.of_nat (length q) < TABLES_DEPTH ->
  frame_at m q = Some P -> entry m P r = X -> X <> 0 -> P <> X.
Proof.
  intros Hinv Hq Hr Hl Hat He HX0 ->.
  pose proof (inv_range m Hinv q X r Hq Hl Hat Hr) as Hc. rewrite He in Hc.
  assert (E : q ++ [r] = q).
  { apply (inv_inj m Hinv _ _ X); try assumption.
    - apply Forall_app. split; [exact Hq | constructor; [exact Hr | constructor]].
    - rewrite length_app. simpl. lia.
    - lia.
    - rewrite (frame_at_snoc _ _ _ _ Hat), He.
      destruct (Z.eqb_spec X 0); [lia|]. rewrite u64_frame by lia. reflexivity. }
  apply (f_equal length) in E. rewrite length_app in E. simpl in E. lia.
Qed.

Lemma has_reusable_iff m parentFrame :
  none_reusable m parentFrame 0 0 <-> ~ has_reusable m parentFrame.
Proof.
  unfold none_reusable, has_reusable. split.
  - intros H (p & g & Hp & Hl & Hat & Hr). apply (H p g Hp ltac:(lia) Hat Hr).
  - intros H q g Hq Hl Hat Hr. apply H. exists q, g.
    split; [exact Hq|]. split; [lia|]. split; [exact Hat | exact Hr].
Qed.



(** The depth-first list of data pages holds exactly the mapped pages. *)
Lemma mapped_leaves_pages m a :
  tree_inv m -> 0 <= a < VIRTUAL_MEMORY_SIZE ->
  (is_Some (frame_at m (walk_path a)) <->
   exists x, x ∈ mapped_leaves m /\ leaf_page x = Z.shiftr a OFFSET_WIDTH).
Proof.
  intros Hinv Ha. destruct (walk_path_full a) as [Hp Hl]. rewrite shiftr_page.
  rewrite <- (page_of_walk_path a Ha). split.
  - intros [g Hg]. destruct (mapped_leaf_intro m _ g Hinv Hp Hl Hg) as (x & Hx & Hpg & _).
    exists x. split; assumption.
  - intros (x & Hx & Hpg).
    destruct (mapped_leaf_facts m x Hinv Hx) as (q & Hq & Hr & Hlq & _ & _ & _ & Hpx & _ & Hat).
    assert (E : q ++ [leaf_row x] = walk_path a).
    { apply page_of_path_inj; try assumption.
      - apply Forall_app. split; [exact Hq | constructor; [exact Hr | constructor]].
      - rewrite length_app. simpl. apply Nat2Z.inj. lia.
      - congruence. }
    rewrite <- E, Hat. eauto.
Qed.

Lemma scan_root_victim_fold m page parentFrame :
  victim_of (alloc_info parentFrame page m) =
  fold_left (pick page) (mapped_leaves m) (0, mkLeaf 0 UINT64_MAX UINT64_MAX 0).
Proof.
  pose proof TABLES_DEPTH_pos as HD. pose proof PAGE_SIZE_pos as Hps.
  unfold alloc_info, scan_fuel, mapped_leaves.
  rewrite (scan_victim _ _ _ _ (Z.to_nat TABLES_DEPTH)); [reflexivity | lia | lia | lia |].
  rewrite Z2Nat.id by lia. pose proof VIRTUAL_MEMORY_SIZE_bound as [_ Hb].
  rewrite Z.pow_add_r, Z.pow_1_r in Hb by lia.
  assert (0 < PAGE_SIZE ^ TABLES_DEPTH) by (apply Z.pow_pos_nonneg; lia). nia.
Qed.

Lemma run_op_total o m :
  tree_inv m -> 0 <= op_address o <= UINT64_MAX -> exists m', run_op o m = Some m'.
Proof.
  intros Hinv Ha. destruct o as [a | a v]; cbn in Ha |- *.
  - destruct (Z.lt_ge_cases a VIRTUAL_MEMORY_SIZE) as [Hlt | Hge].
    + destruct (VMread_spec m a 0 Hinv ltac:(lia)) as (out & m1 & E & _). rewrite E. eauto.
    + rewrite VMread_out_of_range by exact Hge. eauto.
  - destruct (Z.lt_ge_cases a VIRTUAL_MEMORY_SIZE) as [Hlt | Hge].
    + destruct (VMwrite_spec m a v Hinv ltac:(lia)) as (m1 & E & _). rewrite E. eauto.
    + rewrite VMwrite_out_of_range by exact Hge. eauto.
Qed.

(** A sequence of operations that does not write to [a] runs to its end
    and keeps the word held for [a]. *)
Lemma run_ops_keep a v ops :
  0 <= a < VIRTUAL_MEMORY_SIZE ->
  Forall (fun o => 0 <= op_address o <= UINT64_MAX /\ keeps_address a o) ops ->
  forall m, tree_inv m -> vread m a = Some v ->
    exists m', run_ops ops m = Some m' /\ tree_inv m' /\ vread m' a = Some v.
Proof.
  intros Ha. induction ops as [|o ops IH]; intros Hall m Hinv Hv.
  - exists m. split; [reflexivity|]. split; assumption.
  - apply Forall_cons in Hall as [[Ho Hk] Hall]. cbn [run_ops].
    destruct (run_op_total o m Hinv Ho) as [m1 E]. rewrite E.
    destruct (run_op_inv o m m1 Hinv Ho E) as [Hinv1 Hv1].
    apply (IH Hall m1 Hinv1). apply Hv1; assumption.
Qed.

Lemma other_page_keeps a o :
  other_page a o -> 0 <= op_address o <= UINT64_MAX /\ keeps_address a o.
Proof.
  intros [Hr Hne]. pose proof VIRTUAL_MEMORY_SIZE_bound as [H1 H2]. split.
  - unfold UINT64_MAX. lia.
  - destruct o as [b | b w]; cbn in *; [exact I | congruence].
Qed.

Lemma run_ops_reachable ops :
  forall m m', reachable m ->
    Forall (fun o => 0 <= op_address o <= UINT64_MAX) ops ->
    run_ops ops m = Some m' -> reachable m'.
Proof.
  induction ops as [|o ops IH]; intros m m' Hreach Hall Hrun; cbn [run_ops] in Hrun.
  - injection Hrun as <-. exact Hreach.
  - apply Forall_cons in Hall as [Ho Hall].
    destruct (run_op o m) as [m1|] eqn:E; [|discriminate].
    apply (IH m1 m'); [|exact Hall | exact Hrun].
    apply (reach_step o m m1); assumption.
Qed.

(** * The properties of the specification *)

(** C1. Round trip: from every state the simulator reaches from the
    initialized state, for every address [a] below [VIRTUAL_MEMORY_SIZE]
    and every word [v], [VMwrite a v] returns 1 and a later [VMread a]
    returns 1 and sets its output to [v], whatever in-range reads and writes
    on addresses of other pages are made in between (those that force the
    eviction of the page of [a] and its later restoration included). *)
Theorem round_trip m a v ops value :
  reachable m -> 0 <= a < VIRTUAL_MEMORY_SIZE -> Forall (other_page a) ops ->
  exists m1 m2 m3,
    VMwrite a v m = Some (1, m1) /\ run_ops ops m1 = Some m2 /\
    VMread a value m2 = Some (1, v, m3).
Proof.
  intros Hreach Ha Hops. pose proof (reachable_inv m Hreach) as Hinv.
  destruct (VMwrite_spec m a v Hinv Ha) as (m1 & Ew & Hinv1 & Hv1 & _).
  destruct (run_ops_keep a v ops Ha) with (m := m1) as (m2 & Er & Hinv2 & Hv2);
    try assumption.
  { eapply Forall_impl; [exact Hops|]. intros o Ho. apply other_page_keeps. exact Ho. }
  destruct (VMread_spec m2 a value Hinv2 Ha) as (out & m3 & Erd & _ & Hout & Hkeep).
  exists m1, m2, m3. split; [exact Ew|]. split; [exact Er|].
  rewrite Erd. specialize (Hkeep a v Ha Hv2). rewrite Hout in Hkeep.
  injection Hkeep as ->. reflexivity.
Qed.

(** C3. Strict allocation priority: in every call of [allocateFrame] with
    the arguments of the walker on a well-formed tree, whether the simulator
    reaches that tree or not (the calls the walker makes in the executions
    are among them, by [alloc_call_fault]), where [maxFrame info] is the
    largest frame index referenced in the tree,
    - if the tree has an empty table other than the root and the parent
      being populated, such a table is returned, after the entry that
      pointed to it was set to 0, whether fresh frames are left or not:
      [has_reusable] alone decides for [Reuse], also when
      [maxFrame info + 1 < NUM_FRAMES];
    - otherwise, if [maxFrame info + 1 < NUM_FRAMES], the fresh frame
      [maxFrame info + 1] is returned;
    - [PMevict] is called only when there is no such empty table and
      [maxFrame info + 1] has reached [NUM_FRAMES]. *)
Theorem allocation_priority m parentFrame ParentRow targetPage isLeaf :
  table_call m parentFrame ParentRow targetPage isLeaf ->
  let info := alloc_info parentFrame targetPage m in
  let r := allocateFrame parentFrame ParentRow targetPage isLeaf m in
  (forall p g, path_ok p -> Z.of_nat (length p) <= TABLES_DEPTH ->
     frame_at m p = Some g -> g <= maxFrame info) /\
  (forall g, 1 <= g <= maxFrame info ->
     exists p, path_ok p /\ Z.of_nat (length p) <= TABLES_DEPTH /\ frame_at m p = Some g) /\
  (has_reusable m parentFrame -> alloc_decision parentFrame targetPage m = Reuse) /\
  match alloc_decision parentFrame targetPage m with
  | Reuse =>
      reusable m parentFrame (fst r) /\
      (exists q, path_ok q /\ Z.of_nat (length q) + 1 < TABLES_DEPTH /\
                 frame_at m q = Some (emptyParent info) /\
                 row_ok (emptyRowInParent info) /\
                 entry m (emptyParent info) (emptyRowInParent info) = fst r /\
                 entry (snd r) (emptyParent info) (emptyRowInParent info) = 0) /\
      r = (emptyFrame info,
           clearFrame (emptyFrame info) isLeaf
             (PMwrite (phys (emptyParent info) (emptyRowInParent info)) 0 m))
  | Fresh =>
      ~ has_reusable m parentFrame /\ maxFrame info + 1 < NUM_FRAMES /\
      r = (maxFrame info + 1, clearFrame (maxFrame info + 1) isLeaf m)
  | Evict =>
      ~ has_reusable m parentFrame /\ maxFrame info + 1 = NUM_FRAMES /\
      r = (victimFrame info,
           clearFrame (victimFrame info) isLeaf
             (PMwrite (phys (victimParent info) (victimRowInParent info)) 0
                (PMevict (victimFrame info) (victimPage info) m)))
  end.
Proof.
  intros Hcall info r.
  destruct Hcall as (va & level & Hfault & -> & -> & ->).
  pose proof Hfault as (Hinv & _).
  destruct (scan_root_maxFrame m (Z.shiftr va OFFSET_WIDTH) parentFrame Hinv)
    as (_ & Hle & Hall).
  pose proof (alloc_outcome m va level parentFrame Hfault) as Hout. cbn zeta in Hout.
  fold info r in Hout.
  split; [exact Hle|]. split; [exact Hall|].
  destruct (alloc_decision parentFrame (Z.shiftr va OFFSET_WIDTH) m).
  - split; [reflexivity|]. destruct Hout as [Hfound Er].
    destruct Hfound as (q & Hq & Hlq & Hd & HrX & He & Hre & HXM & HPM).
    fold (frame_at m q) in Hd.
    assert (Hfst : fst r = emptyFrame info) by (rewrite Er; reflexivity).
    rewrite Hfst. split; [exact Hre|]. split; [|exact Er].
    exists q. split; [exact Hq|]. split; [lia|]. split; [exact Hd|].
    split; [exact HrX|]. split; [exact He|].
    destruct Hre as (_ & HX0 & _).
    assert (HP : frame_ok (emptyParent info))
      by (apply (frame_at_table_ok m q); (assumption || lia)).
    pose proof (inv_range m Hinv q _ _ Hq ltac:(lia) Hd HrX) as Hc. rewrite He in Hc.
    assert (HPX : emptyParent info <> emptyFrame info)
      by (apply (parent_ne_child m q _ (emptyRowInParent info)); (assumption || lia)).
    rewrite Er. cbn [snd]. destruct (level + 1 =? TABLES_DEPTH).
    + cbn [clearFrame]. rewrite entry_PMwrite by assumption.
      rewrite decide_True by (split; reflexivity). reflexivity.
    + rewrite entry_clearFrame by (assumption || unfold frame_ok; lia).
      rewrite decide_False by exact HPX. rewrite entry_PMwrite by assumption.
      rewrite decide_True by (split; reflexivity). reflexivity.
  - destruct Hout as (Hnone & Hlt & Er). apply has_reusable_iff in Hnone.
    split; [intros H; contradiction|]. split; [exact Hnone|]. split; assumption.
  - destruct Hout as (Hnone & Hfull & _ & Er). apply has_reusable_iff in Hnone.
    split; [intros H; contradiction|]. split; [exact Hnone|]. split; assumption.
Qed.

(** C4. Victim selection: when a call of [allocateFrame] by the walker for
    the target page [targetPage] comes to evict, the victim is the first, in
    the depth-first order of the tree, of the mapped data pages whose
    distance [min (|a - targetPage|) (NUM_PAGES - |a - targetPage|)] to the
    target page is the largest; its frame is stored under its page number in
    the swap store, the entry that pointed to it is set to 0 and the frame
    is returned.  [mapped_leaves] lists the pages that are mapped. *)
Theorem victim_selection m parentFrame ParentRow targetPage isLeaf :
  alloc_call m parentFrame ParentRow targetPage isLeaf ->
  alloc_decision parentFrame targetPage m = Evict ->
  exists l1 v l2,
    mapped_leaves m = l1 ++ v :: l2 /\
    (forall x, x ∈ l1 ->
       ring_distance (leaf_page x) targetPage < ring_distance (leaf_page v) targetPage) /\
    (forall x, x ∈ l2 ->
       ring_distance (leaf_page x) targetPage <= ring_distance (leaf_page v) targetPage) /\
    allocateFrame parentFrame ParentRow targetPage isLeaf m =
      (leaf_frame v,
       clearFrame (leaf_frame v) isLeaf
         (PMwrite (phys (leaf_parent v) (leaf_row v)) 0
            (PMevict (leaf_frame v) (leaf_page v) m))) /\
    (forall a, 0 <= a < VIRTUAL_MEMORY_SIZE ->
       (is_Some (frame_at m (walk_path a)) <->
        exists x, x ∈ mapped_leaves m /\ leaf_page x = Z.shiftr a OFFSET_WIDTH)).
Proof.
  intros Hcall Hdec.
  destruct (alloc_call_fault _ _ _ _ _ Hcall) as (va & level & Hfault & -> & -> & ->).
  pose proof Hfault as (Hinv & Hva & _).
  pose proof (alloc_outcome m va level parentFrame Hfault) as Hout. cbn zeta in Hout.
  rewrite Hdec in Hout.
  destruct Hout as (_ & _ & (v & (l1 & l2 & El & H1 & H2) & _ & Ev) & Er).
  apply victim_of_eq in Ev as (_ & Ef & Ep & Epar & Erow).
  rewrite Ef, Ep, Epar, Erow in Er.
  assert (Hring : forall x, x ∈ mapped_leaves m ->
            cyclicDistance (leaf_page x) (Z.shiftr va OFFSET_WIDTH)
            = ring_distance (leaf_page x) (Z.shiftr va OFFSET_WIDTH)).
  { intros x Hx.
    destruct (mapped_leaf_facts m x Hinv Hx) as (_ & _ & _ & _ & _ & _ & _ & _ & Hb & _).
    apply cyclicDistance_ring; [exact Hb|]. rewrite shiftr_page.
    apply page_lt_NUM_PAGES. exact Hva. }
  assert (Hv : v ∈ mapped_leaves m).
  { rewrite El. apply elem_of_app. right. apply elem_of_cons. left. reflexivity. }
  exists l1, v, l2. split; [exact El|]. split; [|split; [|split; [exact Er|]]].
  - intros x Hx. rewrite <- !Hring; [apply H1; exact Hx | exact Hv |].
    rewrite El. apply elem_of_app. left. exact Hx.
  - intros x Hx. rewrite <- !Hring; [apply H2; exact Hx | exact Hv |].
    rewrite El. apply elem_of_app. right. apply elem_of_cons. right. exact Hx.
  - intros a Ha. apply mapped_leaves_pages; assumption.
Qed.

(** C5. Root invariance: in every call of [allocateFrame] by the walker, in
    the executions from the initialized state, the frame returned is not
    frame 0, whichever of the three ways is taken: the empty table that is
    detached and reused, the fresh frame and the victim that is evicted
    are frames from 1 to [NUM_FRAMES - 1]. *)
Theorem root_invariance m parentFrame ParentRow targetPage isLeaf :
  alloc_call m parentFrame ParentRow targetPage isLeaf ->
  let info := alloc_info parentFrame targetPage m in
  let r := allocateFrame parentFrame ParentRow targetPage isLeaf m in
  fst r <> 0 /\ 1 <= fst r < NUM_FRAMES /\
  match alloc_decision parentFrame targetPage m with
  | Reuse => fst r = emptyFrame info /\ emptyFrame info <> 0
  | Fresh => fst r = maxFrame info + 1 /\ maxFrame info + 1 <> 0
  | Evict => fst r = victimFrame info /\ victimFrame info <> 0
  end.
Proof.
  intros Hcall info r.
  destruct (alloc_call_fault _ _ _ _ _ Hcall) as (va & level & Hfault & -> & -> & ->).
  destruct (fault_resolved m va level parentFrame Hfault) as (_ & _ & HX & _).
  fold r in HX.
  pose proof (alloc_outcome m va level parentFrame Hfault) as Hout. cbn zeta in Hout.
  fold info r in Hout.
  split; [lia|]. split; [exact HX|].
  destruct (alloc_decision parentFrame (Z.shiftr va OFFSET_WIDTH) m).
  - destruct Hout as [_ Er]. rewrite Er in HX |- *. cbn [fst] in *. split; [reflexivity | lia].
  - destruct Hout as (_ & _ & Er). rewrite Er in HX |- *. cbn [fst] in *.
    split; [reflexivity | lia].
  - destruct Hout as (_ & _ & _ & Er). rewrite Er in HX |- *. cbn [fst] in *.
    split; [reflexivity | lia].
Qed.

(** C6. Uniqueness: in every state the simulator reaches from the
    initialized state, between two operations and between two levels of a
    walk, two entries of tables of the tree that hold the same non-zero
    frame index are the same entry of the same table. *)
Theorem entries_unique m p1 p2 T1 T2 r1 r2 :
  in_walk m ->
  path_ok p1 -> Z.of_nat (length p1) < TABLES_DEPTH -> frame_at m p1 = Some T1 ->
  path_ok p2 -> Z.of_nat (length p2) < TABLES_DEPTH -> frame_at m p2 = Some T2 ->
  row_ok r1 -> row_ok r2 ->
  entry m T1 r1 <> 0 -> entry m T1 r1 = entry m T2 r2 ->
  p1 = p2 /\ T1 = T2 /\ r1 = r2.
Proof.
  intros Hw Hp1 Hl1 H1 Hp2 Hl2 H2 Hr1 Hr2 Hne Heq.
  pose proof (in_walk_inv m Hw) as Hinv.
  assert (E : p1 ++ [r1] = p2 ++ [r2]).
  { apply (inv_inj m Hinv _ _ (u64 (entry m T1 r1))).
    - apply Forall_app. split; [exact Hp1 | constructor; [exact Hr1 | constructor]].
    - apply Forall_app. split; [exact Hp2 | constructor; [exact Hr2 | constructor]].
    - rewrite length_app. simpl. lia.
    - rewrite length_app. simpl. lia.
    - rewrite (frame_at_snoc _ _ _ _ H1). apply Z.eqb_neq in Hne. rewrite Hne. reflexivity.
    - rewrite (frame_at_snoc _ _ _ _ H2), <- Heq.
      apply Z.eqb_neq in Hne. rewrite Hne. reflexivity. }
  apply app_inj_tail in E as [-> ->]. split; [reflexivity|]. split; [congruence | reflexivity].
Qed.





(** C8. Clearing policy: in every call of [allocateFrame] by the walker,
    whichever way is taken, a frame requested as a table ([isLeaf = false])
    has its [PAGE_SIZE] words equal to 0 at return, and a frame requested
    as a leaf ([isLeaf = true]) has at return the words it had at the
    call. *)
Theorem clearing_policy m parentFrame ParentRow targetPage isLeaf :
  alloc_call m parentFrame ParentRow targetPage isLeaf ->
  let r := allocateFrame parentFrame ParentRow targetPage isLeaf m in
  (isLeaf = false ->
     forall i, 0 <= i < PAGE_SIZE -> PMread (phys (fst r) i) (snd r) = 0) /\
  (isLeaf = true ->
     forall i, 0 <= i < PAGE_SIZE ->
       PMread (phys (fst r) i) (snd r) = PMread (phys (fst r) i) m).
Proof.
  intros Hcall r.
  destruct (alloc_call_fault _ _ _ _ _ Hcall) as (va & level & Hfault & -> & -> & El).
  pose proof Hfault as (Hinv & _).
  destruct (fault_resolved m va level parentFrame Hfault) as (_ & _ & HX & _).
  rewrite <- El in HX. fold r in HX.
  assert (HXok : frame_ok (fst r)) by (unfold frame_ok; lia).
  pose proof (alloc_outcome m va level parentFrame Hfault) as Hout. cbn zeta in Hout.
  rewrite <- El in Hout. fold r in Hout.
  change (forall i, 0 <= i < PAGE_SIZE -> PMread (phys (fst r) i) (snd r) = 0)
    with (forall i, row_ok i -> entry (snd r) (fst r) i = 0).
  change (forall i, 0 <= i < PAGE_SIZE ->
            PMread (phys (fst r) i) (snd r) = PMread (phys (fst r) i) m)
    with (forall i, row_ok i -> entry (snd r) (fst r) i = entry m (fst r) i).
  split.
  - (* a table: the last thing the allocator does is to clear the frame *)
    intros -> i Hi.
    assert (Hclear : exists m1, snd r = clearFrame (fst r) false m1).
    { destruct (alloc_decision parentFrame (Z.shiftr va OFFSET_WIDTH) m).
      - destruct Hout as [_ Er]. rewrite Er. cbn. eauto.
      - destruct Hout as (_ & _ & Er). rewrite Er. cbn. eauto.
      - destruct Hout as (_ & _ & _ & Er). rewrite Er. cbn. eauto. }
    destruct Hclear as [m1 ->]. rewrite entry_clearFrame by assumption.
    rewrite decide_True by reflexivity. reflexivity.
  - (* a leaf: the only write goes to the table that pointed to the frame *)
    intros -> i Hi.
    destruct (alloc_decision parentFrame (Z.shiftr va OFFSET_WIDTH) m).
    + destruct Hout as [Hfound Er].
      destruct Hfound as (q & Hq & Hlq & Hd & HrX & He & (_ & HX0 & _) & _).
      fold (frame_at m q) in Hd.
      assert (HP : frame_ok (emptyParent (alloc_info parentFrame (Z.shiftr va OFFSET_WIDTH) m)))
        by (apply (frame_at_table_ok m q); (assumption || lia)).
      pose proof (parent_ne_child m q _ _ _ Hinv Hq HrX ltac:(lia) Hd He HX0) as HPX.
      rewrite Er in HXok |- *. cbn [fst snd clearFrame] in *.
      rewrite entry_PMwrite by assumption.
      rewrite decide_False; [reflexivity|]. intros [E _]. congruence.
    + destruct Hout as (_ & _ & Er). rewrite Er. reflexivity.
    + destruct Hout as (_ & _ & (v & (l1 & l2 & Elv & _) & _ & Ev) & Er).
      apply victim_of_eq in Ev as (_ & Ef & Ep & Epar & Erow).
      assert (Hv : v ∈ mapped_leaves m).
      { rewrite Elv. apply elem_of_app. right. apply elem_of_cons. left. reflexivity. }
      destruct (mapped_leaf_facts m v Hinv Hv) as (q & Hq & HrX & Hlq & Hd & He & HXr & _).
      assert (HP : frame_ok (leaf_parent v))
        by (apply (frame_at_table_ok m q); (assumption || lia)).
      pose proof (parent_ne_child m q _ _ _ Hinv Hq HrX ltac:(lia) Hd He ltac:(lia)) as HPX.
      rewrite Er, Ef, Epar, Erow in HXok |- *. cbn [fst snd clearFrame] in *.
      rewrite entry_PMwrite by assumption.
      rewrite decide_False; [reflexivity|]. intros [E _]. congruence.
Qed.

(** C10. For every call [allocateFrame parentFrame _ _ _], on the memory
    of a state the simulator reaches between two operations or between two
    levels of a walk, in which [parentFrame] is the table being populated
    (frame 0 or a table that an entry of the tree points to), as in every
    call the walker makes, the frame returned is not [parentFrame],
    whichever of the three ways is taken: the reuse path by its guard, the
    fresh-frame path because [maxFrame + 1] exceeds [parentFrame], the
    eviction path because the victim is a data frame. *)
Theorem alloc_not_parent m pF parentFrame ParentRow targetPage isLeaf :
  in_walk m ->
  path_ok pF -> Z.of_nat (length pF) < TABLES_DEPTH ->
  frame_at m pF = Some parentFrame ->
  fst (allocateFrame parentFrame ParentRow targetPage isLeaf m) <> parentFrame.
Proof.
  intros Hw HpF HlF HF. pose proof (in_walk_inv m Hw) as Hinv.
  assert (HFok : frame_ok parentFrame)
    by (apply (frame_at_table_ok m pF); (assumption || lia)).
  destruct (scan_root_maxFrame m targetPage parentFrame Hinv) as (Hmax & Hle & _).
  fold (alloc_info parentFrame targetPage m) in Hmax, Hle.
  unfold allocateFrame. fold (alloc_info parentFrame targetPage m).
  set (info := alloc_info parentFrame targetPage m) in *.
  destruct (Z.eqb_spec (emptyFrame info) parentFrame) as [He | He];
  destruct (Z.eqb_spec (emptyFrame info) UINT64_MAX) as [HM | HM]; cbn [negb andb fst];
    try exact He.
  all: rewrite (u64_small (maxFrame info + 1)) by (pose proof NUM_FRAMES_lt; lia).
  all: destruct (Z.ltb_spec (maxFrame info + 1) NUM_FRAMES) as [Hlt | Hge]; cbn [fst].
  all: try (pose proof (Hle pF parentFrame HpF ltac:(lia) HF); lia).
  all: pose proof (scan_root_victim_fold m targetPage parentFrame) as Hv; fold info in Hv.
  all: destruct (pick_fold targetPage (mapped_leaves m) (0, mkLeaf 0 UINT64_MAX UINT64_MAX 0))
         as [[E _] | (l1 & v & l2 & El & E & _)]; rewrite E in Hv.
  all: apply victim_of_eq in Hv as (_ & Ef & _); rewrite Ef; cbn [leaf_frame].
  all: try (pose proof NUM_FRAMES_lt; unfold frame_ok in HFok; unfold UINT64_MAX; lia).
  all: assert (Hin : v ∈ mapped_leaves m)
         by (rewrite El; apply elem_of_app; right; apply elem_of_cons; left; reflexivity).
  all: destruct (mapped_leaf_facts m v Hinv Hin) as (q & Hq & HrX & Hlq & _ & _ & _ & _ & _ & Hat).
  all: intros Eq; rewrite Eq in Hat.
  all: assert (E' : q ++ [leaf_row v] = pF);
         [apply (inv_inj m Hinv _ _ parentFrame); try assumption;
            [apply Forall_app; split; [exact Hq | constructor; [exact HrX | constructor]]
            | rewrite length_app; simpl; lia | lia]
         | apply (f_equal length) in E'; rewrite length_app in E'; simpl in E'; lia].
Qed.

(** * Further properties of the code *)

(** ** Address arithmetic *)

(** X1. [phys]: for a frame below [NUM_FRAMES] and a row below [PAGE_SIZE]
    the physical address is [frame * PAGE_SIZE + row] with no wrap-around,
    lies below [NUM_FRAMES * PAGE_SIZE], and gives the frame and the row
    back by division and remainder, so that two such addresses are equal
    only for the same frame and row. *)
Theorem phys_layout f1 r1 f2 r2 :
  frame_ok f1 -> row_ok r1 -> frame_ok f2 -> row_ok r2 ->
  phys f1 r1 = f1 * PAGE_SIZE + r1 /\
  0 <= phys f1 r1 < NUM_FRAMES * PAGE_SIZE /\
  phys f1 r1 / PAGE_SIZE = f1 /\ phys f1 r1 mod PAGE_SIZE = r1 /\
  (phys f1 r1 = phys f2 r2 <-> f1 = f2 /\ r1 = r2).
Proof.
  intros Hf1 Hr1 Hf2 Hr2. pose proof PAGE_SIZE_pos as HP.
  rewrite (phys_ok f1 r1 Hf1 Hr1). unfold frame_ok, row_ok in *.
  split; [reflexivity|]. split.
  { assert ((f1 + 1) * PAGE_SIZE <= NUM_FRAMES * PAGE_SIZE)
      by (apply Z.mul_le_mono_nonneg_r; lia).
    nia. }
  split; [|split].
  - rewrite Z.add_comm, Z.div_add by lia. rewrite Z.div_small by lia. lia.
  - rewrite Z.add_comm, Z.mod_add by lia. apply Z.mod_small. lia.
  - rewrite <- (phys_ok f1 r1 Hf1 Hr1). split.
    + apply phys_inj; assumption.
    + intros [-> ->]. reflexivity.
Qed.

(** X2. [offsetOf] and [indexAtLevel]: an address below
    [VIRTUAL_MEMORY_SIZE] splits into [TABLES_DEPTH] digits and an offset,
    each below [PAGE_SIZE]; the digits, most significant first, are those of
    the page number [va >> OFFSET_WIDTH], and page number and offset give
    the address back. *)
Theorem address_decomposition va :
  0 <= va < VIRTUAL_MEMORY_SIZE ->
  row_ok (offsetOf va) /\
  (forall level, 0 <= level < TABLES_DEPTH -> row_ok (indexAtLevel va level)) /\
  Z.of_nat (length (walk_path va)) = TABLES_DEPTH /\
  page_of_path (walk_path va) = Z.shiftr va OFFSET_WIDTH /\
  0 <= Z.shiftr va OFFSET_WIDTH < NUM_PAGES /\
  va = Z.shiftr va OFFSET_WIDTH * PAGE_SIZE + offsetOf va.
Proof.
  intros Hva. pose proof PAGE_SIZE_pos as HP.
  split; [apply offsetOf_ok|]. split; [intros level; apply indexAtLevel_ok|].
  split; [apply walk_path_full|].
  rewrite shiftr_page. split; [apply page_of_walk_path; exact Hva|].
  split; [apply page_lt_NUM_PAGES; exact Hva|].
  unfold offsetOf. rewrite land_PAGE_SIZE.
  pose proof (Z.div_mod va PAGE_SIZE ltac:(lia)). lia.
Qed.

(** X3. The way back: [TABLES_DEPTH] digits below [PAGE_SIZE] that spell a
    page number below [NUM_PAGES], together with an offset below
    [PAGE_SIZE], are the digits and the offset of exactly one address, which
    is below [VIRTUAL_MEMORY_SIZE]. *)
Theorem address_composition path r :
  path_ok path -> Z.of_nat (length path) = TABLES_DEPTH -> row_ok r ->
  page_of_path path < NUM_PAGES ->
  let va := page_of_path path * PAGE_SIZE + r in
  0 <= va < VIRTUAL_MEMORY_SIZE /\ walk_path va = path /\ offsetOf va = r /\
  (forall b, 0 <= b < VIRTUAL_MEMORY_SIZE ->
     walk_path b = path -> offsetOf b = r -> b = va).
Proof.
  intros Hp Hl Hr Hlt va. pose proof PAGE_SIZE_pos as HP.
  pose proof (page_of_path_bound path Hp) as [H0 _].
  destruct Hcfg as (_ & _ & _ & _ & HV & _). unfold row_ok in Hr.
  assert (Hva : 0 <= va < VIRTUAL_MEMORY_SIZE).
  { unfold va. rewrite HV.
    assert ((page_of_path path + 1) * PAGE_SIZE <= NUM_PAGES * PAGE_SIZE)
      by (apply Z.mul_le_mono_nonneg_r; lia).
    nia. }
  assert (Hdiv : va / PAGE_SIZE = page_of_path path).
  { unfold va. rewrite Z.add_comm, Z.div_add by lia. rewrite Z.div_small by lia. lia. }
  assert (Hoff : offsetOf va = r).
  { unfold offsetOf. rewrite land_PAGE_SIZE. unfold va.
    rewrite Z.add_comm, Z.mod_add by lia. apply Z.mod_small. lia. }
  assert (Hpath : walk_path va = path).
  { destruct (walk_path_full va) as [Hpv Hlv].
    apply page_of_path_inj; [exact Hpv | exact Hp | apply Nat2Z.inj; lia |].
    rewrite page_of_walk_path by exact Hva. exact Hdiv. }
  split; [exact Hva|]. split; [exact Hpath|]. split; [exact Hoff|].
  intros b Hb Hbp Hbo. apply address_split; try lia; congruence.
Qed.

(** ** Clearing a frame *)

Lemma PMread_clearFrame frame m addr :
  frame_ok frame ->
  PMread addr (clearFrame frame false m) =
    (if decide (frame * PAGE_SIZE <= addr < (frame + 1) * PAGE_SIZE)
     then 0 else PMread addr m).
Proof.
  intros Hf. unfold clearFrame.
  assert (Hin : addr ∈ (phys frame <$> seqZ 0 PAGE_SIZE)
                <-> frame * PAGE_SIZE <= addr < (frame + 1) * PAGE_SIZE).
  { rewrite list_elem_of_fmap. split.
    - intros (i & -> & Hi). apply elem_of_seqZ in Hi.
      rewrite phys_ok by (assumption || unfold row_ok; lia). lia.
    - intros Ha. exists (addr - frame * PAGE_SIZE). split.
      + rewrite phys_ok by (assumption || unfold row_ok; lia). lia.
      + apply elem_of_seqZ. lia. }
  case_decide as Hd.
  - apply clear_fold_hit, Hin, Hd.
  - apply clear_fold_other. rewrite Hin. exact Hd.
Qed.

(** X4. [clearFrame] with [isLeaf = false] sets the [PAGE_SIZE] words of
    the frame to 0 and leaves every other word of the memory and the swap
    store as they are; with [isLeaf = true] it does nothing. *)
Theorem clearFrame_effect frame m addr :
  frame_ok frame ->
  PMread addr (clearFrame frame false m) =
    (if decide (frame * PAGE_SIZE <= addr < (frame + 1) * PAGE_SIZE)
     then 0 else PMread addr m) /\
  swapFile (clearFrame frame false m) = swapFile m /\
  clearFrame frame true m = m.
Proof.
  intros Hf. split; [apply PMread_clearFrame; exact Hf|].
  split; [apply swapFile_clearFrame | reflexivity].
Qed.

(** ** The distance of pages *)

(** X5. [cyclicDistance] on page numbers below [NUM_PAGES] is the distance
    on the ring of [NUM_PAGES] pages, [min (|a - b|) (NUM_PAGES - |a - b|)]:
    it is 0 for equal pages only and satisfies the triangle inequality. *)
Theorem cyclicDistance_metric a b c :
  0 <= a < NUM_PAGES -> 0 <= b < NUM_PAGES -> 0 <= c < NUM_PAGES ->
  cyclicDistance a b = Z.min (Z.abs (a - b)) (NUM_PAGES - Z.abs (a - b)) /\
  (cyclicDistance a b = 0 <-> a = b) /\
  cyclicDistance a c <= cyclicDistance a b + cyclicDistance b c.
Proof.
  intros Ha Hb Hc.
  rewrite !cyclicDistance_ring by assumption. unfold ring_distance.
  split; [reflexivity|]. split; lia.
Qed.

(** ** The scan on any memory *)

(** X6. [scan] on any memory, well formed or not: the recursion ends after
    [TABLES_DEPTH - depth] nested calls, since a table at depth
    [TABLES_DEPTH - 1] is never descended from; a larger bound on the
    nesting never changes the result. *)
Theorem scan_depth_bounded targetPage parentFrame m frame depth prefix info
    (fuel : nat) :
  (1 <= fuel)%nat -> TABLES_DEPTH - depth <= Z.of_nat fuel ->
  scan fuel frame depth prefix targetPage info parentFrame m =
  scan (Z.to_nat (Z.max 1 (TABLES_DEPTH - depth))) frame depth prefix targetPage
       info parentFrame m.
Proof.
  intros H1 H2. apply scan_fuel_irrelevant; lia.
Qed.

Lemma info_le_refl i : info_le i i.
Proof. unfold info_le. split; [lia|]. split; [lia | reflexivity]. Qed.

Lemma info_le_trans i j k : info_le i j -> info_le j k -> info_le i k.
Proof.
  unfold info_le. intros (H1 & H2 & H3) (H4 & H5 & H6).
  split; [lia|]. split; [lia|]. intros Hi. specialize (H3 Hi).
  rewrite <- H3. apply H6. congruence.
Qed.

Lemma scan_row_info_le rec frame depth pagePrefix targetPage m acc row :
  (forall child prefix info, info_le info (rec child prefix info)) ->
  info_le (snd acc) (snd (scan_row rec frame depth pagePrefix targetPage m acc row)).
Proof.
  intros Hrec. unfold scan_row.
  destruct (PMread (phys frame row) m =? 0); [apply info_le_refl|].
  set (info1 := set_maxFrame _ (snd acc)).
  assert (H1 : info_le (snd acc) info1).
  { unfold info_le, info1. cbn. split; [lia|]. split; [lia | reflexivity]. }
  destruct (depth + 1 <? TABLES_DEPTH).
  - cbn [snd]. eapply info_le_trans; [exact H1 | apply Hrec].
  - destruct (Z.ltb_spec (victimDistance info1) (cyclicDistance
        (Z.lor (u64 (Z.shiftl pagePrefix OFFSET_WIDTH)) row) targetPage)); cbn [snd].
    + eapply info_le_trans; [exact H1|]. unfold info_le. cbn [maxFrame victimDistance
        emptyFrame set_victim]. split; [lia|]. split; [lia | reflexivity].
    + exact H1.
Qed.

Lemma scan_finish_info_le frame parentFrame m az info :
  info_le info (scan_finish frame parentFrame m az info).
Proof.
  unfold info_le.
  rewrite maxFrame_scan_finish.
  pose proof (victim_of_scan_finish frame parentFrame m az info) as Hv.
  apply (f_equal fst) in Hv. cbn in Hv. rewrite Hv.
  split; [lia|]. split; [lia|]. intros He. apply Z.eqb_neq in He.
  unfold scan_finish. destruct (az && (frame =? parentFrame)); [reflexivity|].
  rewrite He, andb_false_r. rewrite He. cbn [negb andb].
  destruct (emptyParent info =? UINT64_MAX); [|reflexivity].
  destruct (find_row frame (emptyFrame info) m); reflexivity.
Qed.

Lemma scan_info_le targetPage parentFrame m (fuel : nat) :
  forall frame depth prefix info,
    info_le info (scan fuel frame depth prefix targetPage info parentFrame m).
Proof.
  induction fuel as [|fuel IH]; intros frame depth prefix info; [apply info_le_refl|].
  cbn [scan]. eapply info_le_trans; [|apply scan_finish_info_le].
  assert (E : forall rows acc,
            info_le (snd acc)
              (snd (fold_left
                      (scan_row (fun child newPrefix info' =>
                         scan fuel child (depth + 1) newPrefix targetPage info' parentFrame m)
                       frame depth prefix targetPage m) rows acc))).
  { intros rows. induction rows as [|row rows IHrows]; intros acc; [apply info_le_refl|].
    cbn [fold_left]. eapply info_le_trans; [|apply IHrows].
    apply scan_row_info_le. intros child prefix' info'. apply IH. }
  apply (E (seqZ 0 PAGE_SIZE) (true, info)).
Qed.

(** X7. [scan] on any memory and from any starting [info]: [maxFrame] and
    [victimDistance] never decrease, an empty table once recorded in
    [emptyFrame] is never replaced by another (the first one found wins),
    and once its parent is recorded too the three fields of the reuse
    candidate stay as they are. *)
Theorem scan_accumulates targetPage parentFrame m (fuel : nat) frame depth prefix info :
  let info' := scan fuel frame depth prefix targetPage info parentFrame m in
  maxFrame info <= maxFrame info' /\
  victimDistance info <= victimDistance info' /\
  (emptyFrame info <> UINT64_MAX -> emptyFrame info' = emptyFrame info) /\
  (emptyFrame info <> UINT64_MAX -> emptyParent info <> UINT64_MAX ->
     emptyParent info' = emptyParent info /\
     emptyRowInParent info' = emptyRowInParent info).
Proof.
  intros info'.
  destruct (scan_info_le targetPage parentFrame m fuel frame depth prefix info)
    as (H1 & H2 & H3).
  split; [exact H1|]. split; [exact H2|]. split; [exact H3|].
  intros He Hp.
  pose proof (scan_done targetPage parentFrame m fuel frame depth prefix info He Hp) as E.
  apply empty_of_eq in E as (_ & E2 & E3). split; assumption.
Qed.

(** ** The walker on any memory *)

Lemma walk_loop_lookup va m (n : nat) :
  forall level frame,
    walk_loop n level va false frame m =
    (descend m frame (indexAtLevel va <$> seqZ level (Z.of_nat n)), m).
Proof.
  induction n as [|n IH]; intros level frame; [reflexivity|].
  rewrite seqZ_cons by lia.
  replace (Z.pred (Z.of_nat (S n))) with (Z.of_nat n) by lia.
  change (Z.succ level) with (level + 1).
  rewrite fmap_cons. cbn [walk_loop descend negb]. unfold entry.
  destruct (PMread (phys frame (indexAtLevel va level)) m =? 0); [reflexivity|].
  apply IH.
Qed.

Lemma walk_loop_hit va m (n : nat) :
  forall level frame f m',
    walk_loop n level va false frame m = (Some f, m') ->
    walk_loop n level va true frame m = (Some f, m).
Proof.
  induction n as [|n IH]; intros level frame f m' H.
  - cbn in H |- *. congruence.
  - cbn [walk_loop negb] in H |- *.
    destruct (PMread (phys frame (indexAtLevel va level)) m =? 0); [discriminate|].
    eapply IH. exact H.
Qed.

Lemma walk_false m va : walk va false m = (frame_at m (walk_path va), m).
Proof.
  unfold walk, frame_at, walk_path. rewrite walk_loop_lookup.
  unfold seqZ. rewrite Nat2Z.id. reflexivity.
Qed.

(** X8. [walk] with [create = false], on any memory: it never changes the
    memory, and it finds the frame at the end of the non-zero entries along
    the digits of the address; it reports a miss exactly when one of these
    entries is 0. *)
Theorem walk_lookup m va :
  snd (walk va false m) = m /\
  fst (walk va false m) = frame_at m (walk_path va) /\
  (fst (walk va false m) = None <->
   exists level g,
     0 <= level < TABLES_DEPTH /\
     frame_at m (take (Z.to_nat level) (walk_path va)) = Some g /\
     PMread (phys g (indexAtLevel va level)) m = 0).
Proof.
  rewrite walk_false. cbn [fst snd]. split; [reflexivity|]. split; [reflexivity|].
  split.
  - intros Hnone.
    assert (Hex : forall (k : nat), (k <= length (walk_path va))%nat ->
              frame_at m (take k (walk_path va)) = None ->
              exists level g, 0 <= level < Z.of_nat k /\
                frame_at m (take (Z.to_nat level) (walk_path va)) = Some g /\
                PMread (phys g (indexAtLevel va level)) m = 0).
    { induction k as [|k IHk]; intros Hk Hn.
      - rewrite take_0, frame_at_nil in Hn. discriminate.
      - destruct (frame_at m (take k (walk_path va))) as [g|] eqn:Hg.
        + exists (Z.of_nat k), g. rewrite Nat2Z.id. split; [lia|]. split; [exact Hg|].
          assert (Hl : 0 <= Z.of_nat k < TABLES_DEPTH)
            by (rewrite walk_path_length in Hk; lia).
          replace (S k) with (Z.to_nat (Z.of_nat k + 1)) in Hn by lia.
          rewrite take_walk_path_S in Hn by exact Hl. rewrite Nat2Z.id in Hn.
          rewrite (frame_at_snoc _ _ _ _ Hg) in Hn. unfold entry in Hn.
          destruct (Z.eqb_spec (PMread (phys g (indexAtLevel va (Z.of_nat k))) m) 0);
            [assumption | discriminate].
        + destruct (IHk ltac:(lia) eq_refl) as (level & g & Hl & Hg' & Hz).
          exists level, g. split; [lia|]. split; assumption. }
    destruct (Hex (length (walk_path va)) ltac:(lia)) as (level & g & Hl & Hg & Hz).
    { rewrite take_ge by lia. exact Hnone. }
    exists level, g. rewrite walk_path_length in Hl. split; [lia|]. split; assumption.
  - intros (level & g & Hl & Hg & Hz).
    rewrite <- (take_drop (Z.to_nat (level + 1)) (walk_path va)).
    rewrite take_walk_path_S by exact Hl.
    unfold frame_at. rewrite descend_app.
    fold (frame_at m (take (Z.to_nat level) (walk_path va) ++ [indexAtLevel va level])).
    rewrite (frame_at_snoc _ _ _ _ Hg). unfold entry. rewrite Hz. reflexivity.
Qed.

(** X9. An access to a resident page, on any memory: when the entries along
    the digits of [a] are all non-zero, [walk] with [create = true] returns
    the frame at their end and leaves the memory as it is (no allocation,
    no eviction), [VMread] returns the word at the offset in that frame and
    changes nothing, and [VMwrite] changes that one word only. *)
Theorem resident_access m a f value v :
  a < VIRTUAL_MEMORY_SIZE -> frame_at m (walk_path a) = Some f ->
  walk a true m = (Some f, m) /\
  VMread a value m = Some (1, PMread (phys f (offsetOf a)) m, m) /\
  VMwrite a v m = Some (1, PMwrite (phys f (offsetOf a)) v m).
Proof.
  intros Ha Hf.
  assert (Hw : walk a true m = (Some f, m)).
  { unfold walk. apply (walk_loop_hit a m _ 0 0 f m).
    fold (walk a false m). rewrite walk_false, Hf. reflexivity. }
  split; [exact Hw|]. unfold VMread, VMwrite.
  destruct (Z.leb_spec VIRTUAL_MEMORY_SIZE a); [lia|]. rewrite Hw. split; reflexivity.
Qed.

(** ** The walker and the public operations in the executions *)

(** X10. [walk] with [create = true] from a state the simulator reaches,
    for an address below [VIRTUAL_MEMORY_SIZE]: the frame returned is a
    frame from 1 to [NUM_FRAMES - 1], so that the word accessed lies in the
    physical memory and outside the root table; after the walk the page is
    resident in that frame, and a second walk finds the same frame and
    changes nothing. *)
Theorem walk_makes_resident m va :
  reachable m -> 0 <= va < VIRTUAL_MEMORY_SIZE ->
  exists f m',
    walk va true m = (Some f, m') /\
    1 <= f < NUM_FRAMES /\
    PAGE_SIZE <= phys f (offsetOf va) < NUM_FRAMES * PAGE_SIZE /\
    walk va false m' = (Some f, m') /\
    walk va true m' = (Some f, m').
Proof.
  intros Hreach Hva. pose proof (reachable_inv m Hreach) as Hinv.
  destruct (walk_spec m va Hinv Hva) as (f & m' & Ew & _ & Hat & Hf & _).
  exists f, m'. split; [exact Ew|]. split; [exact Hf|].
  assert (Hlook : walk va false m' = (Some f, m')) by (rewrite walk_false, Hat; reflexivity).
  split; [|split; [exact Hlook|]].
  - pose proof (offsetOf_ok va) as Ho. pose proof PAGE_SIZE_pos as HP.
    rewrite phys_ok by (assumption || unfold frame_ok; lia). unfold row_ok in Ho.
    assert ((f + 1) * PAGE_SIZE <= NUM_FRAMES * PAGE_SIZE)
      by (apply Z.mul_le_mono_nonneg_r; lia).
    nia.
  - unfold walk. apply (walk_loop_hit va m' _ 0 0 f m'). exact Hlook.
Qed.

(** X11. [VMinitialize], on any memory: the [PAGE_SIZE] words of frame 0
    are 0 afterwards, the other words and the swap store are as before, and
    no page is resident: a walk with [create = false] of any address
    misses. *)
Theorem VMinitialize_empty m va addr :
  let m0 := VMinitialize m in
  (forall row, row_ok row -> PMread (phys 0 row) m0 = 0) /\
  (~ 0 <= addr < PAGE_SIZE -> PMread addr m0 = PMread addr m) /\
  swapFile m0 = swapFile m /\
  walk va false m0 = (None, m0).
Proof.
  intros m0. pose proof TABLES_DEPTH_pos as HD. pose proof NUM_FRAMES_bound as [HNF _].
  assert (H0 : frame_ok 0) by (unfold frame_ok; lia).
  assert (Hroot : forall row, row_ok row -> PMread (phys 0 row) m0 = 0).
  { intros row Hr. unfold m0, VMinitialize. fold (entry (clearFrame 0 false m) 0 row).
    rewrite entry_clearFrame by assumption. rewrite decide_True by reflexivity. reflexivity. }
  split; [exact Hroot|]. split; [|split].
  - intros Ha. unfold m0, VMinitialize. rewrite PMread_clearFrame by exact H0.
    rewrite decide_False by lia. reflexivity.
  - apply swapFile_clearFrame.
  - rewrite walk_false. f_equal.
    rewrite <- (take_drop (Z.to_nat (0 + 1)) (walk_path va)).
    rewrite take_walk_path_S by lia. cbn [Z.to_nat take app].
    unfold frame_at. rewrite descend_app. change (Z.to_nat 0) with O.
    rewrite take_0. cbn [app descend]. unfold entry.
    rewrite Hroot by (apply indexAtLevel_ok; lia). reflexivity.
Qed.

(** X12. A word written with [VMwrite] is the word [VMread] returns for the
    same address after any operations that do not write to that address:
    writes to other offsets of the same page, reads of the address itself,
    accesses to other pages and out-of-range requests included. *)
Theorem write_survives m a v ops value :
  reachable m -> 0 <= a < VIRTUAL_MEMORY_SIZE ->
  Forall (fun o => 0 <= op_address o <= UINT64_MAX /\ keeps_address a o) ops ->
  exists m1 m2 m3,
    VMwrite a v m = Some (1, m1) /\ run_ops ops m1 = Some m2 /\
    VMread a value m2 = Some (1, v, m3).
Proof.
  intros Hreach Ha Hops. pose proof (reachable_inv m Hreach) as Hinv.
  destruct (VMwrite_spec m a v Hinv Ha) as (m1 & Ew & Hinv1 & Hv1 & _).
  destruct (run_ops_keep a v ops Ha Hops m1 Hinv1 Hv1) as (m2 & Er & Hinv2 & Hv2).
  destruct (VMread_spec m2 a value Hinv2 Ha) as (out & m3 & Erd & _ & Hout & Hkeep).
  exists m1, m2, m3. split; [exact Ew|]. split; [exact Er|].
  rewrite Erd. specialize (Hkeep a v Ha Hv2). rewrite Hout in Hkeep.
  injection Hkeep as ->. reflexivity.
Qed.

(** X13. Reads repeat: the word [VMread] returns for an address, written
    before or not, is the word it returns again after any operations that
    do not write to that address. *)
Theorem read_stable m a ops value value' :
  reachable m -> 0 <= a < VIRTUAL_MEMORY_SIZE ->
  Forall (fun o => 0 <= op_address o <= UINT64_MAX /\ keeps_address a o) ops ->
  exists out m1 m2 m3,
    VMread a value m = Some (1, out, m1) /\ run_ops ops m1 = Some m2 /\
    VMread a value' m2 = Some (1, out, m3).
Proof.
  intros Hreach Ha Hops. pose proof (reachable_inv m Hreach) as Hinv.
  destruct (VMread_spec m a value Hinv Ha) as (out & m1 & Er1 & Hinv1 & Hv1 & _).
  destruct (run_ops_keep a out ops Ha Hops m1 Hinv1 Hv1) as (m2 & Er & Hinv2 & Hv2).
  destruct (VMread_spec m2 a value' Hinv2 Ha) as (out' & m3 & Erd & _ & Hout & Hkeep).
  exists out, m1, m2, m3. split; [exact Er1|]. split; [exact Er|].
  rewrite Erd. specialize (Hkeep a out Ha Hv2). rewrite Hout in Hkeep.
  injection Hkeep as ->. reflexivity.
Qed.

(** X14. No aliasing: in a state the simulator reaches, the words of two
    resident addresses are the same physical word only when the addresses
    are equal, and the word of a resident address is never a word of a
    table of the tree. *)
Theorem no_aliasing m a b fa fb :
  reachable m -> 0 <= a < VIRTUAL_MEMORY_SIZE -> 0 <= b < VIRTUAL_MEMORY_SIZE ->
  frame_at m (walk_path a) = Some fa -> frame_at m (walk_path b) = Some fb ->
  (phys fa (offsetOf a) = phys fb (offsetOf b) -> a = b) /\
  (forall p g r, path_ok p -> Z.of_nat (length p) < TABLES_DEPTH ->
     frame_at m p = Some g -> row_ok r -> phys g r <> phys fa (offsetOf a)).
Proof.
  intros Hreach Ha Hb Hfa Hfb. pose proof (reachable_inv m Hreach) as Hinv.
  destruct (walk_path_full a) as [Hpa Hla]. destruct (walk_path_full b) as [Hpb Hlb].
  assert (Hoka : frame_ok fa)
    by (apply (frame_at_table_ok m (walk_path a)); (assumption || lia)).
  assert (Hokb : frame_ok fb)
    by (apply (frame_at_table_ok m (walk_path b)); (assumption || lia)).
  split.
  - intros E. apply phys_inj in E as [Ef Eo]; try (assumption || apply offsetOf_ok).
    subst fb. apply address_split; try lia.
    apply (inv_inj m Hinv _ _ fa); (assumption || lia).
  - intros p g r Hp Hl Hg Hr E.
    assert (Hokg : frame_ok g)
      by (apply (frame_at_table_ok m p); (assumption || lia)).
    apply phys_inj in E as [Ef _]; try (assumption || apply offsetOf_ok).
    subst g. assert (Epath : p = walk_path a)
      by (apply (inv_inj m Hinv _ _ fa); (assumption || lia)).
    subst p. lia.
Qed.

(** X15. No frame is lost: in a state the simulator reaches, every frame of
    the tree other than the root is a frame from 1 to [NUM_FRAMES - 1],
    sits at that one place of the tree, and every frame from 1 up to it
    is in the tree as well. *)
Theorem no_frame_leak m p g :
  reachable m -> path_ok p -> Z.of_nat (length p) <= TABLES_DEPTH ->
  frame_at m p = Some g -> p <> [] ->
  1 <= g < NUM_FRAMES /\
  (forall q, path_ok q -> Z.of_nat (length q) <= TABLES_DEPTH ->
     frame_at m q = Some g -> q = p) /\
  (forall h, 1 <= h <= g ->
     exists q, path_ok q /\ Z.of_nat (length q) <= TABLES_DEPTH /\
               frame_at m q = Some h).
Proof.
  intros Hreach Hp Hl Hg Hne. pose proof (reachable_inv m Hreach) as Hinv.
  pose proof (frame_at_table_ok m p g Hinv Hp Hl Hg) as Hok.
  pose proof (frame_at_nonroot m p g Hinv Hp Hl Hg Hne) as Hnz.
  unfold frame_ok in Hok. split; [lia|]. split.
  - intros q Hq Hlq Hgq. apply (inv_inj m Hinv q p g); assumption.
  - intros h Hh. apply (inv_contig m Hinv p g h); assumption.
Qed.

(** ** The footprint of the allocator *)

Lemma PMread_clearFrame_out frame isLeaf m addr :
  frame_ok frame -> ~ frame * PAGE_SIZE <= addr < (frame + 1) * PAGE_SIZE ->
  PMread addr (clearFrame frame isLeaf m) = PMread addr m.
Proof.
  intros Hf Hout. destruct isLeaf; [reflexivity|].
  rewrite PMread_clearFrame by exact Hf. rewrite decide_False by exact Hout. reflexivity.
Qed.

Lemma PMread_clearFrame_zero frame isLeaf m addr :
  PMread addr (clearFrame frame isLeaf m) = PMread addr m \/
  PMread addr (clearFrame frame isLeaf m) = 0.
Proof.
  destruct isLeaf; [left; reflexivity|]. unfold clearFrame.
  destruct (decide (addr ∈ (phys frame <$> seqZ 0 PAGE_SIZE))) as [Hin | Hout].
  - right. apply clear_fold_hit. exact Hin.
  - left. apply clear_fold_other. exact Hout.
Qed.

Lemma table_entry_unique m p1 p2 T1 T2 r1 r2 :
  tree_inv m ->
  path_ok p1 -> Z.of_nat (length p1) < TABLES_DEPTH -> frame_at m p1 = Some T1 ->
  path_ok p2 -> Z.of_nat (length p2) < TABLES_DEPTH -> frame_at m p2 = Some T2 ->
  row_ok r1 -> row_ok r2 ->
  entry m T1 r1 <> 0 -> entry m T1 r1 = entry m T2 r2 ->
  p1 = p2 /\ T1 = T2 /\ r1 = r2.
Proof.
  intros Hinv Hp1 Hl1 H1 Hp2 Hl2 H2 Hr1 Hr2 Hne Heq.
  assert (E : p1 ++ [r1] = p2 ++ [r2]).
  { apply (inv_inj m Hinv _ _ (u64 (entry m T1 r1))).
    - apply Forall_app. split; [exact Hp1 | constructor; [exact Hr1 | constructor]].
    - apply Forall_app. split; [exact Hp2 | constructor; [exact Hr2 | constructor]].
    - rewrite length_app. simpl. lia.
    - rewrite length_app. simpl. lia.
    - rewrite (frame_at_snoc _ _ _ _ H1). apply Z.eqb_neq in Hne. rewrite Hne. reflexivity.
    - rewrite (frame_at_snoc _ _ _ _ H2), <- Heq.
      apply Z.eqb_neq in Hne. rewrite Hne. reflexivity. }
  apply app_inj_tail in E as [-> ->]. split; [reflexivity|]. split; [congruence | reflexivity].
Qed.

(** X16. The footprint of [allocateFrame] in a call by the walker: every
    word of the memory is afterwards what it was or 0; the words that may
    have changed are those of the frame returned and the entry of a table
    of the tree that pointed to that frame, of which there is one at most;
    the swap store changes on the eviction path only, where the words of
    the victim frame are stored under the victim's page number. *)
Theorem allocateFrame_footprint m parentFrame ParentRow targetPage isLeaf addr :
  alloc_call m parentFrame ParentRow targetPage isLeaf ->
  let info := alloc_info parentFrame targetPage m in
  let r := allocateFrame parentFrame ParentRow targetPage isLeaf m in
  (PMread addr (snd r) = PMread addr m \/ PMread addr (snd r) = 0) /\
  (~ fst r * PAGE_SIZE <= addr < (fst r + 1) * PAGE_SIZE ->
   (forall p P rw, path_ok p -> Z.of_nat (length p) < TABLES_DEPTH ->
      frame_at m p = Some P -> row_ok rw -> entry m P rw = fst r ->
      addr <> phys P rw) ->
   PMread addr (snd r) = PMread addr m) /\
  (forall p1 P1 rw1 p2 P2 rw2,
     path_ok p1 -> Z.of_nat (length p1) < TABLES_DEPTH -> frame_at m p1 = Some P1 ->
     path_ok p2 -> Z.of_nat (length p2) < TABLES_DEPTH -> frame_at m p2 = Some P2 ->
     row_ok rw1 -> row_ok rw2 ->
     entry m P1 rw1 = fst r -> entry m P2 rw2 = fst r -> P1 = P2 /\ rw1 = rw2) /\
  swapFile (snd r) =
    match alloc_decision parentFrame targetPage m with
    | Evict => <[victimPage info := frame_words (victimFrame info) m]> (swapFile m)
    | _ => swapFile m
    end.
Proof.
  intros Hcall info r.
  destruct (alloc_call_fault _ _ _ _ _ Hcall) as (va & level & Hfault & -> & -> & ->).
  pose proof Hfault as (Hinv & _).
  destruct (fault_resolved m va level parentFrame Hfault) as (_ & _ & HX & _).
  fold r in HX.
  assert (HXok : frame_ok (fst r)) by (unfold frame_ok; lia).
  assert (Huniq : forall p1 P1 rw1 p2 P2 rw2,
            path_ok p1 -> Z.of_nat (length p1) < TABLES_DEPTH -> frame_at m p1 = Some P1 ->
            path_ok p2 -> Z.of_nat (length p2) < TABLES_DEPTH -> frame_at m p2 = Some P2 ->
            row_ok rw1 -> row_ok rw2 ->
            entry m P1 rw1 = fst r -> entry m P2 rw2 = fst r -> P1 = P2 /\ rw1 = rw2).
  { intros p1 P1 rw1 p2 P2 rw2 Hp1 Hl1 H1 Hp2 Hl2 H2 Hr1 Hr2 E1 E2.
    destruct (table_entry_unique m p1 p2 P1 P2 rw1 rw2 Hinv Hp1 Hl1 H1 Hp2 Hl2 H2 Hr1 Hr2)
      as (_ & EP & Er); [lia | congruence | split; assumption]. }
  pose proof (alloc_outcome m va level parentFrame Hfault) as Hout. cbn zeta in Hout.
  fold info r in Hout.
  destruct (alloc_decision parentFrame (Z.shiftr va OFFSET_WIDTH) m).
  - destruct Hout as [Hfound Er].
    destruct Hfound as (q & Hq & Hlq & Hd & HrX & He & _).
    fold (frame_at m q) in Hd.
    rewrite Er in HXok, Huniq |- *. cbn [fst snd] in *.
    split; [|split; [|split; [exact Huniq|]]].
    + destruct (PMread_clearFrame_zero (emptyFrame info) (level + 1 =? TABLES_DEPTH)
                  (PMwrite (phys (emptyParent info) (emptyRowInParent info)) 0 m) addr)
        as [E | E]; [|right; exact E].
      rewrite E, PMread_PMwrite. case_decide; [right | left]; reflexivity.
    + intros Hout1 Hout2. rewrite PMread_clearFrame_out by assumption.
      rewrite PMread_PMwrite. rewrite decide_False; [reflexivity|].
      apply (Hout2 q _ _ Hq ltac:(lia) Hd HrX He).
    + rewrite swapFile_clearFrame. reflexivity.
  - destruct Hout as (_ & _ & Er). rewrite Er in HXok, Huniq |- *. cbn [fst snd] in *.
    split; [apply PMread_clearFrame_zero|]. split; [|split; [exact Huniq|]].
    + intros Hout1 _. apply PMread_clearFrame_out; assumption.
    + apply swapFile_clearFrame.
  - destruct Hout as (_ & _ & (v & (l1 & l2 & Elv & _) & _ & Ev) & Er).
    apply victim_of_eq in Ev as (_ & Ef & Ep & Epar & Erow).
    assert (Hv : v ∈ mapped_leaves m).
    { rewrite Elv. apply elem_of_app. right. apply elem_of_cons. left. reflexivity. }
    destruct (mapped_leaf_facts m v Hinv Hv) as (q & Hq & HrX & Hlq & Hd & He & _).
    rewrite Er in HXok, Huniq |- *. cbn [fst snd] in *.
    split; [|split; [|split; [exact Huniq|]]].
    + destruct (PMread_clearFrame_zero (victimFrame info) (level + 1 =? TABLES_DEPTH)
                  (PMwrite (phys (victimParent info) (victimRowInParent info)) 0
                     (PMevict (victimFrame info) (victimPage info) m)) addr)
        as [E | E]; [|right; exact E].
      rewrite E, PMread_PMwrite. case_decide; [right | left]; reflexivity.
    + intros Hout1 Hout2. rewrite PMread_clearFrame_out by assumption.
      rewrite PMread_PMwrite. rewrite decide_False; [reflexivity|].
      rewrite Epar, Erow. apply (Hout2 q _ _ Hq ltac:(lia) Hd HrX).
      rewrite He, Ef. reflexivity.
    + rewrite swapFile_clearFrame. reflexivity.
Qed.

(** ** How many pages are resident *)

Lemma NoDup_flat_map_fmap {A B C} (f : A -> list B) (g : B -> C) (l : list A) :
  NoDup l ->
  (forall x, x ∈ l -> NoDup (g <$> f x)) ->
  (forall x1 x2 y1 y2, x1 ∈ l -> x2 ∈ l -> y1 ∈ f x1 -> y2 ∈ f x2 ->
     g y1 = g y2 -> x1 = x2) ->
  NoDup (g <$> flat_map f l).
Proof.
  induction 1 as [|x l Hx Hl IH]; intros Hnd Hinj; [constructor|].
  cbn [flat_map]. rewrite fmap_app. apply NoDup_app. split; [|split].
  - apply Hnd. apply elem_of_cons. left. reflexivity.
  - intros c Hc1 Hc2. apply list_elem_of_fmap in Hc1 as (y1 & -> & Hy1).
    apply list_elem_of_fmap in Hc2 as (y2 & E & Hy2).
    apply list_elem_of_In, in_flat_map in Hy2 as (x2 & Hx2 & Hy2).
    apply list_elem_of_In in Hx2, Hy2.
    assert (x = x2).
    { apply (Hinj x x2 y1 y2); try assumption.
      - apply elem_of_cons. left. reflexivity.
      - apply elem_of_cons. right. exact Hx2. }
    subst x2. contradiction.
  - apply IH.
    + intros x' Hx'. apply Hnd. apply elem_of_cons. right. exact Hx'.
    + intros x1 x2 y1 y2 H1 H2. apply Hinj; apply elem_of_cons; right; assumption.
Qed.

Lemma dfs_leaves_page_range m n x frame prefix :
  x ∈ dfs_leaves n m frame prefix ->
  prefix * PAGE_SIZE ^ Z.of_nat n <= leaf_page x
  < (prefix + 1) * PAGE_SIZE ^ Z.of_nat n.
Proof.
  intros Hx. apply elem_of_dfs_leaves in Hx as (q & Hq & Hr & Hn & _ & _ & _ & Hp).
  assert (Hok : path_ok (q ++ [leaf_row x])).
  { apply Forall_app. split; [exact Hq | constructor; [exact Hr | constructor]]. }
  pose proof (page_of_path_bound _ Hok) as Hb.
  rewrite length_app in Hb. cbn [length] in Hb.
  replace (length q + 1)%nat with n in Hb by lia. lia.
Qed.

Lemma dfs_row_page_range m n frame prefix row y :
  y ∈ (let e := entry m frame row in
       if e =? 0 then []
       else match n with
            | O => [mkLeaf (prefix * PAGE_SIZE + row) (u64 e) frame row]
            | S _ => dfs_leaves n m (u64 e) (prefix * PAGE_SIZE + row)
            end) ->
  (prefix * PAGE_SIZE + row) * PAGE_SIZE ^ Z.of_nat n <= leaf_page y
  < (prefix * PAGE_SIZE + row + 1) * PAGE_SIZE ^ Z.of_nat n.
Proof.
  cbn zeta. destruct (entry m frame row =? 0); [intros H; inversion H|].
  destruct n as [|n].
  - intros H. apply list_elem_of_singleton in H. subst y. cbn. lia.
  - apply dfs_leaves_page_range.
Qed.

Lemma dfs_leaves_pages_NoDup m (n : nat) :
  forall frame prefix, NoDup (leaf_page <$> dfs_leaves n m frame prefix).
Proof.
  induction n as [|n IH]; intros frame prefix; [constructor|].
  cbn [dfs_leaves]. apply NoDup_flat_map_fmap.
  - apply NoDup_seqZ.
  - intros row _. cbn zeta. destruct (entry m frame row =? 0); [constructor|].
    destruct n; [apply NoDup_singleton | apply IH].
  - intros r1 r2 y1 y2 _ _ Hy1 Hy2 E.
    apply (dfs_row_page_range m n frame prefix r1 y1) in Hy1.
    apply (dfs_row_page_range m n frame prefix r2 y2) in Hy2.
    rewrite E in Hy1. pose proof PAGE_SIZE_pos as HP.
    assert (HK : 0 < PAGE_SIZE ^ Z.of_nat n) by (apply Z.pow_pos_nonneg; lia).
    destruct (Z.lt_trichotomy r1 r2) as [Hlt | [Heq | Hgt]]; [|exact Heq|].
    + assert ((prefix * PAGE_SIZE + r1 + 1) * PAGE_SIZE ^ Z.of_nat n
              <= (prefix * PAGE_SIZE + r2) * PAGE_SIZE ^ Z.of_nat n)
        by (apply Z.mul_le_mono_nonneg_r; lia).
      lia.
    + assert ((prefix * PAGE_SIZE + r2 + 1) * PAGE_SIZE ^ Z.of_nat n
              <= (prefix * PAGE_SIZE + r1) * PAGE_SIZE ^ Z.of_nat n)
        by (apply Z.mul_le_mono_nonneg_r; lia).
      lia.
Qed.

Lemma mapped_leaf_frame_inj m x y :
  tree_inv m -> x ∈ mapped_leaves m -> y ∈ mapped_leaves m ->
  leaf_frame x = leaf_frame y -> x = y.
Proof.
  intros Hinv Hx Hy E.
  destruct (mapped_leaf_facts m x Hinv Hx)
    as (qx & Hqx & Hrx & Hlx & Hdx & _ & _ & Hpx & _ & Hax).
  destruct (mapped_leaf_facts m y Hinv Hy)
    as (qy & Hqy & Hry & Hly & Hdy & _ & _ & Hpy & _ & Hay).
  rewrite <- E in Hay.
  assert (Ep : qx ++ [leaf_row x] = qy ++ [leaf_row y]).
  { apply (inv_inj m Hinv _ _ (leaf_frame x)); try assumption.
    - apply Forall_app. split; [exact Hqx | constructor; [exact Hrx | constructor]].
    - apply Forall_app. split; [exact Hqy | constructor; [exact Hry | constructor]].
    - rewrite length_app. simpl. lia.
    - rewrite length_app. simpl. lia. }
  rewrite Ep in Hpx. apply app_inj_tail in Ep as [Eq Er]. subst qy.
  rewrite Hdx in Hdy. injection Hdy as Epar.
  destruct x, y. cbn in *. congruence.
Qed.

Lemma table_chain_NoDup m q :
  tree_inv m -> path_ok q -> Z.of_nat (length q) < TABLES_DEPTH ->
  is_Some (frame_at m q) ->
  let T := (fun k => default 0 (frame_at m (take k q))) <$> seq 1 (length q) in
  NoDup T /\
  (forall g, g ∈ T ->
     exists k, (1 <= k <= length q)%nat /\ frame_at m (take k q) = Some g).
Proof.
  intros Hinv Hq Hl Hsome T.
  assert (Hpre : forall k, (k <= length q)%nat -> is_Some (frame_at m (take k q))).
  { intros k Hk. rewrite <- (take_drop k q) in Hsome. unfold frame_at in Hsome |- *.
    rewrite descend_app in Hsome. destruct (descend m 0 (take k q)); [eauto|].
    destruct Hsome as [? H]. discriminate. }
  split.
  - apply NoDup_fmap_2_strong; [|apply NoDup_seq].
    intros k1 k2 H1 H2 E. apply elem_of_seq in H1, H2.
    destruct (Hpre k1 ltac:(lia)) as [g1 E1]. destruct (Hpre k2 ltac:(lia)) as [g2 E2].
    rewrite E1, E2 in E. cbn in E. subst g2.
    assert (Et : take k1 q = take k2 q).
    { apply (inv_inj m Hinv _ _ g1); try assumption;
        try (apply Forall_take; exact Hq); rewrite length_take; lia. }
    apply (f_equal length) in Et. rewrite !length_take in Et. lia.
  - intros g Hg. apply list_elem_of_fmap in Hg as (k & -> & Hk). apply elem_of_seq in Hk.
    exists k. split; [lia|]. destruct (Hpre k ltac:(lia)) as [g E]. rewrite E. reflexivity.
Qed.

(** X17. The resident pages of a state the simulator reaches: the list of
    mapped data pages names no page and no frame twice, and holds at most
    [NUM_FRAMES - TABLES_DEPTH] pages, since the root and the tables on the
    way to a resident page take frames too. *)
Theorem resident_capacity m :
  reachable m ->
  NoDup (leaf_page <$> mapped_leaves m) /\
  NoDup (leaf_frame <$> mapped_leaves m) /\
  Z.of_nat (length (mapped_leaves m)) <= NUM_FRAMES - TABLES_DEPTH.
Proof.
  intros Hreach. pose proof (reachable_inv m Hreach) as Hinv.
  pose proof NUM_FRAMES_bound as [HNF _]. pose proof TABLES_DEPTH_pos as HD.
  assert (Hpages : NoDup (leaf_page <$> mapped_leaves m))
    by apply dfs_leaves_pages_NoDup.
  assert (Hframes : NoDup (leaf_frame <$> mapped_leaves m)).
  { apply NoDup_fmap_2_strong; [|apply (NoDup_fmap_1 leaf_page); exact Hpages].
    intros x y Hx Hy. apply (mapped_leaf_frame_inj m); assumption. }
  split; [exact Hpages|]. split; [exact Hframes|].
  destruct (mapped_leaves m) as [|x rest] eqn:El; [cbn; lia|]. rewrite <- El in *.
  assert (Hx : x ∈ mapped_leaves m)
    by (rewrite El; apply elem_of_cons; left; reflexivity).
  destruct (mapped_leaf_facts m x Hinv Hx)
    as (q & Hq & Hrx & Hlq & Hdx & _ & _ & _ & _ & _).
  destruct (table_chain_NoDup m q Hinv Hq ltac:(lia) ltac:(eauto)) as [HT HTel].
  set (T := (fun k => default 0 (frame_at m (take k q))) <$> seq 1 (length q)) in *.
  assert (Hsub : T ++ (leaf_frame <$> mapped_leaves m) ⊆+ seqZ 1 (NUM_FRAMES - 1)).
  { apply NoDup_submseteq.
    - apply NoDup_app. split; [exact HT|]. split; [|exact Hframes].
      intros g Hg1 Hg2. destruct (HTel g Hg1) as (k & Hk & Hat).
      apply list_elem_of_fmap in Hg2 as (y & -> & Hy).
      destruct (mapped_leaf_facts m y Hinv Hy)
        as (qy & Hqy & Hry & Hly & _ & _ & _ & _ & _ & Hay).
      assert (Et : take k q = qy ++ [leaf_row y]).
      { apply (inv_inj m Hinv _ _ (leaf_frame y)); try assumption.
        - apply Forall_take. exact Hq.
        - apply Forall_app. split; [exact Hqy | constructor; [exact Hry | constructor]].
        - rewrite length_take. lia.
        - rewrite length_app. simpl. lia. }
      apply (f_equal length) in Et. rewrite length_take, length_app in Et.
      simpl in Et. lia.
    - intros g Hg. apply elem_of_seqZ. apply elem_of_app in Hg as [Hg | Hg].
      + destruct (HTel g Hg) as (k & Hk & Hat).
        assert (Hpk : path_ok (take k q)) by (apply Forall_take; exact Hq).
        assert (Hlk : Z.of_nat (length (take k q)) <= TABLES_DEPTH)
          by (rewrite length_take; lia).
        pose proof (frame_at_table_ok m _ g Hinv Hpk Hlk Hat) as Hok.
        assert (Hne : take k q <> []).
        { intros E. apply (f_equal length) in E. rewrite length_take in E.
          simpl in E. lia. }
        pose proof (frame_at_nonroot m _ g Hinv Hpk Hlk Hat Hne).
        unfold frame_ok in Hok. lia.
      + apply list_elem_of_fmap in Hg as (y & -> & Hy).
        destruct (mapped_leaf_facts m y Hinv Hy) as (_ & _ & _ & _ & _ & _ & Hr & _).
        lia. }
  apply submseteq_length in Hsub. unfold T in Hsub.
  rewrite length_app, !length_fmap, length_seq, length_seqZ in Hsub. lia.
Qed.

(** ** Empty tables *)

Lemma scan_rows_empty rec frame depth pagePrefix targetPage m rows :
  (forall row, row ∈ rows -> PMread (phys frame row) m = 0) ->
  forall acc, fold_left (scan_row rec frame depth pagePrefix targetPage m) rows acc = acc.
Proof.
  induction rows as [|row rows IH]; intros Hz acc; [reflexivity|].
  cbn [fold_left]. unfold scan_row at 2.
  rewrite (Hz row) by (apply elem_of_cons; left; reflexivity). cbn.
  apply IH. intros r Hr. apply Hz. apply elem_of_cons. right. exact Hr.
Qed.

Lemma find_row_empty frame target m :
  (forall row, row_ok row -> PMread (phys frame row) m = 0) -> target <> 0 ->
  find_row frame target m = None.
Proof.
  intros Hz Ht. unfold find_row.
  assert (E : forall rows, (forall row, row ∈ rows -> row_ok row) ->
            List.find (fun row => u64 (PMread (phys frame row) m) =? target) rows = None).
  { induction rows as [|row rows IH]; intros Hok; [reflexivity|]. cbn [List.find].
    rewrite Hz by (apply Hok, elem_of_cons; left; reflexivity).
    change (u64 0) with 0. destruct (Z.eqb_spec 0 target); [congruence|].
    apply IH. intros r Hr. apply Hok, elem_of_cons. right. exact Hr. }
  apply E. intros row Hr. apply elem_of_seqZ in Hr. unfold row_ok. lia.
Qed.

(** X18. [scan] on a table whose rows are all 0, on any memory: nothing is
    recorded when the table is the parent being populated (the first guard)
    or the root, or when an empty table was recorded before; otherwise the
    table becomes the reuse candidate, with its parent still to be found by
    the caller one level up. *)
Theorem scan_empty_table (fuel : nat) frame depth prefix targetPage info parentFrame m :
  (forall row, row_ok row -> PMread (phys frame row) m = 0) ->
  emptyFrame info <> 0 ->
  scan (S fuel) frame depth prefix targetPage info parentFrame m =
    if (frame =? parentFrame) || (frame =? 0) || negb (emptyFrame info =? UINT64_MAX)
    then info
    else set_empty frame UINT64_MAX 0 info.
Proof.
  intros Hz He. cbn [scan]. rewrite scan_rows_empty.
  2:{ intros row Hr. apply elem_of_seqZ in Hr. apply Hz. unfold row_ok. lia. }
  cbn [fst snd]. unfold scan_finish. cbn [andb].
  destruct (Z.eqb_spec frame parentFrame) as [Hp | Hp]; [reflexivity|]. cbn [orb].
  set (info2 := if negb (frame =? 0) && (emptyFrame info =? UINT64_MAX)
                then set_empty frame UINT64_MAX 0 info else info).
  assert (E2 : info2 = if (frame =? 0) || negb (emptyFrame info =? UINT64_MAX)
                       then info else set_empty frame UINT64_MAX 0 info).
  { unfold info2. destruct (frame =? 0), (emptyFrame info =? UINT64_MAX); reflexivity. }
  assert (Hne : emptyFrame info2 <> 0).
  { unfold info2. destruct (Z.eqb_spec frame 0); cbn [negb andb]; [exact He|].
    destruct (emptyFrame info =? UINT64_MAX); cbn [andb]; assumption. }
  rewrite find_row_empty by assumption. rewrite <- E2.
  destruct (negb (emptyFrame info2 =? UINT64_MAX) && (emptyParent info2 =? UINT64_MAX));
    reflexivity.
Qed.

(** X19. [allocateFrame] on an empty tree, on any memory whose root table
    is all 0: no table can be reused and nothing can be evicted; the frame
    returned is the fresh frame 1, cleared when it is requested as a
    table. *)
Theorem allocateFrame_empty_tree m ParentRow targetPage isLeaf :
  (forall row, row_ok row -> PMread (phys 0 row) m = 0) ->
  alloc_decision 0 targetPage m = Fresh /\
  allocateFrame 0 ParentRow targetPage isLeaf m = (1, clearFrame 1 isLeaf m).
Proof.
  intros Hz. pose proof NUM_FRAMES_bound as [HNF _]. pose proof TABLES_DEPTH_pos as HD.
  assert (Hscan : scan scan_fuel 0 0 0 targetPage scanInfo_init 0 m = scanInfo_init).
  { unfold scan_fuel. cbn [scan]. rewrite scan_rows_empty.
    2:{ intros row Hr. apply elem_of_seqZ in Hr. apply Hz. unfold row_ok. lia. }
    reflexivity. }
  unfold alloc_decision, alloc_info, allocateFrame. rewrite Hscan.
  cbn [emptyFrame maxFrame scanInfo_init]. rewrite Z.eqb_refl. cbn [negb andb].
  change (u64 (0 + 1)) with 1.
  destruct (Z.ltb_spec 1 NUM_FRAMES); [split; reflexivity | lia].
Qed.

(** ** The words of a page that becomes resident *)




End WithConfig.

(** With creation enabled the level loop of the walker never misses. *)
Lemma walk_loop_create va (n : nat) :
  forall level frame m,
    exists leafFrame m', walk_loop n level va true frame m = (Some leafFrame, m').
Proof.
  induction n as [|n IH]; intros level frame m; [simpl; eauto|].
  cbn [walk_loop negb].
  destruct (PMread (phys frame (indexAtLevel va level)) m =? 0); [|apply IH].
  destruct (allocateFrame frame (indexAtLevel va level) (Z.shiftr va OFFSET_WIDTH)
              (level + 1 =? TABLES_DEPTH) m) as [newFrame m1].
  apply IH.
Qed.

(** C2. Range check: for an address at or above [VIRTUAL_MEMORY_SIZE],
    [VMread] and [VMwrite] return 0 and leave the memory, and so the tree
    and the swap store, as they are ([VMread] leaves its output as it is
    too); for an address below [VIRTUAL_MEMORY_SIZE] both return 1: the
    walk, which creates what is missing, never reports a miss. *)
Theorem range_check m a value v :
  (VIRTUAL_MEMORY_SIZE <= a ->
     VMread a value m = Some (0, value, m) /\ VMwrite a v m = Some (0, m)) /\
  (a < VIRTUAL_MEMORY_SIZE ->
     (exists leafFrame m', walk a true m = (Some leafFrame, m')) /\
     (exists out m', VMread a value m = Some (1, out, m')) /\
     (exists m', VMwrite a v m = Some (1, m'))).
Proof.
  unfold VMread, VMwrite. split; intros Ha.
  - destruct (Z.leb_spec VIRTUAL_MEMORY_SIZE a); [split; reflexivity | lia].
  - destruct (Z.leb_spec VIRTUAL_MEMORY_SIZE a); [lia|].
    destruct (walk_loop_create a (Z.to_nat TABLES_DEPTH) 0 0 m) as (L & m' & E).
    unfold walk. rewrite E. split; [eauto|]. split; eauto.
Qed.

(** C9. Cyclic distance: for page numbers [a] and [b] below [NUM_PAGES],
    [cyclicDistance a b = cyclicDistance b a] and
    [cyclicDistance a b <= NUM_PAGES / 2]. *)
Theorem cyclicDistance_correct a b :
  NUM_PAGES <= 2 ^ 64 -> 0 <= a < NUM_PAGES -> 0 <= b < NUM_PAGES ->
  cyclicDistance a b = cyclicDistance b a /\
  cyclicDistance a b <= NUM_PAGES / 2.
Proof.
  intros HN Ha Hb. unfold cyclicDistance.
  assert (Hsmall : forall d, 0 <= d < NUM_PAGES -> u64 d = d)
    by (intros d Hd; apply u64_small; lia).
  assert (Hcompl : forall d, 0 <= d < NUM_PAGES ->
            Z.min d (u64 (NUM_PAGES - d)) <= NUM_PAGES / 2).
  { intros d Hd. destruct (Z.eq_dec d 0) as [-> | Hd0].
    - apply Z.min_le_iff. left. apply Z.div_pos; lia.
    - rewrite u64_small by lia.
      assert (NUM_PAGES <= 2 * (NUM_PAGES / 2) + 1)
        by (pose proof (Z.div_mod NUM_PAGES 2 ltac:(lia));
            pose proof (Z.mod_pos_bound NUM_PAGES 2 ltac:(lia)); lia).
      lia. }
  destruct (Z.ltb_spec b a), (Z.ltb_spec a b); try lia.
  - rewrite (Hsmall (a - b)) by lia. split; [reflexivity|]. apply Hcompl. lia.
  - rewrite (Hsmall (b - a)) by lia. split; [reflexivity|]. apply Hcompl. lia.
  - assert (a = b) as -> by lia. rewrite Z.sub_diag. split; [reflexivity|].
    unfold u64 at 1 2. rewrite Z.mod_0_l by lia. apply Hcompl. lia.
Qed.

End VirtualMemory.

(** * The properties on a small configuration

    One bit per level, two levels, three frames: four pages of two words,
    a root, and room for one more table and one data page. *)

Lemma small_config_ok : config_ok 1 2 3 4 8 32.
Proof. unfold config_ok, PAGE_SIZE. repeat split; try lia; vm_compute; discriminate. Qed.

(** [small_memory] is the state after [VMwrite 0 7] on the initialized
    state; the walk of address 4 (page 2) from it calls the allocator at the
    root, and the allocator has to evict. *)
Lemma small_state :
  run_ops 1 2 3 4 8 32 [OpWrite 0 7] (initial 1 ∅) = Some small_memory /\
  reachable 1 2 3 4 8 32 small_memory /\
  in_walk 1 2 3 4 8 32 small_memory /\
  alloc_call 1 2 3 4 8 32 small_memory 0 1 2 false /\
  alloc_decision 1 2 3 4 0 2 small_memory = Evict.
Proof.
  assert (Hrun : run_ops 1 2 3 4 8 32 [OpWrite 0 7] (initial 1 ∅) = Some small_memory)
    by (vm_compute; reflexivity).
  assert (Hreach : reachable 1 2 3 4 8 32 small_memory).
  { apply (reach_step 1 2 3 4 8 32 (OpWrite 0 7) (initial 1 ∅));
      [apply reach_init | vm_compute; split; discriminate | vm_compute; reflexivity]. }
  split; [exact Hrun|]. split; [exact Hreach|]. split; [|split].
  - exists small_memory, 0, O. split; [exact Hreach|]. split; [lia|].
    split; [simpl; lia | reflexivity].
  - exists small_memory, 4, 0. split; [exact Hreach|].
    split; [lia|]. split; [lia|]. repeat split; vm_compute; reflexivity.
  - vm_compute. reflexivity.
Qed.

Lemma round_trip_witness :
  exists m1 m2 m3,
    VMwrite 1 2 3 4 8 32 0 7 (initial 1 ∅) = Some (1, m1) /\
    run_ops 1 2 3 4 8 32 [OpWrite 4 9; OpWrite 2 5; OpRead 6] m1 = Some m2 /\
    VMread 1 2 3 4 8 32 0 0 m2 = Some (1, 7, m3).
Proof.
  apply (round_trip 1 2 3 4 8 32 small_config_ok).
  - apply reach_init.
  - lia.
  - repeat constructor; vm_compute; (lia || discriminate).
Defined.

Lemma range_check_witness :
  (VMread 1 2 3 4 8 32 8 5 small_memory = Some (0, 5, small_memory) /\
   VMwrite 1 2 3 4 8 32 8 5 small_memory = Some (0, small_memory)) /\
  ((exists leafFrame m', walk 1 2 3 4 32 3 true small_memory = (Some leafFrame, m')) /\
   (exists out m', VMread 1 2 3 4 8 32 3 5 small_memory = Some (1, out, m')) /\
   (exists m', VMwrite 1 2 3 4 8 32 3 5 small_memory = Some (1, m'))).
Proof.
  split.
  - apply (proj1 (range_check 1 2 3 4 8 32 small_memory 8 5 5)). lia.
  - apply (proj2 (range_check 1 2 3 4 8 32 small_memory 3 5 5)). lia.
Defined.

(** [empty_table_memory] is the memory between the two levels of the first
    walk (of address 0) from the initialized state.  A call for row 1 of the
    root finds the empty table in frame 1 and the unused frame 2. *)
Lemma empty_table_state :
  in_walk 1 2 3 4 8 32 empty_table_memory /\
  table_call 1 2 3 4 8 empty_table_memory 0 1 2 false /\
  has_reusable 1 2 empty_table_memory 0 /\
  maxFrame (alloc_info 1 2 4 0 2 empty_table_memory) + 1 < 3.
Proof.
  assert (Hw : in_walk 1 2 3 4 8 32 empty_table_memory).
  { exists (initial 1 ∅), 0, 1%nat. split; [apply reach_init|]. split; [lia|].
    split; [simpl; lia | vm_compute; reflexivity]. }
  split; [exact Hw|]. split; [|split].
  - exists 4, 0. split; [|repeat split; vm_compute; reflexivity].
    split; [exact (in_walk_inv 1 2 3 4 8 32 small_config_ok _ Hw)|].
    split; [lia|]. split; [lia|]. split; vm_compute; reflexivity.
  - exists [0], 1. split; [repeat constructor; vm_compute; (lia || discriminate)|].
    split; [simpl; lia|]. split; [vm_compute; reflexivity|].
    split; [vm_compute; reflexivity|]. split; discriminate.
  - vm_compute. reflexivity.
Qed.

(** The three ways on the small configuration: on [empty_table_memory] the
    empty table in frame 1 is reused although frame 2 is fresh; on the
    initialized state the fresh frame 1 is taken; on [small_memory], where
    all frames are in use and no table is empty, a page is evicted. *)
Lemma allocation_priority_witness :
  (table_call 1 2 3 4 8 empty_table_memory 0 1 2 false /\
   has_reusable 1 2 empty_table_memory 0 /\
   maxFrame (alloc_info 1 2 4 0 2 empty_table_memory) + 1 < 3 /\
   alloc_decision 1 2 3 4 0 2 empty_table_memory = Reuse /\
   reusable 1 empty_table_memory 0
     (fst (allocateFrame 1 2 3 4 0 1 2 false empty_table_memory)) /\
   fst (allocateFrame 1 2 3 4 0 1 2 false empty_table_memory) = 1 /\
   entry 1 (snd (allocateFrame 1 2 3 4 0 1 2 false empty_table_memory)) 0 0 = 0) /\
  (table_call 1 2 3 4 8 (initial 1 ∅) 0 0 0 false /\
   alloc_decision 1 2 3 4 0 0 (initial 1 ∅) = Fresh /\
   ~ has_reusable 1 2 (initial 1 ∅) 0 /\
   fst (allocateFrame 1 2 3 4 0 0 0 false (initial 1 ∅)) =
     maxFrame (alloc_info 1 2 4 0 0 (initial 1 ∅)) + 1) /\
  (table_call 1 2 3 4 8 small_memory 0 1 2 false /\
   alloc_decision 1 2 3 4 0 2 small_memory = Evict /\
   ~ has_reusable 1 2 small_memory 0 /\
   maxFrame (alloc_info 1 2 4 0 2 small_memory) + 1 = 3).
Proof.
  split; [|split].
  - destruct empty_table_state as (_ & Hcall & Hre & Hfresh).
    split; [exact Hcall|]. split; [exact Hre|]. split; [exact Hfresh|].
    pose proof (allocation_priority 1 2 3 4 8 32 small_config_ok _ _ _ _ _ Hcall) as H.
    cbn zeta in H. destruct H as (_ & _ & Hdec & H). specialize (Hdec Hre).
    split; [exact Hdec|]. rewrite Hdec in H. destruct H as (Hr & _ & _).
    split; [exact Hr|]. split; vm_compute; reflexivity.
  - assert (Hcall : table_call 1 2 3 4 8 (initial 1 ∅) 0 0 0 false).
    { exists 0, 0. split; [|repeat split; vm_compute; reflexivity].
      split; [exact (reachable_inv 1 2 3 4 8 32 small_config_ok _ (reach_init 1 2 3 4 8 32 ∅))|].
      split; [lia|]. split; [lia|]. split; vm_compute; reflexivity. }
    assert (Hdec : alloc_decision 1 2 3 4 0 0 (initial 1 ∅) = Fresh)
      by (vm_compute; reflexivity).
    split; [exact Hcall|]. split; [exact Hdec|].
    pose proof (allocation_priority 1 2 3 4 8 32 small_config_ok _ _ _ _ _ Hcall) as H.
    cbn zeta in H. rewrite Hdec in H. destruct H as (_ & _ & _ & Hnone & _ & Er).
    split; [exact Hnone|]. rewrite Er. reflexivity.
  - destruct small_state as (_ & _ & _ & Hcall & Hdec).
    apply (alloc_call_fault 1 2 3 4 8 32 small_config_ok) in Hcall.
    split; [exact Hcall|]. split; [exact Hdec|].
    pose proof (allocation_priority 1 2 3 4 8 32 small_config_ok _ _ _ _ _ Hcall) as H.
    cbn zeta in H. rewrite Hdec in H. destruct H as (_ & _ & _ & Hnone & Hfull & _).
    split; [exact Hnone | exact Hfull].
Defined.

Lemma five_frames_config_ok : config_ok 1 2 5 4 8 32.
Proof. unfold config_ok, PAGE_SIZE. repeat split; try lia; vm_compute; discriminate. Qed.

(** [tie_memory] and [far_memory] are states of the simulator with five
    frames; from either the walk of address 0 (page 0) faults at the last
    level, in the table of frame 1, and the allocator has to evict. *)
Lemma five_frames_states :
  (reachable 1 2 5 4 8 32 tie_memory /\
   alloc_call 1 2 5 4 8 32 tie_memory 1 0 0 true /\
   alloc_decision 1 2 5 4 1 0 tie_memory = Evict /\
   mapped_leaves 1 2 tie_memory = [mkLeaf 1 2 1 1; mkLeaf 3 4 3 1]) /\
  (reachable 1 2 5 4 8 32 far_memory /\
   alloc_call 1 2 5 4 8 32 far_memory 1 0 0 true /\
   alloc_decision 1 2 5 4 1 0 far_memory = Evict /\
   mapped_leaves 1 2 far_memory = [mkLeaf 1 2 1 1; mkLeaf 2 4 3 0]).
Proof.
  assert (Ht : reachable 1 2 5 4 8 32 tie_memory).
  { apply (run_ops_reachable 1 2 5 4 8 32 [OpWrite 2 5; OpWrite 6 9] (initial 1 ∅));
      [apply reach_init | repeat constructor; vm_compute; discriminate
      | vm_compute; reflexivity]. }
  assert (Hf : reachable 1 2 5 4 8 32 far_memory).
  { apply (run_ops_reachable 1 2 5 4 8 32 [OpWrite 2 5; OpWrite 4 9] (initial 1 ∅));
      [apply reach_init | repeat constructor; vm_compute; discriminate
      | vm_compute; reflexivity]. }
  split.
  - split; [exact Ht|]. split; [|split; vm_compute; reflexivity].
    exists tie_memory, 0, 1. split; [exact Ht|]. split; [lia|]. split; [lia|].
    repeat split; vm_compute; reflexivity.
  - split; [exact Hf|]. split; [|split; vm_compute; reflexivity].
    exists far_memory, 0, 1. split; [exact Hf|]. split; [lia|]. split; [lia|].
    repeat split; vm_compute; reflexivity.
Qed.

(** Victim selection with two resident pages and target page 0, on the
    ring of 4 pages.  On [tie_memory] the pages 1 and 3 are both at
    distance 1: the first in depth-first order, page 1, is evicted.  On
    [far_memory] page 2, at distance 2, is evicted although page 1, at
    distance 1, comes first. *)
Lemma victim_selection_witness :
  (alloc_call 1 2 5 4 8 32 tie_memory 1 0 0 true /\
   alloc_decision 1 2 5 4 1 0 tie_memory = Evict /\
   mapped_leaves 1 2 tie_memory = [mkLeaf 1 2 1 1; mkLeaf 3 4 3 1] /\
   ring_distance 4 1 0 = 1 /\ ring_distance 4 3 0 = 1 /\
   exists l1 v l2,
     mapped_leaves 1 2 tie_memory = l1 ++ v :: l2 /\
     (forall x, x ∈ l1 -> ring_distance 4 (leaf_page x) 0 < ring_distance 4 (leaf_page v) 0) /\
     (forall x, x ∈ l2 -> ring_distance 4 (leaf_page x) 0 <= ring_distance 4 (leaf_page v) 0) /\
     allocateFrame 1 2 5 4 1 0 0 true tie_memory =
       (leaf_frame v,
        clearFrame 1 (leaf_frame v) true
          (PMwrite (phys 1 (leaf_parent v) (leaf_row v)) 0
             (PMevict 1 (leaf_frame v) (leaf_page v) tie_memory))) /\
     l1 = [] /\ v = mkLeaf 1 2 1 1 /\ l2 = [mkLeaf 3 4 3 1]) /\
  (alloc_call 1 2 5 4 8 32 far_memory 1 0 0 true /\
   alloc_decision 1 2 5 4 1 0 far_memory = Evict /\
   mapped_leaves 1 2 far_memory = [mkLeaf 1 2 1 1; mkLeaf 2 4 3 0] /\
   ring_distance 4 1 0 = 1 /\ ring_distance 4 2 0 = 2 /\
   exists l1 v l2,
     mapped_leaves 1 2 far_memory = l1 ++ v :: l2 /\
     (forall x, x ∈ l1 -> ring_distance 4 (leaf_page x) 0 < ring_distance 4 (leaf_page v) 0) /\
     (forall x, x ∈ l2 -> ring_distance 4 (leaf_page x) 0 <= ring_distance 4 (leaf_page v) 0) /\
     allocateFrame 1 2 5 4 1 0 0 true far_memory =
       (leaf_frame v,
        clearFrame 1 (leaf_frame v) true
          (PMwrite (phys 1 (leaf_parent v) (leaf_row v)) 0
             (PMevict 1 (leaf_frame v) (leaf_page v) far_memory))) /\
     l1 = [mkLeaf 1 2 1 1] /\ v = mkLeaf 2 4 3 0 /\ l2 = []).
Proof.
  destruct five_frames_states as [(_ & Hcall1 & Hdec1 & Hl1) (_ & Hcall2 & Hdec2 & Hl2)].
  split.
  - split; [exact Hcall1|]. split; [exact Hdec1|]. split; [exact Hl1|].
    split; [reflexivity|]. split; [reflexivity|].
    destruct (victim_selection 1 2 5 4 8 32 five_frames_config_ok _ _ _ _ _ Hcall1 Hdec1)
      as (l1 & v & l2 & El & H1 & H2 & Er & _).
    exists l1, v, l2. split; [exact El|]. split; [exact H1|]. split; [exact H2|].
    split; [exact Er|]. rewrite Hl1 in El.
    destruct l1 as [|a l1]; cbn [app] in El.
    + injection El as E1 E2; subst. split; [reflexivity|]. split; reflexivity.
    + exfalso. injection El as E0 El; subst a. destruct l1 as [|b l1]; cbn [app] in El.
      * injection El as E1 E2; subst.
        assert (Hin : mkLeaf 1 2 1 1 ∈ [mkLeaf 1 2 1 1])
          by (apply elem_of_cons; left; reflexivity).
        specialize (H1 _ Hin). revert H1. vm_compute. discriminate.
      * injection El as _ El; destruct l1; discriminate El.
  - split; [exact Hcall2|]. split; [exact Hdec2|]. split; [exact Hl2|].
    split; [reflexivity|]. split; [reflexivity|].
    destruct (victim_selection 1 2 5 4 8 32 five_frames_config_ok _ _ _ _ _ Hcall2 Hdec2)
      as (l1 & v & l2 & El & H1 & H2 & Er & _).
    exists l1, v, l2. split; [exact El|]. split; [exact H1|]. split; [exact H2|].
    split; [exact Er|]. rewrite Hl2 in El.
    destruct l1 as [|a l1]; cbn [app] in El.
    + exfalso. injection El as E1 E2; subst.
      assert (Hin : mkLeaf 2 4 3 0 ∈ [mkLeaf 2 4 3 0])
        by (apply elem_of_cons; left; reflexivity).
      specialize (H2 _ Hin). revert H2. vm_compute. intros H2. apply H2. reflexivity.
    + injection El as E0 El; subst a. destruct l1 as [|b l1]; cbn [app] in El.
      * injection El as E1 E2; subst. split; [reflexivity|]. split; reflexivity.
      * exfalso. injection El as _ El; destruct l1; discriminate El.
Defined.

Lemma root_invariance_witness :
  alloc_call 1 2 3 4 8 32 small_memory 0 1 2 false /\
  fst (allocateFrame 1 2 3 4 0 1 2 false small_memory) <> 0.
Proof.
  destruct small_state as (_ & _ & _ & Hcall & _). split; [exact Hcall|].
  apply (root_invariance 1 2 3 4 8 32 small_config_ok _ _ _ _ _ Hcall).
Defined.

Lemma entries_unique_witness :
  in_walk 1 2 3 4 8 32 small_memory /\
  entry 1 small_memory 1 0 = 2 /\
  ([0] = [0] /\ 1 = 1 /\ 0 = 0).
Proof.
  destruct small_state as (_ & _ & Hw & _). split; [exact Hw|].
  split; [vm_compute; reflexivity|].
  apply (entries_unique 1 2 3 4 8 32 small_config_ok small_memory [0] [0] 1 1 0 0 Hw);
    try (vm_compute; reflexivity); try (repeat constructor; vm_compute; (lia || discriminate)).
Defined.



Lemma clearing_policy_witness :
  alloc_call 1 2 3 4 8 32 small_memory 0 1 2 false /\
  forall i, 0 <= i < PAGE_SIZE 1 ->
    PMread (phys 1 (fst (allocateFrame 1 2 3 4 0 1 2 false small_memory)) i)
           (snd (allocateFrame 1 2 3 4 0 1 2 false small_memory)) = 0.
Proof.
  destruct small_state as (_ & _ & _ & Hcall & _). split; [exact Hcall|].
  apply (clearing_policy 1 2 3 4 8 32 small_config_ok _ _ _ _ _ Hcall). reflexivity.
Defined.

Lemma alloc_not_parent_witness :
  in_walk 1 2 3 4 8 32 small_memory /\
  frame_at 1 small_memory [0] = Some 1 /\
  fst (allocateFrame 1 2 3 4 1 1 1 true small_memory) <> 1.
Proof.
  destruct small_state as (_ & _ & Hw & _). split; [exact Hw|].
  split; [vm_compute; reflexivity|].
  apply (alloc_not_parent 1 2 3 4 8 32 small_config_ok small_memory [0] 1 1 1 true Hw).
  - repeat constructor; vm_compute; (lia || discriminate).
  - simpl. lia.
  - vm_compute. reflexivity.
Defined.

Lemma cyclicDistance_correct_witness :
  cyclicDistance 16 3 12 = cyclicDistance 16 12 3 /\ cyclicDistance 16 3 12 <= 16 / 2.
Proof.
  apply (cyclicDistance_correct 16 3 12); [vm_compute; discriminate | lia | lia].
Defined.

(** ** The further properties on the small configuration *)

Lemma phys_layout_witness :
  frame_ok 3 2 /\ row_ok 1 1 /\
  phys 1 2 1 = 5 /\ phys 1 2 1 / PAGE_SIZE 1 = 2 /\ phys 1 2 1 mod PAGE_SIZE 1 = 1.
Proof.
  assert (Hf : frame_ok 3 2) by (unfold frame_ok; lia).
  assert (Hr : row_ok 1 1) by (unfold row_ok, PAGE_SIZE; lia).
  destruct (phys_layout 1 2 3 4 8 32 small_config_ok 2 1 2 1 Hf Hr Hf Hr)
    as (H1 & _ & H3 & H4 & _).
  split; [exact Hf|]. split; [exact Hr|]. split; [exact H1|]. split; [exact H3 | exact H4].
Defined.

Lemma address_decomposition_witness :
  page_of_path 1 (walk_path 1 2 5) = Z.shiftr 5 1 /\
  5 = Z.shiftr 5 1 * PAGE_SIZE 1 + offsetOf 1 5.
Proof.
  destruct (address_decomposition 1 2 3 4 8 32 small_config_ok 5 ltac:(lia))
    as (_ & _ & _ & H4 & _ & H6).
  split; [exact H4 | exact H6].
Defined.

Lemma address_composition_witness :
  walk_path 1 2 (page_of_path 1 [1; 0] * PAGE_SIZE 1 + 1) = [1; 0] /\
  offsetOf 1 (page_of_path 1 [1; 0] * PAGE_SIZE 1 + 1) = 1.
Proof.
  destruct (address_composition 1 2 3 4 8 32 small_config_ok [1; 0] 1) as (_ & H2 & H3 & _).
  - repeat constructor; vm_compute; (lia || discriminate).
  - reflexivity.
  - unfold row_ok, PAGE_SIZE. lia.
  - vm_compute. reflexivity.
  - split; [exact H2 | exact H3].
Defined.

Lemma clearFrame_effect_witness :
  frame_ok 3 1 /\
  PMread 2 (clearFrame 1 1 false small_memory) = 0 /\
  PMread 4 (clearFrame 1 1 false small_memory) = 7.
Proof.
  assert (Hf : frame_ok 3 1) by (unfold frame_ok; lia).
  split; [exact Hf|]. split.
  - destruct (clearFrame_effect 1 2 3 4 8 32 small_config_ok 1 small_memory 2 Hf) as [H _].
    rewrite H. apply decide_True. unfold PAGE_SIZE. lia.
  - destruct (clearFrame_effect 1 2 3 4 8 32 small_config_ok 1 small_memory 4 Hf) as [H _].
    rewrite H. rewrite decide_False by (unfold PAGE_SIZE; lia). reflexivity.
Defined.

Lemma cyclicDistance_metric_witness :
  cyclicDistance 4 0 3 = Z.min (Z.abs (0 - 3)) (4 - Z.abs (0 - 3)) /\
  cyclicDistance 4 0 1 <= cyclicDistance 4 0 3 + cyclicDistance 4 3 1.
Proof.
  destruct (cyclicDistance_metric 1 2 3 4 8 32 small_config_ok 0 3 1
              ltac:(lia) ltac:(lia) ltac:(lia)) as (H1 & _ & H3).
  split; [exact H1 | exact H3].
Defined.

Lemma scan_depth_bounded_witness :
  scan 1 2 4 5 0 0 0 2 scanInfo_init 0 small_memory =
  scan 1 2 4 2 0 0 0 2 scanInfo_init 0 small_memory.
Proof.
  apply (scan_depth_bounded 1 2 4 2 0 small_memory 0 0 0 scanInfo_init 5); lia.
Defined.

Lemma resident_access_witness :
  frame_at 1 small_memory (walk_path 1 2 1) = Some 2 /\
  VMread 1 2 3 4 8 32 1 9 small_memory =
    Some (1, PMread (phys 1 2 (offsetOf 1 1)) small_memory, small_memory).
Proof.
  assert (H : frame_at 1 small_memory (walk_path 1 2 1) = Some 2) by (vm_compute; reflexivity).
  split; [exact H|].
  apply (resident_access 1 2 3 4 8 32 small_memory 1 2 9 0 ltac:(lia) H).
Defined.

Lemma walk_makes_resident_witness :
  reachable 1 2 3 4 8 32 small_memory /\
  exists f m', walk 1 2 3 4 32 4 true small_memory = (Some f, m') /\
               walk 1 2 3 4 32 4 false m' = (Some f, m').
Proof.
  destruct small_state as (_ & Hreach & _). split; [exact Hreach|].
  destruct (walk_makes_resident 1 2 3 4 8 32 small_config_ok small_memory 4 Hreach ltac:(lia))
    as (f & m' & H1 & _ & _ & H4 & _).
  exists f, m'. split; [exact H1 | exact H4].
Defined.

Lemma VMinitialize_empty_witness :
  walk 1 2 3 4 32 0 false (VMinitialize 1 small_memory) = (None, VMinitialize 1 small_memory) /\
  PMread 4 (VMinitialize 1 small_memory) = PMread 4 small_memory.
Proof.
  destruct (VMinitialize_empty 1 2 3 4 8 32 small_config_ok small_memory 0 4)
    as (_ & H2 & _ & H4).
  split; [exact H4|]. apply H2. unfold PAGE_SIZE. lia.
Defined.

Lemma write_survives_witness :
  exists m1 m2 m3,
    VMwrite 1 2 3 4 8 32 0 7 (initial 1 ∅) = Some (1, m1) /\
    run_ops 1 2 3 4 8 32
      [OpWrite 1 5; OpWrite 4 9; OpRead 0; OpWrite 8 1; OpRead 6] m1 = Some m2 /\
    VMread 1 2 3 4 8 32 0 0 m2 = Some (1, 7, m3).
Proof.
  apply (write_survives 1 2 3 4 8 32 small_config_ok).
  - apply reach_init.
  - lia.
  - repeat constructor; vm_compute; (lia || discriminate).
Defined.

Lemma read_stable_witness :
  exists out m1 m2 m3,
    VMread 1 2 3 4 8 32 3 0 (initial 1 ∅) = Some (1, out, m1) /\
    run_ops 1 2 3 4 8 32 [OpWrite 2 5; OpRead 7; OpWrite 6 1] m1 = Some m2 /\
    VMread 1 2 3 4 8 32 3 0 m2 = Some (1, out, m3).
Proof.
  apply (read_stable 1 2 3 4 8 32 small_config_ok).
  - apply reach_init.
  - lia.
  - repeat constructor; vm_compute; (lia || discriminate).
Defined.

Lemma no_aliasing_witness :
  reachable 1 2 3 4 8 32 small_memory /\
  (phys 1 2 (offsetOf 1 0) = phys 1 2 (offsetOf 1 1) -> 0 = 1) /\
  phys 1 1 0 <> phys 1 2 (offsetOf 1 0).
Proof.
  destruct small_state as (_ & Hreach & _). split; [exact Hreach|].
  destruct (no_aliasing 1 2 3 4 8 32 small_config_ok small_memory 0 1 2 2 Hreach
              ltac:(lia) ltac:(lia) eq_refl eq_refl) as [H1 H2].
  split; [exact H1|].
  apply (H2 [0] 1 0); [repeat constructor; vm_compute; (lia || discriminate)
                      | simpl; lia | reflexivity | unfold row_ok, PAGE_SIZE; lia].
Defined.

Lemma no_frame_leak_witness :
  reachable 1 2 3 4 8 32 small_memory /\
  frame_at 1 small_memory [0; 0] = Some 2 /\
  1 <= 2 < 3 /\
  exists q, path_ok 1 q /\ Z.of_nat (length q) <= 2 /\ frame_at 1 small_memory q = Some 1.
Proof.
  destruct small_state as (_ & Hreach & _). split; [exact Hreach|].
  split; [reflexivity|].
  destruct (no_frame_leak 1 2 3 4 8 32 small_config_ok small_memory [0; 0] 2 Hreach)
    as (H1 & _ & H3).
  - repeat constructor; vm_compute; (lia || discriminate).
  - simpl. lia.
  - reflexivity.
  - discriminate.
  - split; [exact H1|]. apply H3. lia.
Defined.

Lemma allocateFrame_footprint_witness :
  alloc_call 1 2 3 4 8 32 small_memory 0 1 2 false /\
  fst (allocateFrame 1 2 3 4 0 1 2 false small_memory) = 2 /\
  entry 1 small_memory 1 0 = 2 /\
  PMread 0 (snd (allocateFrame 1 2 3 4 0 1 2 false small_memory)) = PMread 0 small_memory /\
  swapFile (snd (allocateFrame 1 2 3 4 0 1 2 false small_memory)) =
    <[victimPage (alloc_info 1 2 4 0 2 small_memory) :=
        frame_words 1 (victimFrame (alloc_info 1 2 4 0 2 small_memory)) small_memory]>
      (swapFile small_memory).
Proof.
  destruct small_state as (_ & _ & _ & Hcall & Hdec). split; [exact Hcall|].
  assert (Hfst : fst (allocateFrame 1 2 3 4 0 1 2 false small_memory) = 2)
    by (vm_compute; reflexivity).
  assert (He : entry 1 small_memory 1 0 = 2) by (vm_compute; reflexivity).
  split; [exact Hfst|]. split; [exact He|].
  pose proof (allocateFrame_footprint 1 2 3 4 8 32 small_config_ok _ _ _ _ _ 0 Hcall) as H.
  cbn zeta in H. rewrite Hdec in H. destruct H as (_ & Hkeep & Huniq & Hswap).
  split; [|exact Hswap]. apply Hkeep.
  - rewrite Hfst. unfold PAGE_SIZE. lia.
  - intros p P rw Hp Hl Hat Hrw HP.
    assert (Hp1 : path_ok 1 [0]) by (repeat constructor; vm_compute; (lia || discriminate)).
    assert (Hr0 : row_ok 1 0) by (unfold row_ok, PAGE_SIZE; lia).
    destruct (Huniq p P rw [0] 1 0 Hp Hl Hat Hp1 ltac:(simpl; lia) eq_refl Hrw Hr0 HP)
      as [-> ->]; [rewrite Hfst; exact He|].
    vm_compute. discriminate.
Defined.

Lemma resident_capacity_witness :
  reachable 1 2 3 4 8 32 small_memory /\
  Z.of_nat (length (mapped_leaves 1 2 small_memory)) <= 3 - 2.
Proof.
  destruct small_state as (_ & Hreach & _). split; [exact Hreach|].
  apply (resident_capacity 1 2 3 4 8 32 small_config_ok small_memory Hreach).
Defined.

Lemma scan_empty_table_witness :
  scan 1 2 4 1 1 1 0 2 scanInfo_init 0 (mkPM ∅ ∅) =
  set_empty 1 UINT64_MAX 0 scanInfo_init.
Proof.
  apply (scan_empty_table 1 2 4 O 1 1 0 2 scanInfo_init 0 (mkPM ∅ ∅)).
  - intros row _. reflexivity.
  - vm_compute. discriminate.
Defined.

Lemma allocateFrame_empty_tree_witness :
  allocateFrame 1 2 3 4 0 0 0 false (mkPM ∅ ∅) = (1, clearFrame 1 1 false (mkPM ∅ ∅)).
Proof.
  apply (allocateFrame_empty_tree 1 2 3 4 8 32 small_config_ok (mkPM ∅ ∅) 0 0 false).
  intros row _. reflexivity.
Defined.

